(** * RotaInteligente: job client, map layer synchronisation, signal-phase simulator

    A shallow embedding of the TypeScript sources of the web client
    (services/api.ts, App.tsx, components/MapView.tsx,
    components/TrafficLightPopup.tsx, components/SearchBox.tsx) and of the
    search panel of the mobile client (components/SearchPanel.tsx), and the
    properties stated about them.

    Conventions.
    - A JavaScript [number] that the code only ever uses as an integer is a
      [Z]; the one place where the integer fragment is left ([t % 0]) is made
      explicit with [NaN].  Overflow of the 53-bit integer range is not
      modelled.
    - Asynchronous code is a deterministic machine stepped by the events the
      runtime delivers (promise resolutions, timer ticks, DOM events).
    - The MapLibre map is an external object; its behaviour is written out in
      [Module Surface].
    - A JavaScript string whose length or characters the code inspects is the
      list of its UTF-16 code units ([Module Js]); identifiers and messages
      that are only compared or passed on are [string]s. *)

From Stdlib Require Import ZArith List Bool String Ascii Lia QArith Qround.
From Stdlib Require Import DecimalString DecimalNat.
Import ListNotations.

Local Open Scope Z_scope.

(* ------------------------------------------------------------------ *)
(** * services/api.ts *)
(* ------------------------------------------------------------------ *)

Module Api.

(** [status: 'pending' | 'processing' | 'completed' | 'failed'] *)
Inductive Status := pending | processing | completed | failed.

(** Non-integer JS numbers (coordinates) are carried as rationals; no
    arithmetic is done on them in the code modelled here. *)
Record TollPoint := {
  toll_lat : Q; toll_lon : Q; toll_name : string; toll_operator : string
}.

Record AccidentPoint := {
  acc_lat : Q; acc_lon : Q; acc_type : string; acc_severity : string;
  acc_description : string; acc_delay_minutes : Z
}.

Record CongestionSegment := {
  seg_coordinates : list (Q * Q);
  congestion_level : string;
  seg_color : string
}.

Record WeatherSample := {
  ws_lat : Q; ws_lon : Q; rain_risk : string; precip_prob : Z
}.

Record TrafficLightPoint := {
  tl_lat : Q; tl_lon : Q;
  osm_id : Z;
  tl_name : string;
  green_duration : Z;
  yellow_duration : Z;
  red_duration : Z
}.

Record Geometry := { geo_type : string; coordinates : list (Q * Q) }.

Record RouteResult := {
  route_id : string;
  status : Status;
  error : option string;
  route_geometry : option Geometry;
  samples : option (list WeatherSample);
  toll_points : option (list TollPoint);
  accident_points : option (list AccidentPoint);
  congestion_segments : option (list CongestionSegment);
  traffic_light_points : option (list TrafficLightPoint)
}.

(** A thrown value: [err.message] and, for an HTTP error answered by the
    backend, [err.response?.data?.detail]. *)
Record JsError := { message : string; detail : option string }.

Definition timeout_message : string :=
  "Timeout: análise não concluiu a tempo.".

Definition TimeoutError : JsError :=
  {| message := timeout_message; detail := None |}.

(** How a promise settles. *)
Inductive settled (A : Type) := Resolved (a : A) | Rejected (e : JsError).
Arguments Resolved {A} a.
Arguments Rejected {A} e.

(** The backend as the poll loop sees it: the answer to the [k]-th
    [GET /routes/{route_id}] (counted from 0). *)
Definition Backend := nat -> settled RouteResult.

(** What the loop does to the outside world. *)
Record Net := {
  fetches : nat;        (* number of GETs issued so far *)
  slept : list Z        (* the [setTimeout(r, interval)] waits, in order *)
}.

Definition getRouteResult (backend : Backend) (net : Net)
    : settled RouteResult * Net :=
  (backend (fetches net),
   {| fetches := S (fetches net); slept := slept net |}).

Definition sleep (interval : Z) (net : Net) : Net :=
  {| fetches := fetches net; slept := slept net ++ [interval] |}.

(** [result.status === 'completed' || result.status === 'failed'] *)
Definition is_final (st : Status) : bool :=
  match st with completed | failed => true | _ => false end.

(** The body of [for (let i = 0; i < maxAttempts; i++)], by recursion on the
    number [maxAttempts - i] of iterations still allowed. *)
Fixpoint poll_loop (backend : Backend) (interval : Z) (left : nat) (net : Net)
    : settled RouteResult * Net :=
  match left with
  | O => (Rejected TimeoutError, net)
  | S left' =>
      match getRouteResult backend net with
      | (Rejected e, net1) => (Rejected e, net1)
      | (Resolved result, net1) =>
          if is_final (status result) then (Resolved result, net1)
          else poll_loop backend interval left' (sleep interval net1)
      end
  end.

(** [pollRoute(routeId, interval = 1500, maxAttempts = 60)] *)
Definition pollRoute (backend : Backend) (interval : Z) (maxAttempts : nat)
    (net : Net) : settled RouteResult * Net :=
  poll_loop backend interval maxAttempts net.

Definition default_interval : Z := 1500.
Definition default_maxAttempts : nat := 60.

(** ** Auxiliary notions for the statements about this module *)

(** The answer to the [k]-th GET keeps the loop going. *)
Definition keeps_polling (backend : Backend) (k : nat) : Prop :=
  exists r, backend k = Resolved r /\ (status r = pending \/ status r = processing).

(** Sample answers of the backend. *)
Definition processing_result : RouteResult :=
  {| route_id := "r"; status := processing; error := None;
     route_geometry := None; samples := None; toll_points := None;
     accident_points := None; congestion_segments := None;
     traffic_light_points := None |}.

Definition always_processing : Backend := fun _ => Resolved processing_result.

Definition completed_result (rid : string) : RouteResult :=
  {| route_id := rid; status := completed; error := None;
     route_geometry := Some {| geo_type := "LineString"; coordinates := [] |};
     samples := None; toll_points := None; accident_points := None;
     congestion_segments := None; traffic_light_points := None |}.

Definition sample_segment : CongestionSegment :=
  {| seg_coordinates := []; congestion_level := "free"; seg_color := "#16a34a" |}.

Definition full_result : RouteResult :=
  {| route_id := "a"; status := completed; error := None;
     route_geometry := Some {| geo_type := "LineString"; coordinates := [] |};
     samples := Some [{| ws_lat := 0; ws_lon := 0; rain_risk := "none"; precip_prob := 0 |}];
     toll_points := Some [{| toll_lat := 0; toll_lon := 0; toll_name := "T"; toll_operator := "O" |}];
     accident_points := None;
     congestion_segments := Some [sample_segment; sample_segment];
     traffic_light_points := None |}.

Definition two_segment_result : RouteResult :=
  {| route_id := "a"; status := completed; error := None;
     route_geometry := Some {| geo_type := "LineString"; coordinates := [] |};
     samples := None; toll_points := None; accident_points := None;
     congestion_segments := Some [sample_segment; sample_segment];
     traffic_light_points := None |}.

Definition one_segment_result : RouteResult :=
  {| route_id := "b"; status := completed; error := None;
     route_geometry := Some {| geo_type := "LineString"; coordinates := [] |};
     samples := None; toll_points := None; accident_points := None;
     congestion_segments := Some [sample_segment];
     traffic_light_points := None |}.

Definition geometry_result : RouteResult :=
  {| route_id := "a"; status := completed; error := None;
     route_geometry := Some {| geo_type := "LineString"; coordinates := [] |};
     samples := None; toll_points := None; accident_points := None;
     congestion_segments := None; traffic_light_points := None |}.

End Api.

(* ------------------------------------------------------------------ *)
(** * App.tsx *)
(* ------------------------------------------------------------------ *)

Module App.
Import Api.

(** The three [useState] cells written by [handleAnalyze]. *)
Record AppState := {
  loading : bool;
  error_msg : option string;
  result : option RouteResult
}.

(** Calls of the state setters, in the order they are made. *)
Inductive Emission :=
| SetLoading (b : bool)
| SetError (e : option string)
| SetResult (r : option RouteResult).

Definition apply_emission (a : AppState) (e : Emission) : AppState :=
  match e with
  | SetLoading b => {| loading := b; error_msg := error_msg a; result := result a |}
  | SetError m => {| loading := loading a; error_msg := m; result := result a |}
  | SetResult r => {| loading := loading a; error_msg := error_msg a; result := r |}
  end.

(** [a || b] on possibly absent / empty strings. *)
Definition or_else (a : option string) (b : string) : string :=
  match a with
  | Some s => if String.eqb s EmptyString then b else s
  | None => b
  end.

(** The [catch] branch:
    [err.response?.data?.detail || err.message || 'Erro ao analisar rota. ...'] *)
Definition catch_message (e : JsError) : string :=
  or_else (detail e)
    (or_else (Some (message e))
       "Erro ao analisar rota. Verifique se o backend está rodando.").

(** What [handleAnalyze] emits once [pollRoute] has settled. *)
Definition on_poll_settled (r : settled RouteResult) : list Emission :=
  match r with
  | Resolved routeResult =>
      match status routeResult with
      | failed =>
          [SetError (Some (or_else (error routeResult)
                             "Erro desconhecido na análise da rota."));
           SetLoading false]
      | _ => [SetResult (Some routeResult); SetLoading false]
      end
  | Rejected err => [SetError (Some (catch_message err)); SetLoading false]
  end.

(** Where one invocation of [handleAnalyze] is suspended. *)
Inductive Pc :=
| AwaitCreate                 (* await createRoute(...) *)
| AwaitFetch (i : nat)        (* await getRouteResult(routeId), iteration i *)
| AwaitSleep (i : nat)        (* await new Promise(r => setTimeout(r, interval)) *)
| Finished.

Record Sys := {
  app : AppState;
  jobs : list Pc;             (* one entry per invocation, oldest first *)
  log : list Emission;        (* every setter call so far *)
  requests : nat              (* GET /routes/{id} requests issued *)
}.

Definition initial : Sys :=
  {| app := {| loading := false; error_msg := None; result := None |};
     jobs := []; log := []; requests := 0 |}.

Definition emit (es : list Emission) (s : Sys) : Sys :=
  {| app := fold_left apply_emission es (app s);
     jobs := jobs s; log := log s ++ es; requests := requests s |}.

Fixpoint set_nth {A} (n : nat) (x : A) (l : list A) : list A :=
  match l, n with
  | [], _ => []
  | _ :: t, O => x :: t
  | h :: t, S n' => h :: set_nth n' x t
  end.

Definition set_pc (j : nat) (pc : Pc) (s : Sys) : Sys :=
  {| app := app s; jobs := set_nth j pc (jobs s); log := log s;
     requests := requests s |}.

(** Entering iteration [i] of the poll loop of job [j]: the loop test
    [i < maxAttempts], then either the next GET or the [throw]. *)
Definition enter_iteration (maxAttempts : nat) (j i : nat) (s : Sys) : Sys :=
  if (i <? maxAttempts)%nat then
    let s1 := set_pc j (AwaitFetch i) s in
    {| app := app s1; jobs := jobs s1; log := log s1;
       requests := S (requests s1) |}
  else
    emit (on_poll_settled (Rejected TimeoutError)) (set_pc j Finished s).

Inductive Event :=
| HandleAnalyze                                (* App.handleAnalyze is called *)
| AnalyzeClicked                               (* click on the panel's button *)
| CreateSettled (j : nat) (r : settled string) (* POST /routes settled *)
| FetchSettled (j : nat) (r : settled RouteResult)
| SleepElapsed (j : nat).

(** The synchronous prefix of [handleAnalyze], up to [await createRoute]. *)
Definition handleAnalyze (s : Sys) : Sys :=
  let s1 := emit [SetLoading true; SetError None; SetResult None] s in
  {| app := app s1; jobs := jobs s1 ++ [AwaitCreate]; log := log s1;
     requests := requests s1 |}.

(** RoutePanel: [canAnalyze = origin && dest && !loading]; the button is
    [disabled={!canAnalyze}] (origin and destination taken as chosen). *)
Definition canAnalyze (s : Sys) : bool := negb (loading (app s)).

Definition step (maxAttempts : nat) (s : Sys) (ev : Event) : Sys :=
  match ev with
  | HandleAnalyze => handleAnalyze s
  | AnalyzeClicked => if canAnalyze s then handleAnalyze s else s
  | CreateSettled j r =>
      match nth_error (jobs s) j with
      | Some AwaitCreate =>
          match r with
          | Resolved _ => enter_iteration maxAttempts j 0 s
          | Rejected e =>
              emit (on_poll_settled (Rejected e)) (set_pc j Finished s)
          end
      | _ => s
      end
  | FetchSettled j r =>
      match nth_error (jobs s) j with
      | Some (AwaitFetch i) =>
          match r with
          | Resolved routeResult =>
              if is_final (status routeResult)
              then emit (on_poll_settled r) (set_pc j Finished s)
              else set_pc j (AwaitSleep i) s
          | Rejected e =>
              emit (on_poll_settled (Rejected e)) (set_pc j Finished s)
          end
      | _ => s
      end
  | SleepElapsed j =>
      match nth_error (jobs s) j with
      | Some (AwaitSleep i) => enter_iteration maxAttempts j (S i) s
      | _ => s
      end
  end.

Definition run (maxAttempts : nat) (s : Sys) (evs : list Event) : Sys :=
  fold_left (step maxAttempts) evs s.

(** A job is active while its invocation of [handleAnalyze] is suspended. *)
Definition active (pc : Pc) : bool :=
  match pc with Finished => false | _ => true end.

Definition active_jobs (s : Sys) : nat :=
  List.length (filter active (jobs s)).

(** The emissions a subscriber can see as a result or an error. *)
Definition observable (e : Emission) : bool :=
  match e with
  | SetResult (Some _) | SetError (Some _) => true
  | _ => false
  end.

(** States the user can reach through the panel: the only way to start an
    analysis is the button. *)
Definition from_panel (ev : Event) : bool :=
  match ev with HandleAnalyze => false | _ => true end.

(** Events that start an analysis, as opposed to settling a pending await. *)
Definition starts_analysis (ev : Event) : bool :=
  match ev with HandleAnalyze | AnalyzeClicked => true | _ => false end.

(** ** Auxiliary notions for the statements about this module *)

(** The events of job [j] going through [n] rounds of "fetch answered
    [processing], wait elapsed". *)
Fixpoint rounds (j n : nat) : list Event :=
  match n with
  | O => []
  | S k => FetchSettled j (Resolved processing_result)
             :: SleepElapsed j :: rounds j k
  end.


(** While loading, exactly one invocation is suspended; otherwise none. *)
Definition one_job (s : Sys) : Prop :=
  active_jobs s = (if loading (app s) then 1 else 0)%nat.


End App.

(* ------------------------------------------------------------------ *)
(** * components/TrafficLightPopup.tsx *)
(* ------------------------------------------------------------------ *)

Module Phase.
Import Api.

(** [type LightPhase = 'green' | 'yellow' | 'red'] *)
Inductive LightPhase := green | yellow | red.

(** Integer fragment of JS numbers, with the [NaN] produced by [x % 0]. *)
Inductive num := Num (z : Z) | NaN.

(** [a % b] on integers: truncated remainder (sign of the dividend),
    [NaN] when the divisor is zero. *)
Definition js_rem (a b : Z) : num :=
  if b =? 0 then NaN else Num (Z.rem a b).

(** [a < b]: every comparison with [NaN] is false. *)
Definition js_lt (a : num) (b : Z) : bool :=
  match a with Num x => x <? b | NaN => false end.

(** [a - b] *)
Definition js_sub (a : Z) (b : num) : num :=
  match b with Num x => Num (a - x) | NaN => NaN end.

Record PhaseAndRemaining := { phase : LightPhase; remaining : num }.

(** [getPhaseAndRemaining(t)], closed over the durations of the signal. *)
Definition getPhaseAndRemaining
    (green_duration yellow_duration red_duration : Z) (t : Z)
    : PhaseAndRemaining :=
  let totalCycle := green_duration + yellow_duration + red_duration in
  let pos := js_rem t totalCycle in
  if js_lt pos green_duration then
    {| phase := green; remaining := js_sub green_duration pos |}
  else if js_lt pos (green_duration + yellow_duration) then
    {| phase := yellow; remaining := js_sub (green_duration + yellow_duration) pos |}
  else
    {| phase := red; remaining := js_sub totalCycle pos |}.

(** The specification's [computePhase], written from its words:
    [cycle = green + yellow + red], [pos = elapsedSec mod cycle]. *)
Definition computePhase (greenSec yellowSec redSec elapsedSec : Z)
    : LightPhase * Z :=
  let cycle := greenSec + yellowSec + redSec in
  let pos := elapsedSec mod cycle in
  if pos <? greenSec then (green, greenSec - pos)
  else if pos <? greenSec + yellowSec then (yellow, greenSec + yellowSec - pos)
  else (red, cycle - pos).

(** The pair the popup hands to [setPhase] / [setCountdown]. *)
Definition as_pair (r : PhaseAndRemaining) : LightPhase * num :=
  (phase r, remaining r).

(** ** The 1 Hz driver: the [useEffect] on [[signal, visible]] *)

(** A timer registered with [setInterval]; its callback closes over the
    signal's durations and the mutable local [elapsed]. *)
Record Interval := {
  interval_id : nat;
  iv_signal : TrafficLightPoint;
  elapsed : Z
}.

Record Popup := {
  st_phase : LightPhase;                 (* useState('green') *)
  st_countdown : num;                    (* useState(0) *)
  intervalRef : option nat;              (* useRef(null) *)
  intervals : list Interval;             (* timers alive in the runtime *)
  next_interval : nat;                   (* next id [setInterval] returns *)
  has_cleanup : bool;                    (* the last effect returned a cleanup *)
  emissions : list (LightPhase * num)    (* setPhase/setCountdown calls *)
}.

Definition mount : Popup :=
  {| st_phase := green; st_countdown := Num 0; intervalRef := None;
     intervals := []; next_interval := 1; has_cleanup := false;
     emissions := [] |}.

(** [clearInterval(id)] *)
Definition clearInterval (id : nat) (p : Popup) : Popup :=
  {| st_phase := st_phase p; st_countdown := st_countdown p;
     intervalRef := intervalRef p;
     intervals := filter (fun iv => negb (interval_id iv =? id)%nat) (intervals p);
     next_interval := next_interval p; has_cleanup := has_cleanup p;
     emissions := emissions p |}.

(** [if (intervalRef.current) clearInterval(intervalRef.current)] *)
Definition clear_current (p : Popup) : Popup :=
  match intervalRef p with
  | Some id => if (id =? 0)%nat then p else clearInterval id p
  | None => p
  end.

(** [setPhase(ph); setCountdown(r)] *)
Definition show (r : PhaseAndRemaining) (p : Popup) : Popup :=
  {| st_phase := phase r; st_countdown := remaining r;
     intervalRef := intervalRef p; intervals := intervals p;
     next_interval := next_interval p; has_cleanup := has_cleanup p;
     emissions := emissions p ++ [as_pair r] |}.

Definition totalCycle (s : TrafficLightPoint) : Z :=
  green_duration s + yellow_duration s + red_duration s.

Definition phase_of (s : TrafficLightPoint) (t : Z) : PhaseAndRemaining :=
  getPhaseAndRemaining (green_duration s) (yellow_duration s) (red_duration s) t.

(** [Math.floor(Math.random() * totalCycle)], for the value [u] that
    [Math.random()] returned. *)
Definition startOffset (u : Q) (s : TrafficLightPoint) : Z :=
  Qfloor (u * inject_Z (totalCycle s)).

(** The effect body. *)
Definition effect (signal : option TrafficLightPoint) (visible : bool) (u : Q)
    (p : Popup) : Popup :=
  match signal, visible with
  | Some s, true =>
      let elapsed0 := startOffset u s in
      let p1 := show (phase_of s elapsed0) p in
      let id := next_interval p1 in
      {| st_phase := st_phase p1; st_countdown := st_countdown p1;
         intervalRef := Some id;
         intervals := intervals p1 ++
           [{| interval_id := id; iv_signal := s; elapsed := elapsed0 |}];
         next_interval := S id; has_cleanup := true;
         emissions := emissions p1 |}
  | _, _ =>
      let p1 := clear_current p in
      {| st_phase := st_phase p1; st_countdown := st_countdown p1;
         intervalRef := intervalRef p1; intervals := intervals p1;
         next_interval := next_interval p1; has_cleanup := false;
         emissions := emissions p1 |}
  end.

(** The cleanup React runs before re-running the effect and on unmount. *)
Definition cleanup (p : Popup) : Popup :=
  if has_cleanup p then clear_current p else p.

(** One firing of a timer: [elapsed += 1], recompute, publish. *)
Definition fire (iv : Interval) : Interval * PhaseAndRemaining :=
  let e := elapsed iv + 1 in
  ({| interval_id := interval_id iv; iv_signal := iv_signal iv; elapsed := e |},
   phase_of (iv_signal iv) e).

Definition tick (p : Popup) : Popup :=
  let fired := map fire (intervals p) in
  let p1 := fold_left (fun q r => show r q) (map snd fired) p in
  {| st_phase := st_phase p1; st_countdown := st_countdown p1;
     intervalRef := intervalRef p1; intervals := map fst fired;
     next_interval := next_interval p1; has_cleanup := has_cleanup p1;
     emissions := emissions p1 |}.

Inductive Event :=
| Deps (signal : option TrafficLightPoint) (visible : bool) (u : Q)
      (* [signal] or [visible] changed; [u] is what Math.random() yields *)
| Tick        (* one second elapsed *)
| Unmount.

Definition step (p : Popup) (ev : Event) : Popup :=
  match ev with
  | Deps signal visible u => effect signal visible u (cleanup p)
  | Tick => tick p
  | Unmount => cleanup p
  end.

Definition run (p : Popup) (evs : list Event) : Popup := fold_left step evs p.


Fixpoint ticks (n : nat) (p : Popup) : Popup :=
  match n with O => p | S k => ticks k (tick p) end.

(** ** Auxiliary notions for the statements about this module *)

(** Every timer alive is the one [intervalRef] points to, and its effect
    registered a cleanup. *)
Definition driver_inv (p : Popup) : Prop :=
  (0 < next_interval p)%nat /\
  forall iv, In iv (intervals p) ->
    has_cleanup p = true /\ intervalRef p = Some (interval_id iv) /\
    interval_id iv <> 0%nat.


End Phase.

(* ------------------------------------------------------------------ *)
(** * The MapLibre map, as MapView uses it *)
(* ------------------------------------------------------------------ *)

Module Surface.

Local Open Scope string_scope.

Inductive LayerType := line | circle | symbol | raster.

Record Layer := { id : string; type : LayerType; source : string }.

(** The style of a loaded map: its sources (keys of [getStyle().sources], in
    insertion order), its layers from bottom to top, whether the style has a
    [glyphs] property (the styles loaded from a URL do; the style that
    [rasterStyle(tileUrl)] builds has none), and the number of [error] events
    the map has fired.  GeoJSON payloads and paint properties are not part of
    the model. *)
Record Map := {
  sources : list string;
  layers : list Layer;
  glyphs : bool;
  error_events : nat
}.

(** A [symbol] layer stands for a layer whose layout has a [text-field], as
    every symbol layer of MapView has: the style must provide glyphs for it. *)
Definition needs_glyphs (l : Layer) : bool :=
  match type l with symbol => true | _ => false end.

Inductive result (A : Type) := Ok (a : A) | Throw (msg : string).
Arguments Ok {A} a.
Arguments Throw {A} msg.

(** Code running against the map: it may change it, and it may throw. *)
Definition M (A : Type) := Map -> result (A * Map).

Definition ret {A} (a : A) : M A := fun m => Ok (a, m).

Definition bind {A B} (c : M A) (k : A -> M B) : M B :=
  fun m => match c m with
           | Ok (a, m') => k a m'
           | Throw e => Throw e
           end.

Definition has_layer (i : string) (m : Map) : bool :=
  existsb (fun l => String.eqb (id l) i) (layers m).

Definition has_source (i : string) (m : Map) : bool :=
  existsb (String.eqb i) (sources m).

Definition in_use (i : string) (m : Map) : bool :=
  existsb (fun l => String.eqb (source l) i) (layers m).

(** [m.getLayer(id)] and [m.getSource(id)], used for their truthiness. *)
Definition getLayer (i : string) : M bool := fun m => Ok (has_layer i m, m).
Definition getSource (i : string) : M bool := fun m => Ok (has_source i m, m).

(** [m.getStyle()?.layers || []] and [Object.keys(m.getStyle()?.sources || {})] *)
Definition getStyleLayers : M (list Layer) := fun m => Ok (layers m, m).
Definition getStyleSources : M (list string) := fun m => Ok (sources m, m).

Definition fire_error : M unit :=
  fun m => Ok (tt, {| sources := sources m; layers := layers m;
                      glyphs := glyphs m;
                      error_events := S (error_events m) |}).

(** One error event per validation error. *)
Definition fire_errors (n : nat) : M unit :=
  fun m => Ok (tt, {| sources := sources m; layers := layers m;
                      glyphs := glyphs m;
                      error_events := error_events m + n |}).

(** [removeLayer]: an unknown id fires an error event and changes nothing. *)
Definition removeLayer (i : string) : M unit :=
  fun m =>
    if has_layer i m then
      Ok (tt, {| sources := sources m;
                 layers := filter (fun l => negb (String.eqb (id l) i)) (layers m);
                 glyphs := glyphs m;
                 error_events := error_events m |})
    else fire_error m.

(** [removeSource]: throws on an unknown id; refuses (error event) while a
    layer still uses the source. *)
Definition removeSource (i : string) : M unit :=
  fun m =>
    if negb (has_source i m) then Throw "There is no source with this ID"
    else if in_use i m then fire_error m
    else Ok (tt, {| sources := filter (fun s => negb (String.eqb s i)) (sources m);
                    layers := layers m;
                    glyphs := glyphs m;
                    error_events := error_events m |}).

(** The double quote, as a string. *)
Definition dquote : string := String (Ascii.ascii_of_nat 34) EmptyString.

(** The text of the error [addSource] throws for a taken id:
    [Source "<id>" already exists.] *)
Definition source_exists_message (i : string) : string :=
  "Source " ++ dquote ++ i ++ dquote ++ " already exists.".

(** [addSource]: throws when the id is taken. *)
Definition addSource (i : string) : M unit :=
  fun m =>
    if has_source i m then Throw (source_exists_message i)
    else Ok (tt, {| sources := sources m ++ [i]; layers := layers m;
                    glyphs := glyphs m;
                    error_events := error_events m |}).

(** What the validation of a new layer reports: its source is not in the
    style; it has a [text-field] and the style has no glyphs. *)
Definition validation_errors (l : Layer) (m : Map) : nat :=
  (if has_source (source l) m then 0 else 1)
  + (if needs_glyphs l && negb (glyphs m) then 1 else 0).

(** [addLayer(layer)] without a [beforeId]: the layer goes on top.  A taken
    id fires an error event and adds nothing; so does every validation
    error. *)
Definition addLayer (l : Layer) : M unit :=
  fun m =>
    if has_layer (id l) m then fire_error m
    else match validation_errors l m with
         | O => Ok (tt, {| sources := sources m; layers := layers m ++ [l];
                           glyphs := glyphs m;
                           error_events := error_events m |})
         | n => fire_errors n m
         end.

End Surface.

Declare Scope map_scope.
Delimit Scope map_scope with map.
Notation "x <- c ;; k" := (Surface.bind c (fun x => k))
  (at level 61, c at next level, right associativity) : map_scope.
Notation "c ;; k" := (Surface.bind c (fun _ => k))
  (at level 61, right associativity) : map_scope.

(* ------------------------------------------------------------------ *)
(** * components/MapView.tsx *)
(* ------------------------------------------------------------------ *)

Module MapView.
Import Api Surface.

Local Open Scope string_scope.
Local Open Scope map_scope.

(** [if (b) c] *)
Definition when (b : bool) (c : M unit) : M unit := if b then c else ret tt.

(** [xs.forEach(f)] and [xs.forEach((x, idx) => f)] *)
Fixpoint forEach {A} (xs : list A) (f : A -> M unit) : M unit :=
  match xs with
  | [] => ret tt
  | x :: t => f x ;; forEach t f
  end.

Fixpoint forEach_from {A} (idx : nat) (xs : list A) (f : A -> nat -> M unit)
    : M unit :=
  match xs with
  | [] => ret tt
  | x :: t => f x idx ;; forEach_from (S idx) t f
  end.

(** [s.startsWith(p)] *)
Fixpoint startsWith (s p : string) {struct p} : bool :=
  match p with
  | EmptyString => true
  | String a p' =>
      match s with
      | EmptyString => false
      | String b s' => Ascii.eqb b a && startsWith s' p'
      end
  end.

(** [`${idx}`] for an array index. *)
Definition show_index (idx : nat) : string :=
  NilZero.string_of_uint (Nat.to_uint idx).

(** The [useRef] cells the layer functions read ([map.current] is taken to
    be set: every function below returns at once when it is not). *)
Record Refs := {
  routeGeomRef : option Geometry;
  samplesRef : option (list WeatherSample);
  tollPointsRef : list TollPoint;
  accidentPointsRef : list AccidentPoint;
  congestionSegmentsRef : list CongestionSegment;
  trafficLightPointsRef : list TrafficLightPoint
}.

Record Props := {
  routeGeometry : option Geometry;
  p_samples : option (list WeatherSample);
  tollPoints : option (list TollPoint);
  accidentPoints : option (list AccidentPoint);
  congestionSegments : option (list CongestionSegment);
  trafficLightPoints : option (list TrafficLightPoint)
}.

(** App.tsx: [routeGeometry={result?.route_geometry}] and so on. *)
Definition props_of (r : option RouteResult) : Props :=
  match r with
  | None =>
      {| routeGeometry := None; p_samples := None; tollPoints := None;
         accidentPoints := None; congestionSegments := None;
         trafficLightPoints := None |}
  | Some r =>
      {| routeGeometry := route_geometry r; p_samples := Api.samples r;
         tollPoints := toll_points r; accidentPoints := accident_points r;
         congestionSegments := congestion_segments r;
         trafficLightPoints := traffic_light_points r |}
  end.

Definition or_empty {A} (o : option (list A)) : list A :=
  match o with Some l => l | None => [] end.

(** "Keep refs in sync":
    [if (routeGeometry) routeGeomRef.current = routeGeometry],
    [samplesRef.current = samples || null],
    [tollPointsRef.current = tollPoints || []], ... *)
Definition sync_refs (p : Props) (r : Refs) : Refs :=
  {| routeGeomRef :=
       match routeGeometry p with Some g => Some g | None => routeGeomRef r end;
     samplesRef := p_samples p;
     tollPointsRef := or_empty (tollPoints p);
     accidentPointsRef := or_empty (accidentPoints p);
     congestionSegmentsRef := or_empty (congestionSegments p);
     trafficLightPointsRef := or_empty (trafficLightPoints p) |}.

Definition initial_refs : Refs :=
  {| routeGeomRef := None; samplesRef := None; tollPointsRef := [];
     accidentPointsRef := []; congestionSegmentsRef := [];
     trafficLightPointsRef := [] |}.

(** [if (m.getLayer(id)) m.removeLayer(id)] *)
Definition dropLayer (i : string) : M unit :=
  b <- getLayer i ;; when b (removeLayer i).

(** [if (m.getSource(id)) m.removeSource(id)] *)
Definition dropSource (i : string) : M unit :=
  b <- getSource i ;; when b (removeSource i).

Definition is_empty {A} (l : list A) : bool :=
  match l with [] => true | _ => false end.

Definition addRouteLayers (r : Refs) : M unit :=
  match routeGeomRef r with
  | None => ret tt
  | Some geom =>
      dropLayer "route-line" ;;
      dropLayer "route-outline" ;;
      dropSource "route" ;;
      let hasCongestion := negb (is_empty (congestionSegmentsRef r)) in
      addSource "route" ;;
      addLayer {| id := "route-outline"; type := line; source := "route" |} ;;
      when (negb hasCongestion)
        (addLayer {| id := "route-line"; type := line; source := "route" |})
  end.

Definition addTollLayers (r : Refs) : M unit :=
  let tolls := tollPointsRef r in
  forEach ["toll-labels"; "toll-circles"] dropLayer ;;
  dropSource "tolls" ;;
  if is_empty tolls then ret tt else
  addSource "tolls" ;;
  addLayer {| id := "toll-circles"; type := circle; source := "tolls" |} ;;
  addLayer {| id := "toll-labels"; type := symbol; source := "tolls" |}.

Definition addAccidentLayers (r : Refs) : M unit :=
  let accidents := accidentPointsRef r in
  forEach ["accident-labels"; "accident-circles"] dropLayer ;;
  dropSource "accidents" ;;
  if is_empty accidents then ret tt else
  addSource "accidents" ;;
  addLayer {| id := "accident-circles"; type := circle; source := "accidents" |} ;;
  addLayer {| id := "accident-labels"; type := symbol; source := "accidents" |}.

Definition seg_prefix : string := "congestion-seg-".

Definition addCongestionLayers (r : Refs) : M unit :=
  let segments := congestionSegmentsRef r in
  existingLayers <- getStyleLayers ;;
  forEach existingLayers
    (fun l => when (startsWith (id l) seg_prefix) (removeLayer (id l))) ;;
  existingSources <- getStyleSources ;;
  forEach existingSources
    (fun s => when (startsWith s seg_prefix) (removeSource s)) ;;
  if is_empty segments then ret tt else
  forEach_from 0 segments (fun seg idx =>
    let sourceId := "congestion-seg-" ++ show_index idx in
    let lineId := "congestion-seg-line-" ++ show_index idx in
    let outlineId := "congestion-seg-outline-" ++ show_index idx in
    addSource sourceId ;;
    addLayer {| id := outlineId; type := line; source := sourceId |} ;;
    addLayer {| id := lineId; type := line; source := sourceId |}).

Definition addTrafficLightLayers (r : Refs) : M unit :=
  let signals := trafficLightPointsRef r in
  forEach ["signal-labels"; "signal-circles"] dropLayer ;;
  dropSource "signals" ;;
  if is_empty signals then ret tt else
  addSource "signals" ;;
  addLayer {| id := "signal-circles"; type := circle; source := "signals" |} ;;
  addLayer {| id := "signal-labels"; type := symbol; source := "signals" |}.

Definition addSampleLayers (r : Refs) : M unit :=
  let s := samplesRef r in
  forEach ["samples-labels"; "samples-circles"; "samples-circles-stroke"]
    dropLayer ;;
  dropSource "samples" ;;
  if is_empty (or_empty s) then ret tt else
  addSource "samples" ;;
  addLayer {| id := "samples-circles-stroke"; type := circle; source := "samples" |} ;;
  addLayer {| id := "samples-circles"; type := circle; source := "samples" |} ;;
  addLayer {| id := "samples-labels"; type := symbol; source := "samples" |}.

(** "Rebuild all layers (route + samples + toll + accidents + congestion +
    signals)" *)
Definition rebuildLayers (r : Refs) : M unit :=
  addRouteLayers r ;;
  addCongestionLayers r ;;
  addSampleLayers r ;;
  addTollLayers r ;;
  addAccidentLayers r ;;
  addTrafficLightLayers r.

(** The data effects, for a loaded style ([isStyleLoaded()]; otherwise the
    same body runs at the next [styledata] event). *)
Definition effect_routeGeometry (p : Props) (r : Refs) : M unit :=
  match routeGeometry p with
  | None => ret tt
  | Some _ =>
      addRouteLayers r ;; addCongestionLayers r ;;
      addSampleLayers r ;; addTrafficLightLayers r
  end.

Definition effect_samples (r : Refs) : M unit := addSampleLayers r.
Definition effect_tollPoints (r : Refs) : M unit := addTollLayers r.
Definition effect_accidentPoints (r : Refs) : M unit := addAccidentLayers r.
Definition effect_congestionSegments (r : Refs) : M unit :=
  addRouteLayers r ;; addCongestionLayers r.
Definition effect_trafficLightPoints (r : Refs) : M unit :=
  addTrafficLightLayers r.

(** A new [result] reaches MapView (App.tsx: [setResult]).  The props taken
    from a new result are new objects, so their data effects are due; React
    runs them in the order they are declared, the "keep refs in sync"
    effects first.  This is the render at which every data prop changed;
    [on_props] below is the render in general, where an effect whose prop is
    absent before and after is not due. *)
Definition on_result (res : option RouteResult) (r : Refs) : Refs * M unit :=
  let p := props_of res in
  let r' := sync_refs p r in
  (r', effect_routeGeometry p r' ;; effect_samples r' ;; effect_tollPoints r' ;;
       effect_accidentPoints r' ;; effect_congestionSegments r' ;;
       effect_trafficLightPoints r').

(** ** The effects that are due *)

(** A prop of MapView differs between two renders.  Every result that
    reaches MapView is a new object and so is each array it carries; an
    absent prop is [undefined]: a prop is unchanged only when it is absent
    before and after. *)
Definition changed {A} (prev next : option A) : bool :=
  match prev, next with
  | None, None => false
  | _, _ => true
  end.

(** The "keep refs in sync" effects whose dependency changed. *)
Definition sync_changed (prev p : Props) (r : Refs) : Refs :=
  {| routeGeomRef :=
       match routeGeometry p with Some g => Some g | None => routeGeomRef r end;
     samplesRef :=
       if changed (p_samples prev) (p_samples p) then p_samples p
       else samplesRef r;
     tollPointsRef :=
       if changed (tollPoints prev) (tollPoints p) then or_empty (tollPoints p)
       else tollPointsRef r;
     accidentPointsRef :=
       if changed (accidentPoints prev) (accidentPoints p)
       then or_empty (accidentPoints p) else accidentPointsRef r;
     congestionSegmentsRef :=
       if changed (congestionSegments prev) (congestionSegments p)
       then or_empty (congestionSegments p) else congestionSegmentsRef r;
     trafficLightPointsRef :=
       if changed (trafficLightPoints prev) (trafficLightPoints p)
       then or_empty (trafficLightPoints p) else trafficLightPointsRef r |}.

(** MapView is rendered with the props [p], the props of the render before
    being [prev].  React runs the effects whose dependency changed, in the
    order they are declared: the "keep refs in sync" effects first, then the
    data effects (for a loaded style). *)
Definition on_props (prev p : Props) (r : Refs) : Refs * M unit :=
  let r' := sync_changed prev p r in
  (r',
   when (changed (routeGeometry prev) (routeGeometry p))
     (effect_routeGeometry p r') ;;
   when (changed (p_samples prev) (p_samples p)) (effect_samples r') ;;
   when (changed (tollPoints prev) (tollPoints p)) (effect_tollPoints r') ;;
   when (changed (accidentPoints prev) (accidentPoints p))
     (effect_accidentPoints r') ;;
   when (changed (congestionSegments prev) (congestionSegments p))
     (effect_congestionSegments r') ;;
   when (changed (trafficLightPoints prev) (trafficLightPoints p))
     (effect_trafficLightPoints r')).

(** ** Channels and their reserved identifiers *)

Inductive Channel := Route | Congestion | Samples | Tolls | Accidents | Signals.

Definition channels : list Channel :=
  [Route; Congestion; Samples; Tolls; Accidents; Signals].

Definition mem (s : string) (l : list string) : bool := existsb (String.eqb s) l.

(** The layer identifiers a channel reserves. *)
Definition on_layer_id (c : Channel) (i : string) : bool :=
  match c with
  | Route => mem i ["route-line"; "route-outline"]
  | Congestion => startsWith i seg_prefix
  | Samples => mem i ["samples-labels"; "samples-circles"; "samples-circles-stroke"]
  | Tolls => mem i ["toll-labels"; "toll-circles"]
  | Accidents => mem i ["accident-labels"; "accident-circles"]
  | Signals => mem i ["signal-labels"; "signal-circles"]
  end.

(** The source identifiers a channel reserves. *)
Definition on_source_id (c : Channel) (i : string) : bool :=
  match c with
  | Route => String.eqb i "route"
  | Congestion => startsWith i seg_prefix
  | Samples => String.eqb i "samples"
  | Tolls => String.eqb i "tolls"
  | Accidents => String.eqb i "accidents"
  | Signals => String.eqb i "signals"
  end.

Definition on_layer (c : Channel) (l : Layer) : bool := on_layer_id c (id l).

Definition channel_layers (c : Channel) (m : Map) : list Layer :=
  filter (on_layer c) (layers m).

Definition channel_sources (c : Channel) (m : Map) : list string :=
  filter (on_source_id c) (sources m).

(** The map surface honours the namespace: identifiers are unique, and a
    layer drawing from a channel's source carries an identifier of that
    channel (only MapView adds layers on those sources). *)
Definition owned (l : Layer) : bool :=
  forallb (fun c => implb (on_source_id c (source l)) (on_layer c l)) channels.

Record well_formed (m : Map) : Prop := {
  wf_layers : NoDup (map id (layers m));
  wf_sources : NoDup (sources m);
  wf_owned : forallb owned (layers m) = true
}.

(** Stacking order: every layer satisfying [lo] lies below every layer
    satisfying [hi]. *)
Fixpoint below (lo hi : Layer -> bool) (ls : list Layer) : bool :=
  match ls with
  | [] => true
  | l :: t => (negb (hi l) || forallb (fun x => negb (lo x)) t) && below lo hi t
  end.

Definition is_point_channel (l : Layer) : bool :=
  on_layer Samples l || on_layer Tolls l || on_layer Accidents l
  || on_layer Signals l.

Definition is_label (l : Layer) : bool :=
  match type l with symbol => true | _ => false end.

Definition is_circle (l : Layer) : bool :=
  match type l with circle => true | _ => false end.

(** The draw order of the specification: route underlay, then congestion
    segments, then the point layers, then the text labels. *)
Definition draw_order (m : Map) : bool :=
  below (on_layer Route) (on_layer Congestion) (layers m)
  && below (on_layer Congestion) is_point_channel (layers m)
  && below (fun l => is_point_channel l && is_circle l)
           (fun l => is_point_channel l && is_label l) (layers m).

(** The ids and source bindings the congestion channel holds for [n]
    segments. *)
Fixpoint seg_sources (from n : nat) : list string :=
  match n with
  | O => []
  | S k => ("congestion-seg-" ++ show_index from) :: seg_sources (S from) k
  end.

Fixpoint seg_layers (from n : nat) : list Layer :=
  match n with
  | O => []
  | S k =>
      {| id := "congestion-seg-outline-" ++ show_index from; type := line;
         source := "congestion-seg-" ++ show_index from |}
      :: {| id := "congestion-seg-line-" ++ show_index from; type := line;
            source := "congestion-seg-" ++ show_index from |}
      :: seg_layers (S from) k
  end.

End MapView.

(* ------------------------------------------------------------------ *)
(** * components/MapView.tsx: click and hover popups *)
(* ------------------------------------------------------------------ *)

Module Popups.

(** [closeButton: true] (click) or [closeButton: false] (hover). *)
Inductive Kind := Persistent | Transient.

Record Popup := { popup_id : nat; kind : Kind }.

Record State := {
  clickPopupRef : option Popup;
  hoverPopupRef : option Popup;
  shown : list Popup;          (* the popups currently on the map *)
  next_popup : nat
}.

Definition initial : State :=
  {| clickPopupRef := None; hoverPopupRef := None; shown := [];
     next_popup := 0 |}.

(** [ref.current?.remove()]: takes the popup off the map; the ref keeps it. *)
Definition remove (ref : option Popup) (st : State) : State :=
  match ref with
  | None => st
  | Some p =>
      {| clickPopupRef := clickPopupRef st; hoverPopupRef := hoverPopupRef st;
         shown := filter (fun q => negb (popup_id q =? popup_id p)%nat) (shown st);
         next_popup := next_popup st |}
  end.

(** [new maplibregl.Popup({...}).setLngLat(..).setHTML(..).addTo(m)] *)
Definition open (k : Kind) (st : State) : Popup * State :=
  let p := {| popup_id := next_popup st; kind := k |} in
  (p, {| clickPopupRef := clickPopupRef st; hoverPopupRef := hoverPopupRef st;
         shown := shown st ++ [p]; next_popup := S (next_popup st) |}).

Definition set_click (r : option Popup) (st : State) : State :=
  {| clickPopupRef := r; hoverPopupRef := hoverPopupRef st;
     shown := shown st; next_popup := next_popup st |}.

Definition set_hover (r : option Popup) (st : State) : State :=
  {| clickPopupRef := clickPopupRef st; hoverPopupRef := r;
     shown := shown st; next_popup := next_popup st |}.

(** The feature layers with popup handlers. *)
Inductive FeatureLayer :=
  samples_circles | toll_circles | accident_circles | signal_circles.

(** A click on the map: MapLibre closes the popups created with
    [closeOnClick], its default, which no popup of MapView overrides.  They
    leave the map; the refs keep them.  A popup that a handler opens on that
    very click stays. *)
Definition close_on_click (st : State) : State :=
  {| clickPopupRef := clickPopupRef st; hoverPopupRef := hoverPopupRef st;
     shown := []; next_popup := next_popup st |}.

(** [m.on('click', 'samples-circles', ...)]; the other layers have no click
    handler. *)
Definition on_click (l : FeatureLayer) (feature : bool) (st : State) : State :=
  let st0 := close_on_click st in
  match l with
  | samples_circles =>
      if negb feature then st0 else
      let st1 := remove (clickPopupRef st0) st0 in
      let st2 := remove (hoverPopupRef st1) st1 in
      let (p, st3) := open Persistent st2 in
      set_click (Some p) st3
  | _ => st0
  end.

(** [m.on('mouseenter', layer, ...)] *)
Definition on_mouseenter (l : FeatureLayer) (feature : bool) (st : State)
    : State :=
  if negb feature then st else
  match l with
  | samples_circles =>
      (* Don't show hover if there's already a click popup *)
      match clickPopupRef st with
      | Some _ => st
      | None =>
          let st1 := remove (hoverPopupRef st) st in
          let (p, st2) := open Transient st1 in
          set_hover (Some p) st2
      end
  | _ =>
      let st1 := remove (hoverPopupRef st) st in
      let (p, st2) := open Transient st1 in
      set_hover (Some p) st2
  end.

(** [m.on('mouseleave', layer, ...)]: the same body for the four layers. *)
Definition on_mouseleave (l : FeatureLayer) (st : State) : State :=
  set_hover None (remove (hoverPopupRef st) st).

(** The user closes the persistent popup (its close button): MapLibre takes
    it off the map.  No handler of MapView listens to that. *)
Definition on_close (st : State) : State :=
  {| clickPopupRef := clickPopupRef st; hoverPopupRef := hoverPopupRef st;
     shown := filter (fun q => match kind q with Persistent => false | Transient => true end)
                     (shown st);
     next_popup := next_popup st |}.

(** The points list beside the map: [onMouseEnter] of an entry. *)
Definition on_list_enter (st : State) : State :=
  let st1 := remove (hoverPopupRef st) st in
  let (p, st2) := open Transient st1 in
  set_hover (Some p) st2.

(** [onMouseLeave] of an entry: [hoverPopupRef.current?.remove()]. *)
Definition on_list_leave (st : State) : State := remove (hoverPopupRef st) st.

Inductive Event :=
| Click (l : FeatureLayer) (feature : bool)
| MouseEnter (l : FeatureLayer) (feature : bool)
| MouseLeave (l : FeatureLayer)
| CloseButton
| MapClick            (* a click on the map away from the four layers *)
| ListEnter
| ListLeave.

Definition step (st : State) (ev : Event) : State :=
  match ev with
  | Click l f => on_click l f st
  | MouseEnter l f => on_mouseenter l f st
  | MouseLeave l => on_mouseleave l st
  | CloseButton => on_close st
  | MapClick => close_on_click st
  | ListEnter => on_list_enter st
  | ListLeave => on_list_leave st
  end.

Definition run (st : State) (evs : list Event) : State := fold_left step evs st.

Definition is_persistent (p : Popup) : bool :=
  match kind p with Persistent => true | Transient => false end.

Definition is_transient (p : Popup) : bool :=
  match kind p with Persistent => false | Transient => true end.

Definition persistent_open (st : State) : bool := existsb is_persistent (shown st).
Definition transient_open (st : State) : bool := existsb is_transient (shown st).

(** ** Auxiliary notions for the statements about this module *)

(** Every hover popup on the map is the one [hoverPopupRef] holds, and a
    click popup on the map implies that [clickPopupRef] is set. *)
Definition popups_inv (st : State) : Prop :=
  (forall p, In p (shown st) -> is_transient p = true ->
             hoverPopupRef st = Some p) /\
  (forall p, In p (shown st) -> is_persistent p = true ->
             clickPopupRef st <> None).

End Popups.

(* ------------------------------------------------------------------ *)
(** * Notions used to state and prove the layer synchronisation *)
(* ------------------------------------------------------------------ *)

Module Sync.
Import Api Surface MapView.

(** The map with its layers, resp. its sources, replaced. *)
Definition with_layers (ls : list Layer) (m : Map) : Map :=
  {| sources := sources m; layers := ls; glyphs := glyphs m;
     error_events := error_events m |}.

Definition with_sources (ss : list string) (m : Map) : Map :=
  {| sources := ss; layers := layers m; glyphs := glyphs m;
     error_events := error_events m |}.

(** Of the layers handed to [addLayer], those the style accepts, and the
    number of those it refuses for want of glyphs. *)
Definition accepted (g : bool) (ls : list Layer) : list Layer :=
  filter (fun l => g || negb (needs_glyphs l)) ls.

Definition refused (g : bool) (ls : list Layer) : nat :=
  List.length (filter (fun l => negb (g || negb (needs_glyphs l))) ls).

(** Removing everything a channel holds, and putting new items on top. *)
Definition clear (c : Channel) (m : Map) : Map :=
  {| sources := filter (fun s => negb (on_source_id c s)) (sources m);
     layers := filter (fun l => negb (on_layer c l)) (layers m);
     glyphs := glyphs m;
     error_events := error_events m |}.

(** The map after [ls] have been handed to [addLayer] one by one (their
    identifiers free, their sources present). *)
Definition put_layers (ls : list Layer) (m : Map) : Map :=
  {| sources := sources m;
     layers := layers m ++ accepted (glyphs m) ls;
     glyphs := glyphs m;
     error_events := error_events m + refused (glyphs m) ls |}.

(** The sources [ss] are added; of the layers [ls] handed to [addLayer],
    those the style accepts go on top, and each of the others costs one
    error event. *)
Definition refresh (c : Channel) (ss : list string) (ls : list Layer) (m : Map)
    : Map :=
  {| sources := sources (clear c m) ++ ss;
     layers := layers (clear c m) ++ accepted (glyphs m) ls;
     glyphs := glyphs m;
     error_events := error_events m + refused (glyphs m) ls |}.

(** What each channel adds for the data in the refs: its sources, and the
    layers it hands to [addLayer]. *)
Definition new_sources (c : Channel) (r : Refs) : list string :=
  match c with
  | Route => match routeGeomRef r with Some _ => ["route"%string] | None => [] end
  | Congestion => seg_sources 0 (List.length (congestionSegmentsRef r))
  | Samples => if is_empty (or_empty (samplesRef r)) then [] else ["samples"%string]
  | Tolls => if is_empty (tollPointsRef r) then [] else ["tolls"%string]
  | Accidents => if is_empty (accidentPointsRef r) then [] else ["accidents"%string]
  | Signals => if is_empty (trafficLightPointsRef r) then [] else ["signals"%string]
  end.

Definition new_layers (c : Channel) (r : Refs) : list Layer :=
  match c with
  | Route =>
      match routeGeomRef r with
      | None => []
      | Some _ =>
          {| id := "route-outline"; type := line; source := "route" |}
          :: (if is_empty (congestionSegmentsRef r)
              then [{| id := "route-line"; type := line; source := "route" |}]
              else [])
      end
  | Congestion => seg_layers 0 (List.length (congestionSegmentsRef r))
  | Samples =>
      if is_empty (or_empty (samplesRef r)) then [] else
      [{| id := "samples-circles-stroke"; type := circle; source := "samples" |};
       {| id := "samples-circles"; type := circle; source := "samples" |};
       {| id := "samples-labels"; type := symbol; source := "samples" |}]
  | Tolls =>
      if is_empty (tollPointsRef r) then [] else
      [{| id := "toll-circles"; type := circle; source := "tolls" |};
       {| id := "toll-labels"; type := symbol; source := "tolls" |}]
  | Accidents =>
      if is_empty (accidentPointsRef r) then [] else
      [{| id := "accident-circles"; type := circle; source := "accidents" |};
       {| id := "accident-labels"; type := symbol; source := "accidents" |}]
  | Signals =>
      if is_empty (trafficLightPointsRef r) then [] else
      [{| id := "signal-circles"; type := circle; source := "signals" |};
       {| id := "signal-labels"; type := symbol; source := "signals" |}]
  end.

(** The function of MapView that rebuilds a channel. *)
Definition rebuild_channel (c : Channel) : Refs -> M unit :=
  match c with
  | Route => addRouteLayers
  | Congestion => addCongestionLayers
  | Samples => addSampleLayers
  | Tolls => addTollLayers
  | Accidents => addAccidentLayers
  | Signals => addTrafficLightLayers
  end.

(** The three identifiers of segment [idx]. *)
Definition seg_source_id (idx : nat) : string :=
  ("congestion-seg-" ++ show_index idx)%string.
Definition seg_outline_id (idx : nat) : string :=
  ("congestion-seg-outline-" ++ show_index idx)%string.
Definition seg_line_id (idx : nat) : string :=
  ("congestion-seg-line-" ++ show_index idx)%string.

(** What the two removal loops of [addCongestionLayers] leave in place. *)
Definition keeps_layer (l : Layer) : bool := negb (on_layer Congestion l).
Definition keeps_source (s : string) : bool := negb (on_source_id Congestion s).

(** The body of [segments.forEach((seg, idx) => ...)]. *)
Definition add_segment (seg : CongestionSegment) (idx : nat) : M unit :=
  bind (addSource (seg_source_id idx)) (fun _ =>
  bind (addLayer {| id := seg_outline_id idx; type := line; source := seg_source_id idx |})
    (fun _ =>
  addLayer {| id := seg_line_id idx; type := line; source := seg_source_id idx |})).

(** No identifier of a segment of index [from] or above is taken. *)
Definition seg_free (from : nat) (m : Map) : Prop :=
  forall j, (from <= j)%nat ->
    has_source (seg_source_id j) m = false /\
    has_layer (seg_outline_id j) m = false /\
    has_layer (seg_line_id j) m = false.

(** [addRouteLayers] touches the map only when a geometry is known. *)
Definition touched (r : Refs) (c : Channel) : bool :=
  match c with
  | Route => match routeGeomRef r with Some _ => true | None => false end
  | _ => true
  end.

(** The map after the rebuild of one channel, and of a sequence of them. *)
Definition after (c : Channel) (r : Refs) (m : Map) : Map :=
  if touched r c then refresh c (new_sources c r) (new_layers c r) m else m.

Definition after_all (cs : list Channel) (r : Refs) (m : Map) : Map :=
  fold_left (fun m c => after c r m) cs m.

(** Rebuilding the channels of [cs] one after the other. *)
Definition run_channels (cs : list Channel) (r : Refs) : M unit :=
  forEach cs (fun c => rebuild_channel c r).

(** The order in which [rebuildLayers] goes through the channels. *)
Definition rebuild_order : list Channel :=
  [Route; Congestion; Samples; Tolls; Accidents; Signals].

(** The layers and sources a sequence of rebuilds leaves alone. *)
Definition kept (r : Refs) (cs : list Channel) (l : Layer) : bool :=
  negb (existsb (fun c => touched r c && on_layer c l) cs).

Definition kept_source (r : Refs) (cs : list Channel) (s : string) : bool :=
  negb (existsb (fun c => touched r c && on_source_id c s) cs).

(** What a sequence of rebuilds puts on the map, in its order. *)
Definition all_new_layers (cs : list Channel) (r : Refs) : list Layer :=
  List.concat (map (fun c => new_layers c r) cs).

Definition all_new_sources (cs : list Channel) (r : Refs) : list string :=
  List.concat (map (fun c => new_sources c r) cs).

(** Sample maps and refs. *)
Definition empty_map : Map :=
  {| sources := []; layers := []; glyphs := true; error_events := 0 |}.

Definition sample_refs : Refs :=
  {| routeGeomRef := Some {| geo_type := "LineString"; coordinates := [] |};
     samplesRef := Some [{| ws_lat := 0; ws_lon := 0; rain_risk := "none"; precip_prob := 0 |}];
     tollPointsRef := [{| toll_lat := 0; toll_lon := 0; toll_name := "T"; toll_operator := "O" |}];
     accidentPointsRef := [];
     congestionSegmentsRef := [sample_segment; sample_segment];
     trafficLightPointsRef := [] |}.

(** The effects that run when a new result reaches MapView, as a sequence
    of channel rebuilds. *)
Definition reaction (res : option RouteResult) : list Channel :=
  match routeGeometry (props_of res) with
  | Some _ => [Route; Congestion; Samples; Signals]
  | None => []
  end ++ [Samples; Tolls; Accidents; Route; Congestion; Signals].

(** The refs hold no data for the channel. *)
Definition channel_empty (c : Channel) (r : Refs) : bool :=
  match c with
  | Route => match routeGeomRef r with None => true | Some _ => false end
  | Congestion => is_empty (congestionSegmentsRef r)
  | Samples => is_empty (or_empty (samplesRef r))
  | Tolls => is_empty (tollPointsRef r)
  | Accidents => is_empty (accidentPointsRef r)
  | Signals => is_empty (trafficLightPointsRef r)
  end.

Definition map_with_tolls : Map :=
  {| sources := ["tolls"%string];
     layers := [{| id := "toll-circles"; type := circle; source := "tolls" |};
                {| id := "toll-labels"; type := symbol; source := "tolls" |}];
     glyphs := true;
     error_events := 0 |}.

(** The congestion channel holds the drawables of exactly [n] segments,
    and no identifier of a segment of index [n] or above is on the map. *)
Definition congestion_exactly (n : nat) (m : Map) : Prop :=
  channel_sources Congestion m = seg_sources 0 n /\
  channel_layers Congestion m = seg_layers 0 n /\
  List.length (channel_sources Congestion m) = n /\
  List.length (channel_layers Congestion m) = (2 * n)%nat /\
  (forall j, (n <= j)%nat ->
     has_source (seg_source_id j) m = false /\
     has_layer (seg_outline_id j) m = false /\
     has_layer (seg_line_id j) m = false).

(** The circle layers and the label layers of a channel. *)
Definition circles_of (c : Channel) (l : Layer) : bool := on_layer c l && is_circle l.
Definition labels_of (c : Channel) (l : Layer) : bool := on_layer c l && is_label l.

End Sync.

(* ------------------------------------------------------------------ *)
(** * Further notions about the popup and the poll loop *)
(* ------------------------------------------------------------------ *)

Module More.
Import Api.

(** The length of a phase of a signal. *)
Definition duration_of (g y r : Z) (p : Phase.LightPhase) : Z :=
  match p with Phase.green => g | Phase.yellow => y | Phase.red => r end.

(** The signal the popup simulates after a sequence of events: the last
    change of [signal] / [visible] decides, an unmount ends it. *)
Definition current_signal (evs : list Phase.Event) : option TrafficLightPoint :=
  fold_left (fun a ev =>
               match ev with
               | Phase.Deps (Some s) true _ => Some s
               | Phase.Deps _ _ _ => None
               | Phase.Unmount => None
               | Phase.Tick => a
               end) evs None.

(** The events by which a backend answers the poll loop of job [j]: GET
    number [k] is answered by [backend k], and every wait elapses.  [left]
    bounds the number of iterations. *)
Fixpoint replies (backend : Backend) (j k left : nat) : list App.Event :=
  match left with
  | O => []
  | S left' =>
      App.FetchSettled j (backend k) ::
      match backend k with
      | Resolved r =>
          if is_final (status r) then []
          else App.SleepElapsed j :: replies backend j (S k) left'
      | Rejected _ => []
      end
  end.

(** How often [setLoading(b)] has been called. *)
Definition count_loading (b : bool) (l : list App.Emission) : nat :=
  List.length
    (filter (fun e => match e with App.SetLoading b' => Bool.eqb b b' | _ => false end) l).

(** The cells while the only way to start an analysis is the button. *)
Definition cells_inv (s : App.Sys) : Prop :=
  App.one_job s /\
  (App.loading (App.app s) = true ->
     App.error_msg (App.app s) = None /\ App.result (App.app s) = None) /\
  (App.error_msg (App.app s) = None \/ App.result (App.app s) = None).

(** Calls of [setLoading(true)] are matched by calls of
    [setLoading(false)], up to the invocations still suspended. *)
Definition loading_balanced (s : App.Sys) : Prop :=
  count_loading true (App.log s) =
  (count_loading false (App.log s) + App.active_jobs s)%nat.

(** The GETs an invocation of [handleAnalyze] may still issue. *)
Definition fetches_left (maxAttempts : nat) (pc : App.Pc) : nat :=
  match pc with
  | App.AwaitCreate => maxAttempts
  | App.AwaitFetch i | App.AwaitSleep i => maxAttempts - S i
  | App.Finished => 0
  end.

Definition budget_left (maxAttempts : nat) (jobs : list App.Pc) : nat :=
  list_sum (map (fetches_left maxAttempts) jobs).

(** A backend whose second answer is a transport error. *)
Definition failing_backend : Backend :=
  fun k => match k with
           | 1%nat => Rejected {| message := "Network Error"; detail := None |}
           | _ => Resolved processing_result
           end.

(** What is on the map is at most the popup [clickPopupRef] holds, below
    at most the popup [hoverPopupRef] holds. *)
Definition popups_shape (st : Popups.State) : Prop :=
  exists ps ts,
    Popups.shown st = ps ++ ts /\
    (ps = [] \/ exists p, ps = [p] /\ Popups.is_persistent p = true /\
                          Popups.clickPopupRef st = Some p) /\
    (ts = [] \/ exists t, ts = [t] /\ Popups.is_transient t = true /\
                          Popups.hoverPopupRef st = Some t).

End More.

(* ------------------------------------------------------------------ *)
(** * MapView over a whole session *)
(* ------------------------------------------------------------------ *)

Module Session.
Import Api Surface MapView Sync.

(** What happens to MapView between two renders of the session: [App]
    stores a new result (or clears it), or the reverse geocoding stores new
    city names, the second dependency of the samples effect. *)
Inductive Change :=
| NewResult (res : option RouteResult)
| CityNames.

(** MapView going through the changes [cs] one after the other, from the
    props [prev] of the last render and the refs [r]. *)
Fixpoint session (cs : list Change) (prev : Props) (r : Refs) : M (Props * Refs) :=
  match cs with
  | [] => ret (prev, r)
  | NewResult res :: t =>
      let p := props_of res in
      bind (snd (on_props prev p r)) (fun _ => session t p (fst (on_props prev p r)))
  | CityNames :: t =>
      bind (effect_samples r) (fun _ => session t prev r)
  end.

(** The channels the effects due between two renders rebuild, in order. *)
Definition due (prev p : Props) : list Channel :=
  (if changed (routeGeometry prev) (routeGeometry p) then
     match routeGeometry p with
     | Some _ => [Route; Congestion; Samples; Signals]
     | None => []
     end
   else [])
  ++ (if changed (p_samples prev) (p_samples p) then [Samples] else [])
  ++ (if changed (tollPoints prev) (tollPoints p) then [Tolls] else [])
  ++ (if changed (accidentPoints prev) (accidentPoints p) then [Accidents] else [])
  ++ (if changed (congestionSegments prev) (congestionSegments p)
      then [Route; Congestion] else [])
  ++ (if changed (trafficLightPoints prev) (trafficLightPoints p)
      then [Signals] else []).

(** Every channel holds exactly what its layer function builds from the
    refs (the layers the style accepts). *)
Definition in_sync (r : Refs) (m : Map) : Prop :=
  forall c,
    channel_layers c m = accepted (glyphs m) (new_layers c r) /\
    channel_sources c m = new_sources c r.

(** Layers and sources of the base style: their identifiers belong to no
    channel. *)
Definition foreign_layer (l : Layer) : bool :=
  forallb (fun c => negb (on_layer c l)) channels.

Definition foreign_source (s : string) : bool :=
  forallb (fun c => negb (on_source_id c s)) channels.

(** A style as [setStyle] loads it: nothing of MapView is on it. *)
Record fresh_style (m : Map) : Prop := {
  fresh_ids : NoDup (map id (layers m));
  fresh_srcs : NoDup (sources m);
  fresh_layers : forallb foreign_layer (layers m) = true;
  fresh_uses : forallb (fun l => foreign_source (source l)) (layers m) = true;
  fresh_sources : forallb foreign_source (sources m) = true
}.

(** A vector base style with one source and two layers. *)
Definition base_style : Map :=
  {| sources := ["openmaptiles"%string];
     layers := [{| id := "water"; type := line; source := "openmaptiles" |};
                {| id := "place-labels"; type := symbol; source := "openmaptiles" |}];
     glyphs := true;
     error_events := 0 |}.

(** The style [rasterStyle(tileUrl)] builds: one raster source, one raster
    layer, no glyphs. *)
Definition raster_style : Map :=
  {| sources := ["raster-tiles"%string];
     layers := [{| id := "raster-layer"; type := raster; source := "raster-tiles" |}];
     glyphs := false;
     error_events := 0 |}.

(** A surface on which a layer that is not MapView's draws from the source
    ["tolls"]. *)
Definition map_with_foreign_user : Map :=
  {| sources := ["tolls"%string];
     layers := [{| id := "heat"; type := circle; source := "tolls" |}];
     glyphs := true;
     error_events := 0 |}.

Definition toll_refs : Refs :=
  {| routeGeomRef := None; samplesRef := None;
     tollPointsRef := [{| toll_lat := 0; toll_lon := 0; toll_name := "T";
                          toll_operator := "O" |}];
     accidentPointsRef := []; congestionSegmentsRef := [];
     trafficLightPointsRef := [] |}.

End Session.

(* ------------------------------------------------------------------ *)
(** * JavaScript strings *)
(* ------------------------------------------------------------------ *)

Module Js.

(** A JavaScript string is a sequence of UTF-16 code units; [s.length]
    counts them. *)
Definition jsstring := list N.

Definition comma : N := 44.

(** [s.split(sep)] for a separator of one code unit. *)
Fixpoint split (sep : N) (s : jsstring) : list jsstring :=
  match s with
  | [] => [[]]
  | c :: t =>
      if (c =? sep)%N then [] :: split sep t
      else match split sep t with
           | h :: r => (c :: h) :: r
           | [] => [[c]]
           end
  end.

(** [parts.join(sep)] *)
Fixpoint join (sep : N) (parts : list jsstring) : jsstring :=
  match parts with
  | [] => []
  | [x] => x
  | x :: t => x ++ sep :: join sep t
  end.

(** [a.slice(0, n)] on an array. *)
Definition slice0 {A} (n : nat) (a : list A) : list A := firstn n a.

(** How often a code unit occurs in a string. *)
Definition occurrences (c : N) (s : jsstring) : nat :=
  List.length (filter (N.eqb c) s).

(** The code units of an ASCII literal. *)
Fixpoint units (s : string) : jsstring :=
  match s with
  | EmptyString => []
  | String a t => N_of_ascii a :: units t
  end.

End Js.

(* ------------------------------------------------------------------ *)
(** * mobile: components/SearchPanel.tsx *)
(* ------------------------------------------------------------------ *)

Module SearchPanel.
Import Api Js.

(** [interface SearchResult] *)
Record SearchResult := {
  display_name : jsstring;
  lat : jsstring;
  lon : jsstring
}.

(** The number [parseFloat(s)] yields, kept symbolic. *)
Inductive jsnum := parseFloat (s : jsstring).

Record Coordinates := { c_lat : jsnum; c_lon : jsnum }.

Inductive Field := origin | dest.

Record State := {
  originText : jsstring;
  destText : jsstring;
  originCoords : option Coordinates;
  destCoords : option Coordinates;
  suggestions : list SearchResult;
  activeField : option Field;
  requests : list jsstring;                       (* geocoding fetches issued *)
  analyses : list (Coordinates * Coordinates)     (* calls of [onAnalyze] *)
}.

Definition initial : State :=
  {| originText := []; destText := []; originCoords := None; destCoords := None;
     suggestions := []; activeField := None; requests := []; analyses := [] |}.

Definition setSuggestions (l : list SearchResult) (st : State) : State :=
  {| originText := originText st; destText := destText st;
     originCoords := originCoords st; destCoords := destCoords st;
     suggestions := l; activeField := activeField st;
     requests := requests st; analyses := analyses st |}.

Definition setActiveField (f : Field) (st : State) : State :=
  {| originText := originText st; destText := destText st;
     originCoords := originCoords st; destCoords := destCoords st;
     suggestions := suggestions st; activeField := Some f;
     requests := requests st; analyses := analyses st |}.

(** [search(text, field)] up to its [await fetch(...)]. *)
Definition search (text : jsstring) (field : Field) (st : State) : State :=
  let st1 :=
    {| originText := match field with origin => text | dest => originText st end;
       destText := match field with origin => destText st | dest => text end;
       originCoords := originCoords st; destCoords := destCoords st;
       suggestions := suggestions st; activeField := Some field;
       requests := requests st; analyses := analyses st |} in
  if (List.length text <? 3)%nat then setSuggestions [] st1
  else
    {| originText := originText st1; destText := destText st1;
       originCoords := originCoords st1; destCoords := destCoords st1;
       suggestions := suggestions st1; activeField := activeField st1;
       requests := requests st1 ++ [text]; analyses := analyses st1 |}.

(** The rest of [search], once the fetch (and [res.json()]) has settled. *)
Definition search_settled (r : settled (list SearchResult)) (st : State) : State :=
  match r with
  | Resolved data => setSuggestions data st
  | Rejected _ => setSuggestions [] st
  end.

Definition coords_of (item : SearchResult) : Coordinates :=
  {| c_lat := parseFloat (lat item); c_lon := parseFloat (lon item) |}.

(** [item.display_name.split(',').slice(0, 2).join(',')] *)
Definition short_name (item : SearchResult) : jsstring :=
  join comma (slice0 2 (split comma (display_name item))).

Definition selectSuggestion (item : SearchResult) (st : State) : State :=
  let coords := coords_of item in
  let name := short_name item in
  setSuggestions []
    match activeField st with
    | Some origin =>
        {| originText := name; destText := destText st;
           originCoords := Some coords; destCoords := destCoords st;
           suggestions := suggestions st; activeField := activeField st;
           requests := requests st; analyses := analyses st |}
    | _ =>
        {| originText := originText st; destText := name;
           originCoords := originCoords st; destCoords := Some coords;
           suggestions := suggestions st; activeField := activeField st;
           requests := requests st; analyses := analyses st |}
    end.

Definition handleAnalyze (st : State) : State :=
  match originCoords st, destCoords st with
  | Some o, Some d =>
      {| originText := originText st; destText := destText st;
         originCoords := originCoords st; destCoords := destCoords st;
         suggestions := suggestions st; activeField := activeField st;
         requests := requests st; analyses := analyses st ++ [(o, d)] |}
  | _, _ => st
  end.

(** [disabled={!originCoords || !destCoords || loading}] *)
Definition button_disabled (loading : bool) (st : State) : bool :=
  match originCoords st, destCoords st with
  | Some _, Some _ => loading
  | _, _ => true
  end.

Inductive Event :=
| ChangeText (field : Field) (text : jsstring)      (* onChangeText *)
| Focus (field : Field)                             (* onFocus *)
| SearchSettled (r : settled (list SearchResult))   (* a geocoding fetch settled *)
| Select (item : SearchResult)                      (* a suggestion is pressed *)
| Press (loading : bool).                           (* the Analyze button *)

Definition step (st : State) (ev : Event) : State :=
  match ev with
  | ChangeText field text => search text field st
  | Focus field => setActiveField field st
  | SearchSettled r => search_settled r st
  | Select item => selectSuggestion item st
  | Press loading => if button_disabled loading st then st else handleAnalyze st
  end.

Definition run (st : State) (evs : list Event) : State := fold_left step evs st.

(** The texts typed into either field, oldest first. *)
Definition typed (evs : list Event) : list jsstring :=
  flat_map (fun ev => match ev with ChangeText _ text => [text] | _ => [] end) evs.

(** Sample data. *)
Definition sao_paulo : SearchResult :=
  {| display_name := units "Sao Paulo, SP, Brasil"; lat := units "-23.55";
     lon := units "-46.63" |}.

Definition santos : SearchResult :=
  {| display_name := units "Santos"; lat := units "-23.96"; lon := units "-46.33" |}.

End SearchPanel.

(* ------------------------------------------------------------------ *)
(** * components/SearchBox.tsx *)
(* ------------------------------------------------------------------ *)

Module SearchBox.
Import Api Js.

(** [interface Suggestion]; the structured address is not part of the
    model. *)
Record Suggestion := {
  display_name : jsstring;
  lat : jsstring;
  lon : jsstring
}.

Record State := {
  query : jsstring;
  suggestions : list Suggestion;
  is_open : bool;
  loading : bool;
  timer : option nat;                  (* timer.current *)
  timeouts : list (nat * jsstring);    (* timeouts alive, with the text each
                                          callback closes over *)
  next_timeout : nat;                  (* next id [setTimeout] returns *)
  requests : list jsstring             (* geocoding fetches issued *)
}.

Definition initial (value : jsstring) : State :=
  {| query := value; suggestions := []; is_open := false; loading := false;
     timer := None; timeouts := []; next_timeout := 1; requests := [] |}.

(** [clearTimeout(id)]: a no-op on [undefined] and on a timer that is no
    longer alive. *)
Definition clearTimeout (id : option nat) (l : list (nat * jsstring))
    : list (nat * jsstring) :=
  match id with
  | None => l
  | Some i => filter (fun t => negb (fst t =? i)%nat) l
  end.

Definition handleChange (text : jsstring) (st : State) : State :=
  let alive := clearTimeout (timer st) (timeouts st) in
  if (List.length text <? 2)%nat then
    {| query := text; suggestions := []; is_open := is_open st;
       loading := loading st; timer := timer st; timeouts := alive;
       next_timeout := next_timeout st; requests := requests st |}
  else
    {| query := text; suggestions := suggestions st; is_open := is_open st;
       loading := loading st; timer := Some (next_timeout st);
       timeouts := alive ++ [(next_timeout st, text)];
       next_timeout := S (next_timeout st); requests := requests st |}.

(** The timeout [id] expires: its callback runs up to [await fetch(...)]. *)
Definition fire (id : nat) (st : State) : State :=
  match find (fun t => (fst t =? id)%nat) (timeouts st) with
  | None => st
  | Some (_, text) =>
      {| query := query st; suggestions := suggestions st; is_open := is_open st;
         loading := true; timer := timer st;
         timeouts := filter (fun t => negb (fst t =? id)%nat) (timeouts st);
         next_timeout := next_timeout st; requests := requests st ++ [text] |}
  end.

(** The rest of the callback, once the fetch has settled. *)
Definition fetch_settled (r : settled (list Suggestion)) (st : State) : State :=
  match r with
  | Resolved data =>
      {| query := query st; suggestions := data;
         is_open := negb (Nat.eqb (List.length data) 0);
         loading := false; timer := timer st; timeouts := timeouts st;
         next_timeout := next_timeout st; requests := requests st |}
  | Rejected _ =>
      {| query := query st; suggestions := []; is_open := is_open st;
         loading := false; timer := timer st; timeouts := timeouts st;
         next_timeout := next_timeout st; requests := requests st |}
  end.

(** The clear button, rendered for a non-empty query:
    [setQuery(''); setSuggestions([])]. *)
Definition clear_clicked (st : State) : State :=
  match query st with
  | [] => st
  | _ =>
      {| query := []; suggestions := []; is_open := is_open st;
         loading := loading st; timer := timer st; timeouts := timeouts st;
         next_timeout := next_timeout st; requests := requests st |}
  end.

(** [pick(s)], for the name [formatPlaceName(s)] gives:
    [setQuery(name); setOpen(false)]. *)
Definition pick (name : jsstring) (st : State) : State :=
  {| query := name; suggestions := suggestions st; is_open := false;
     loading := loading st; timer := timer st; timeouts := timeouts st;
     next_timeout := next_timeout st; requests := requests st |}.

(** "Click outside": [setOpen(false)]. *)
Definition click_outside (st : State) : State :=
  {| query := query st; suggestions := suggestions st; is_open := false;
     loading := loading st; timer := timer st; timeouts := timeouts st;
     next_timeout := next_timeout st; requests := requests st |}.

(** "Sync prop": [if (value) setQuery(value)]. *)
Definition value_changed (value : jsstring) (st : State) : State :=
  match value with
  | [] => st
  | _ =>
      {| query := value; suggestions := suggestions st; is_open := is_open st;
         loading := loading st; timer := timer st; timeouts := timeouts st;
         next_timeout := next_timeout st; requests := requests st |}
  end.

Inductive Event :=
| Change (text : jsstring)
| TimeoutExpired (id : nat)
| FetchSettled (r : settled (list Suggestion))
| ClearClicked
| Picked (name : jsstring)
| ClickOutside
| ValueChanged (value : jsstring).

Definition step (st : State) (ev : Event) : State :=
  match ev with
  | Change text => handleChange text st
  | TimeoutExpired id => fire id st
  | FetchSettled r => fetch_settled r st
  | ClearClicked => clear_clicked st
  | Picked name => pick name st
  | ClickOutside => click_outside st
  | ValueChanged value => value_changed value st
  end.

Definition run (st : State) (evs : list Event) : State := fold_left step evs st.

(** ** Auxiliary notions for the statements about this module *)

(** The text of the last [Change] event. *)
Definition last_typed (evs : list Event) : option jsstring :=
  fold_left (fun a ev => match ev with Change text => Some text | _ => a end)
            evs None.

(** The texts typed, oldest first. *)
Definition typed (evs : list Event) : list jsstring :=
  flat_map (fun ev => match ev with Change text => [text] | _ => [] end) evs.

(** At most one timeout is alive: the one [timer.current] holds, set by
    the last [Change]; and whatever has been requested had been typed. *)
Definition debounced (evs : list Event) (st : State) : Prop :=
  (timeouts st = [] \/
   exists id text, timeouts st = [(id, text)] /\ timer st = Some id /\
                   last_typed evs = Some text /\ (2 <= List.length text)%nat) /\
  (forall text, In text (requests st) ->
     In text (typed evs) /\ (2 <= List.length text)%nat).

(** Sample data. *)
Definition campinas : Suggestion :=
  {| display_name := units "Campinas, SP, Brasil"; lat := units "-22.9";
     lon := units "-47.06" |}.

End SearchBox.

(* ------------------------------------------------------------------ *)
(** * App.tsx: the best-departure query *)
(* ------------------------------------------------------------------ *)

Module Departure.
Import Api Js.

(** [interface Coordinates] *)
Record Coordinates := { lat : Q; lon : Q }.

(** The parameters of one [GET /best-departure]. *)
Record Query := {
  q_origin : Coordinates;
  q_dest : Coordinates;
  q_date : jsstring;
  q_base : Q
}.

Record State := {
  lastOrigin : option Coordinates;          (* useRef(null) *)
  lastDest : option Coordinates;            (* useRef(null) *)
  lastDeparture : jsstring;                 (* useRef('') *)
  bestDepOpen : bool;
  bestDepLoading : bool;
  bestDepData : option nat;                 (* the answer, by its number *)
  bestDepError : option string;
  created : list jsstring;                  (* [departure_time] of each POST /routes *)
  queries : list Query                      (* GET /best-departure, in order *)
}.

Definition initial : State :=
  {| lastOrigin := None; lastDest := None; lastDeparture := [];
     bestDepOpen := false; bestDepLoading := false; bestDepData := None;
     bestDepError := None; created := []; queries := [] |}.

(** [departure && departure.length === 16 ? `${departure}:00` : departure] *)
Definition depPayload (departure : jsstring) : jsstring :=
  if (List.length departure =? 16)%nat then departure ++ units ":00" else departure.

(** [handleAnalyze], as far as this part of the state goes: the refs are
    stored, then [createRoute] is called. *)
Definition handleAnalyze (origin destination : Coordinates) (departure : jsstring)
    (st : State) : State :=
  {| lastOrigin := Some origin; lastDest := Some destination;
     lastDeparture := departure;
     bestDepOpen := bestDepOpen st; bestDepLoading := bestDepLoading st;
     bestDepData := bestDepData st; bestDepError := bestDepError st;
     created := created st ++ [depPayload departure];
     queries := queries st |}.

(** [result?.summary?.duration_minutes || 300] *)
Definition baseDuration (duration_minutes : option Q) : Q :=
  match duration_minutes with
  | Some d => if Qeq_bool d 0 then 300 else d
  | None => 300
  end.

(** [lastDeparture.current ? lastDeparture.current.slice(0, 10) : <today>] *)
Definition query_date (departure today : jsstring) : jsstring :=
  match departure with
  | [] => today
  | _ => firstn 10 departure
  end.

(** [handleBestDeparture] up to [await getBestDeparture(...)]; [today] is
    what the date formatter yields, [duration_minutes] what the current
    result holds. *)
Definition handleBestDeparture (today : jsstring) (duration_minutes : option Q)
    (st : State) : State :=
  match lastOrigin st, lastDest st with
  | Some o, Some d =>
      {| lastOrigin := lastOrigin st; lastDest := lastDest st;
         lastDeparture := lastDeparture st;
         bestDepOpen := true; bestDepLoading := true;
         bestDepData := None; bestDepError := None;
         created := created st;
         queries := queries st ++
           [{| q_origin := o; q_dest := d;
               q_date := query_date (lastDeparture st) today;
               q_base := baseDuration duration_minutes |}] |}
  | _, _ => st
  end.

(** [err.response?.data?.detail || err.message || 'Erro ao calcular melhor
    horário.'] *)
Definition catch_message (e : JsError) : string :=
  App.or_else (detail e)
    (App.or_else (Some (message e)) "Erro ao calcular melhor horário.").

(** The rest of [handleBestDeparture], once the request has settled. *)
Definition best_settled (r : settled nat) (st : State) : State :=
  {| lastOrigin := lastOrigin st; lastDest := lastDest st;
     lastDeparture := lastDeparture st;
     bestDepOpen := bestDepOpen st; bestDepLoading := false;
     bestDepData := match r with Resolved data => Some data | Rejected _ => bestDepData st end;
     bestDepError := match r with
                     | Resolved _ => bestDepError st
                     | Rejected e => Some (catch_message e)
                     end;
     created := created st; queries := queries st |}.

(** [onClose={() => setBestDepOpen(false)}] *)
Definition close_panel (st : State) : State :=
  {| lastOrigin := lastOrigin st; lastDest := lastDest st;
     lastDeparture := lastDeparture st;
     bestDepOpen := false; bestDepLoading := bestDepLoading st;
     bestDepData := bestDepData st; bestDepError := bestDepError st;
     created := created st; queries := queries st |}.

Inductive Event :=
| Analyze (origin destination : Coordinates) (departure : jsstring)
| BestDeparture (today : jsstring) (duration_minutes : option Q)
| BestSettled (r : settled nat)
| ClosePanel.

Definition step (st : State) (ev : Event) : State :=
  match ev with
  | Analyze o d departure => handleAnalyze o d departure st
  | BestDeparture today duration => handleBestDeparture today duration st
  | BestSettled r => best_settled r st
  | ClosePanel => close_panel st
  end.

Definition run (st : State) (evs : list Event) : State := fold_left step evs st.

Definition is_analyze (ev : Event) : bool :=
  match ev with Analyze _ _ _ => true | _ => false end.

End Departure.

(* ------------------------------------------------------------------ *)
(** * Theorems *)
(* ------------------------------------------------------------------ *)

(** ** The signal-phase computation *)

Import Phase.

Lemma js_rem_nonneg t c :
  0 <= t -> 0 < c -> js_rem t c = Num (t mod c).
Proof.
  intros Ht Hc. unfold js_rem.
  destruct (Z.eqb_spec c 0) as [->|_]; [lia|].
  now rewrite Z.rem_mod_nonneg by lia.
Qed.

(** C1. On the simulator's domain (elapsed time [t >= 0], cycle
    [green + yellow + red > 0]) [getPhaseAndRemaining] is the specification's
    [computePhase]: Green with [green - pos] while [pos < green], Yellow with
    [green + yellow - pos] while [green <= pos < green + yellow], Red with
    [cycle - pos] otherwise, where [pos = t mod cycle]; and the four sample
    values for durations (30,5,25) are (Green,30), (Yellow,5), (Red,25) and
    (Green,30) at elapsed 0, 30, 35 and 60. *)
Theorem C1_getPhaseAndRemaining_is_computePhase :
  (forall g y r t, 0 <= t -> 0 < g + y + r ->
     as_pair (getPhaseAndRemaining g y r t) =
       (fst (computePhase g y r t), Num (snd (computePhase g y r t))) /\
     let pos := t mod (g + y + r) in
     (pos < g ->
        getPhaseAndRemaining g y r t = {| phase := green; remaining := Num (g - pos) |}) /\
     (g <= pos < g + y ->
        getPhaseAndRemaining g y r t = {| phase := yellow; remaining := Num (g + y - pos) |}) /\
     (g <= pos -> g + y <= pos ->
        getPhaseAndRemaining g y r t = {| phase := red; remaining := Num (g + y + r - pos) |}))
  /\ getPhaseAndRemaining 30 5 25 0 = {| phase := green; remaining := Num 30 |}
  /\ getPhaseAndRemaining 30 5 25 30 = {| phase := yellow; remaining := Num 5 |}
  /\ getPhaseAndRemaining 30 5 25 35 = {| phase := red; remaining := Num 25 |}
  /\ getPhaseAndRemaining 30 5 25 60 = {| phase := green; remaining := Num 30 |}.
Proof.
  split; [|repeat split; reflexivity].
  intros g y r t Ht Hc.
  unfold getPhaseAndRemaining, computePhase, as_pair.
  rewrite js_rem_nonneg by assumption. cbn [js_lt js_sub].
  set (pos := t mod (g + y + r)).
  split.
  - destruct (pos <? g); [reflexivity|].
    destruct (pos <? g + y); reflexivity.
  - cbn zeta. repeat split; intros.
    + destruct (Z.ltb_spec pos g); [reflexivity|lia].
    + destruct (Z.ltb_spec pos g); [lia|].
      destruct (Z.ltb_spec pos (g + y)); [reflexivity|lia].
    + destruct (Z.ltb_spec pos g); [lia|].
      destruct (Z.ltb_spec pos (g + y)); [lia|reflexivity].
Qed.

Lemma C1_witness :
  0 <= 75 /\ 0 < 25 + 4 + 20 /\
  as_pair (getPhaseAndRemaining 25 4 20 75) = (yellow, Num 3).
Proof.
  split; [lia|]. split; [lia|].
  destruct C1_getPhaseAndRemaining_is_computePhase as [H _].
  destruct (H 25 4 20 75 ltac:(lia) ltac:(lia)) as [H1 _].
  rewrite H1. reflexivity.
Defined.

Lemma js_rem_period t c :
  0 <= t -> 0 < c -> js_rem (t + c) c = js_rem t c.
Proof.
  intros Ht Hc. rewrite !js_rem_nonneg by lia.
  f_equal. rewrite <- (Z.mul_1_l c) at 1. apply Z.mod_add. lia.
Qed.

(** C10 (as stated) fails: the sum of the durations being positive does not
    bound the countdown by the cycle.  With durations (10,-3,-2) the cycle is
    5 and the countdown at elapsed 0 is 10. *)
Lemma C10_counterexample :
  ~ (forall g y r t, 0 < g + y + r -> 0 <= t ->
       getPhaseAndRemaining g y r (t + (g + y + r)) = getPhaseAndRemaining g y r t /\
       exists k, remaining (getPhaseAndRemaining g y r t) = Num k /\
                 1 <= k <= g + y + r).
Proof.
  intros H.
  destruct (H 10 (-3) (-2) 0 ltac:(lia) ltac:(lia)) as [_ [k [Hk Hb]]].
  vm_compute in Hk. injection Hk as <-. lia.
Qed.

(** C10 (amended). For integer durations with [green + yellow + red > 0] the
    phase computation has period [cycle] on non-negative elapsed times; and
    when moreover no duration is negative, the countdown is an integer
    between 1 and [cycle]. *)
Theorem C10_periodic_and_bounded g y r t :
  0 < g + y + r -> 0 <= t ->
  getPhaseAndRemaining g y r (t + (g + y + r)) = getPhaseAndRemaining g y r t /\
  (0 <= g -> 0 <= y -> 0 <= r ->
   exists k, remaining (getPhaseAndRemaining g y r t) = Num k /\
             1 <= k <= g + y + r).
Proof.
  intros Hc Ht. split.
  - unfold getPhaseAndRemaining. now rewrite js_rem_period.
  - intros Hg Hy Hr. unfold getPhaseAndRemaining.
    rewrite js_rem_nonneg by assumption. cbn [js_lt js_sub].
    pose proof (Z.mod_pos_bound t (g + y + r) Hc) as Hpos.
    destruct (Z.ltb_spec (t mod (g + y + r)) g);
      [|destruct (Z.ltb_spec (t mod (g + y + r)) (g + y))];
      cbn [remaining]; eexists; (split; [reflexivity|lia]).
Qed.

Lemma C10_witness :
  exists k, remaining (getPhaseAndRemaining 25 4 20 75) = Num k /\
            1 <= k <= 25 + 4 + 20.
Proof.
  apply (C10_periodic_and_bounded 25 4 20 75); lia.
Defined.

(** ** The tick driver *)

#[local] Arguments startOffset : simpl never.
#[local] Arguments phase_of : simpl never.

Lemma cleanup_stops p :
  driver_inv p ->
  intervals (cleanup p) = [] /\ next_interval (cleanup p) = next_interval p /\
  emissions (cleanup p) = emissions p /\ st_phase (cleanup p) = st_phase p /\
  st_countdown (cleanup p) = st_countdown p.
Proof.
  intros [Hn Hinv]. unfold cleanup.
  destruct (intervals p) as [|iv rest] eqn:E.
  - destruct (has_cleanup p); [|now rewrite E].
    unfold clear_current. destruct (intervalRef p) as [id|]; [|now rewrite E].
    destruct (id =? 0)%nat; [now rewrite E|].
    unfold clearInterval; cbn. now rewrite E.
  - destruct (Hinv iv (or_introl eq_refl)) as (Hc & Hr & Hz).
    rewrite Hc. unfold clear_current. rewrite Hr.
    destruct (Nat.eqb_spec (interval_id iv) 0); [contradiction|].
    unfold clearInterval; cbn. repeat split.
    assert (G : forall l, (forall x, In x l -> intervalRef p = Some (interval_id x)) ->
                filter (fun x => negb (interval_id x =? interval_id iv)%nat) l = []).
    { induction l as [|x l IH]; intros Hl; [reflexivity|]. cbn.
      pose proof (Hl x (or_introl eq_refl)) as Hx. rewrite Hr in Hx.
      injection Hx as Hx. rewrite <- Hx, Nat.eqb_refl. cbn.
      apply IH. intros y Hy. apply Hl. now right. }
    apply G. intros x Hx.
    rewrite ?E in Hx. now destruct (Hinv x Hx) as (_ & ? & _).
Qed.

Lemma clear_current_idle p :
  intervals p = [] -> clear_current p = p.
Proof.
  intros E. unfold clear_current, clearInterval.
  destruct p as [ph cd ref ivs nx hc em]; cbn in *. subst ivs.
  destruct ref as [id|]; [|reflexivity]. now destruct (id =? 0)%nat.
Qed.

Lemma step_inv p ev : driver_inv p -> driver_inv (step p ev).
Proof.
  intros Hp. destruct (cleanup_stops p Hp) as (Hi & Hn & _).
  destruct Hp as [Hpos Hinv].
  unfold driver_inv.
  destruct ev as [signal visible u| |]; cbn [step].
  - unfold effect.
    destruct signal as [s|], visible; cbn;
      try (rewrite clear_current_idle by assumption; rewrite Hi, Hn;
           split; [assumption|intros iv []]).
    rewrite Hi, Hn. split; [lia|].
    intros iv [<-|[]]; cbn. repeat split. lia.
  - unfold tick; cbn. split.
    + assert (G : forall l q, next_interval (fold_left (fun q r => show r q) l q)
                              = next_interval q).
      { induction l as [|a l IH]; intros q; cbn; [reflexivity|]. now rewrite IH. }
      now rewrite G.
    + intros iv Hin. apply in_map_iff in Hin as (f & <- & Hin).
      apply in_map_iff in Hin as (iv0 & <- & Hin). cbn.
      destruct (Hinv iv0 Hin) as (Hc & Hr & Hz).
      assert (G : forall l q, has_cleanup (fold_left (fun q r => show r q) l q) = has_cleanup q
                           /\ intervalRef (fold_left (fun q r => show r q) l q) = intervalRef q).
      { induction l as [|a l IH]; intros q; cbn; [auto|].
        destruct (IH (show a q)) as [-> ->]. auto. }
      destruct (G (map snd (map fire (intervals p))) p) as [-> ->]. auto.
  - split; [now rewrite Hn|]. rewrite Hi. intros iv [].
Qed.

Lemma run_inv evs : forall p, driver_inv p -> driver_inv (run p evs).
Proof.
  unfold run. induction evs as [|ev evs IH]; intros p Hp; cbn; [assumption|].
  apply IH, step_inv, Hp.
Qed.

Lemma mount_inv : driver_inv mount.
Proof. split; [cbn; lia|intros iv []]. Qed.







(* ------------------------------------------------------------------ *)
(** ** The poll loop *)
(* ------------------------------------------------------------------ *)

Import Api.

Lemma keeps_polling_not_final backend k :
  keeps_polling backend k ->
  exists r, backend k = Resolved r /\ is_final (status r) = false.
Proof.
  intros (r & Hr & [Hs|Hs]); exists r; rewrite Hs; auto.
Qed.

Lemma poll_loop_pending backend interval k : forall left net,
  (k <= left)%nat ->
  (forall j, (j < k)%nat -> keeps_polling backend (fetches net + j)) ->
  poll_loop backend interval left net =
  poll_loop backend interval (left - k)
    {| fetches := fetches net + k; slept := slept net ++ repeat interval k |}.
Proof.
  induction k as [|k IH]; intros left net Hle Hp.
  - rewrite Nat.sub_0_r, Nat.add_0_r, app_nil_r. now destruct net.
  - destruct left as [|left]; [lia|]. cbn [poll_loop getRouteResult].
    destruct (keeps_polling_not_final backend (fetches net + 0)
                (Hp 0%nat ltac:(lia))) as (r & Hr & Hf).
    rewrite Nat.add_0_r in Hr. rewrite Hr, Hf.
    rewrite IH.
    + cbn [fetches slept sleep Nat.sub]. f_equal. f_equal; [lia|].
      now rewrite <- app_assoc.
    + lia.
    + intros j Hj. cbn [fetches sleep].
      replace (S (fetches net) + j)%nat with (fetches net + S j)%nat by lia.
      apply Hp. lia.
Qed.

Lemma nth_error_set_nth {A} (l : list A) : forall j x,
  (j < List.length l)%nat -> nth_error (App.set_nth j x l) j = Some x.
Proof.
  induction l as [|h t IH]; intros [|j] x Hj; cbn in *; try lia; auto.
  apply IH. lia.
Qed.

Lemma set_nth_length {A} (l : list A) : forall j x,
  List.length (App.set_nth j x l) = List.length l.
Proof.
  induction l as [|h t IH]; intros [|j] x; cbn; auto.
Qed.

Lemma set_nth_twice {A} (l : list A) : forall j x y,
  App.set_nth j y (App.set_nth j x l) = App.set_nth j y l.
Proof.
  induction l as [|h t IH]; intros [|j] x y; cbn; auto. now rewrite IH.
Qed.

Lemma rounds_run maxAttempts j n : forall i s,
  (i + S n = maxAttempts)%nat ->
  nth_error (App.jobs s) j = Some (App.AwaitFetch i) ->
  App.run maxAttempts s (App.rounds j (S n)) =
  App.emit (App.on_poll_settled (Rejected TimeoutError))
    {| App.app := App.app s; App.jobs := App.set_nth j App.Finished (App.jobs s);
       App.log := App.log s; App.requests := App.requests s + n |}.
Proof.
  assert (Hlen : forall (s : App.Sys) pc, nth_error (App.jobs s) j = Some pc ->
                   (j < List.length (App.jobs s))%nat).
  { intros s pc H. apply nth_error_Some. congruence. }
  unfold App.run.
  induction n as [|n IH]; intros i s Hi Hj.
  - cbn [App.rounds fold_left App.step]. rewrite Hj. cbn [status processing_result is_final].
    unfold App.set_pc at 1. cbn [App.jobs].
    rewrite nth_error_set_nth by (eapply Hlen; eauto).
    unfold App.enter_iteration.
    replace (S i <? maxAttempts)%nat with false
      by (symmetry; apply Nat.ltb_ge; lia).
    unfold App.set_pc; cbn. rewrite set_nth_twice, Nat.add_0_r. reflexivity.
  - change (App.rounds j (S (S n)))
      with (App.FetchSettled j (Resolved processing_result)
              :: App.SleepElapsed j :: App.rounds j (S n)).
    cbn [fold_left App.step]. rewrite Hj.
    cbn [status processing_result is_final].
    unfold App.set_pc at 1. cbn [App.jobs].
    rewrite nth_error_set_nth by (eapply Hlen; eauto).
    unfold App.enter_iteration.
    replace (S i <? maxAttempts)%nat with true
      by (symmetry; apply Nat.ltb_lt; lia).
    rewrite (IH (S i)).
    + unfold App.set_pc; cbn. rewrite !set_nth_twice. do 2 f_equal. lia.
    + lia.
    + unfold App.set_pc; cbn. apply nth_error_set_nth.
      rewrite set_nth_length. eapply Hlen; eauto.
Qed.

(** C2. For every [maxAttempts >= 1]: against a backend that answers
    every fetch with [pending] or [processing], [pollRoute] issues exactly
    [maxAttempts] fetches and then rejects with the timeout error; in
    [handleAnalyze] that rejection is reported once ([setError] with the
    timeout message) and the job is finished: no further request is issued,
    whatever arrives later.  And the first fetch answered [completed] or
    [failed], within the budget, ends the loop: that RouteResult is what
    [pollRoute] returns, after exactly that many fetches. *)
Theorem C2_pollRoute_attempts :
  (forall backend interval maxAttempts net,
     (1 <= maxAttempts)%nat ->
     (forall k, keeps_polling backend k) ->
     pollRoute backend interval maxAttempts net =
       (Rejected TimeoutError,
        {| fetches := fetches net + maxAttempts;
           slept := slept net ++ repeat interval maxAttempts |}))
  /\
  (forall maxAttempts,
     (1 <= maxAttempts)%nat ->
     let s := App.run maxAttempts App.initial
                ([App.HandleAnalyze; App.CreateSettled 0 (Resolved "r"%string)]
                 ++ App.rounds 0 maxAttempts) in
     App.requests s = maxAttempts /\
     App.jobs s = [App.Finished] /\
     filter App.observable (App.log s) = [App.SetError (Some timeout_message)] /\
     (forall later,
        forallb (fun ev => negb (App.starts_analysis ev)) later = true ->
        App.run maxAttempts s later = s))
  /\
  (forall backend interval maxAttempts net k r,
     (k < maxAttempts)%nat ->
     (forall j, (j < k)%nat -> keeps_polling backend (fetches net + j)) ->
     backend (fetches net + k)%nat = Resolved r ->
     (status r = completed \/ status r = failed) ->
     pollRoute backend interval maxAttempts net =
       (Resolved r,
        {| fetches := fetches net + k + 1;
           slept := slept net ++ repeat interval k |})).
Proof.
  split; [|split].
  - intros backend interval maxAttempts net _ Hp. unfold pollRoute.
    rewrite (poll_loop_pending backend interval maxAttempts) by auto.
    now rewrite Nat.sub_diag.
  - intros maxAttempts Hm s.
    destruct maxAttempts as [|n]; [lia|].
    assert (Hs : s = App.emit (App.on_poll_settled (Rejected TimeoutError))
                  {| App.app := {| App.loading := true; App.error_msg := None;
                                   App.result := None |};
                     App.jobs := [App.Finished];
                     App.log := [App.SetLoading true; App.SetError None;
                                 App.SetResult None];
                     App.requests := S n |}).
    { subst s. unfold App.run. rewrite fold_left_app.
      cbn [fold_left App.step].
      pose proof (rounds_run (S n) 0 n 0) as R. unfold App.run in R.
      rewrite R; [reflexivity|lia|reflexivity]. }
    rewrite Hs. split; [reflexivity|]. split; [reflexivity|].
    split; [reflexivity|].
    set (s1 := App.emit _ _). assert (Hj : App.jobs s1 = [App.Finished]) by reflexivity.
    clearbody s1. clear Hs s.
    induction later as [|ev later IH]; intros Hl; [reflexivity|].
    cbn [forallb] in Hl. apply andb_prop in Hl as [Hev Hl].
    unfold App.run in *. cbn [fold_left].
    replace (App.step (S n) s1 ev) with s1; [now apply IH|].
    destruct ev as [| |j r|j r|j]; try discriminate Hev; cbn [App.step];
      rewrite Hj; destruct j as [|[|j]]; reflexivity.
  - intros backend interval maxAttempts net k r Hk Hp Hr Hs. unfold pollRoute.
    rewrite (poll_loop_pending backend interval k) by (auto; lia).
    destruct (maxAttempts - k)%nat as [|left] eqn:E; [lia|].
    cbn [poll_loop getRouteResult fetches]. rewrite Hr.
    replace (is_final (status r)) with true by (destruct Hs as [-> | ->]; reflexivity).
    do 2 f_equal. lia.
Qed.

Lemma C2_witness :
  pollRoute always_processing 1500 3 {| fetches := 0; slept := [] |} =
    (Rejected TimeoutError, {| fetches := 3; slept := [1500; 1500; 1500] |}).
Proof.
  destruct C2_pollRoute_attempts as [H _].
  apply (H always_processing 1500 3%nat {| fetches := 0; slept := [] |}).
  - lia.
  - intros k. exists processing_result. split; [reflexivity|now right].
Defined.

(* ------------------------------------------------------------------ *)
(** ** Starting a second analysis *)
(* ------------------------------------------------------------------ *)

Lemma poll_settled_unloads r s :
  App.loading (App.app (App.emit (App.on_poll_settled r) s)) = false.
Proof.
  destruct r as [rr|e]; [destruct rr as [? [] ? ? ? ? ? ? ?]|]; reflexivity.
Qed.

Lemma emit_jobs es s : App.jobs (App.emit es s) = App.jobs s.
Proof. reflexivity. Qed.

Lemma active_set_nth (l : list App.Pc) : forall j old new,
  nth_error l j = Some old ->
  (List.length (filter App.active (App.set_nth j new l))
     + (if App.active old then 1 else 0)
   = List.length (filter App.active l)
     + (if App.active new then 1 else 0))%nat.
Proof.
  induction l as [|h t IH]; intros [|j] old new H; cbn in H; try discriminate.
  - injection H as ->. cbn [App.set_nth filter].
    destruct (App.active old), (App.active new); cbn [List.length]; lia.
  - cbn [App.set_nth filter]. specialize (IH j old new H).
    destruct (App.active h); cbn [List.length]; lia.
Qed.

Lemma finish_one_job r j old s :
  App.one_job s -> nth_error (App.jobs s) j = Some old -> App.active old = true ->
  App.one_job (App.emit (App.on_poll_settled r) (App.set_pc j App.Finished s)).
Proof.
  unfold App.one_job, App.active_jobs. intros Hs Hj Ha.
  rewrite poll_settled_unloads, emit_jobs. cbn [App.set_pc App.jobs].
  pose proof (active_set_nth _ j old App.Finished Hj) as H.
  rewrite Ha in H. cbn [App.active] in H.
  destruct (App.loading (App.app s)); lia.
Qed.

Lemma move_one_job j old new s :
  App.one_job s -> nth_error (App.jobs s) j = Some old ->
  App.active old = true -> App.active new = true ->
  App.one_job (App.set_pc j new s).
Proof.
  unfold App.one_job, App.active_jobs. intros Hs Hj Ha Hn.
  cbn [App.set_pc App.jobs App.app].
  pose proof (active_set_nth _ j old new Hj) as H.
  rewrite Ha, Hn in H. lia.
Qed.











(* ------------------------------------------------------------------ *)
(** ** Click and hover popups *)
(* ------------------------------------------------------------------ *)

Import Popups.

Lemma remove_shown ref st p :
  In p (shown (remove ref st)) -> In p (shown st).
Proof.
  destruct ref as [q|]; cbn; [|auto]. intros H. now apply filter_In in H.
Qed.

Lemma remove_refs ref st :
  clickPopupRef (remove ref st) = clickPopupRef st /\
  hoverPopupRef (remove ref st) = hoverPopupRef st /\
  next_popup (remove ref st) = next_popup st.
Proof. destruct ref; repeat split. Qed.

Lemma remove_hover_clears st :
  popups_inv st -> forall ref,
  transient_open (remove (hoverPopupRef st) (remove ref st)) = false.
Proof.
  intros [Ht _] ref. unfold transient_open.
  destruct (existsb is_transient _) eqn:E; [|reflexivity].
  apply existsb_exists in E as (p & Hin & Hp).
  assert (Hin0 : In p (shown st)).
  { apply (remove_shown ref), (remove_shown (hoverPopupRef st) (remove ref st)).
    destruct ref; exact Hin. }
  pose proof (Ht p Hin0 Hp) as Hh.
  replace (hoverPopupRef st) with (Some p) in Hin.
  cbn in Hin. apply filter_In in Hin as [_ Hin].
  now rewrite Nat.eqb_refl in Hin.
Qed.

Lemma transient_none_inv st ck hv n :
  existsb is_transient (shown st) = false ->
  (forall p, In p (shown st) -> is_persistent p = true -> ck <> None) ->
  popups_inv {| clickPopupRef := ck; hoverPopupRef := hv; shown := shown st;
                next_popup := n |}.
Proof.
  intros E Hc. split; cbn; [|exact Hc].
  intros p Hin Hp. exfalso.
  assert (existsb is_transient (shown st) = true)
    by (apply existsb_exists; eauto).
  congruence.
Qed.

Lemma close_remove ref st :
  remove ref (close_on_click st) = close_on_click st.
Proof. destruct ref; reflexivity. Qed.

(** What a click leaves on the map: the popup it opens, and nothing else. *)
Lemma click_shown l f st :
  on_click l f st =
  match l, f with
  | samples_circles, true => on_click samples_circles true st
  | _, _ => close_on_click st
  end.
Proof. destruct l, f; reflexivity. Qed.

Lemma click_sample st :
  on_click samples_circles true st =
  {| clickPopupRef := Some {| popup_id := next_popup st; kind := Persistent |};
     hoverPopupRef := hoverPopupRef st;
     shown := [{| popup_id := next_popup st; kind := Persistent |}];
     next_popup := S (next_popup st) |}.
Proof.
  unfold on_click; cbn [negb]. rewrite !close_remove. reflexivity.
Qed.

Lemma step_popups_inv st ev : popups_inv st -> popups_inv (step st ev).
Proof.
  intros Hinv. pose proof Hinv as [Ht Hc].
  assert (Hh : forall ck n,
    (forall p, In p (shown (remove (hoverPopupRef st) st)) ->
               is_persistent p = true -> ck <> None) ->
    popups_inv
      {| clickPopupRef := ck;
         hoverPopupRef := Some {| popup_id := n; kind := Transient |};
         shown := shown (remove (hoverPopupRef st) st)
                  ++ [{| popup_id := n; kind := Transient |}];
         next_popup := S n |}).
  { intros ck n Hck. split; cbn.
    - intros p Hin Hp. apply in_app_or in Hin as [Hin|[<-|[]]]; [|reflexivity].
      exfalso. pose proof (remove_hover_clears st Hinv None) as E.
      change (remove None st) with st in E. unfold transient_open in E.
      assert (existsb is_transient (shown (remove (hoverPopupRef st) st)) = true)
        by (apply existsb_exists; eauto).
      congruence.
    - intros p Hin Hp. apply in_app_or in Hin as [Hin|[<-|[]]]; [eauto|discriminate]. }
  assert (Hg : popups_inv
                (let st1 := remove (hoverPopupRef st) st in
                 let (p, st2) := open Transient st1 in set_hover (Some p) st2)).
  { destruct (remove_refs (hoverPopupRef st) st) as (Rc & _ & Rn).
    cbn [open set_hover clickPopupRef hoverPopupRef shown next_popup].
    rewrite Rc, Rn. apply Hh.
    intros p Hin Hp. apply remove_shown in Hin. eauto. }
  assert (Hk : popups_inv (close_on_click st)) by (split; intros p []).
  destruct ev as [l f|l f|l| | | |]; cbn [step].
  - rewrite (click_shown l f st).
    destruct l, f; cbn [andb]; try exact Hk.
    unfold on_click; cbn [negb].
    rewrite !close_remove. cbn [open set_click]. split; cbn.
    + intros p [<-|[]] Hp. discriminate.
    + intros; discriminate.
  - unfold on_mouseenter. destruct f; cbn [negb]; [|exact Hinv].
    destruct (remove_refs (hoverPopupRef st) st) as (Rc & _ & Rn).
    assert (G : popups_inv
                  (let st1 := remove (hoverPopupRef st) st in
                   let (p, st2) := open Transient st1 in set_hover (Some p) st2)).
    { cbn [open set_hover clickPopupRef hoverPopupRef shown next_popup].
      rewrite Rc, Rn. apply Hh.
      intros p Hin Hp. apply remove_shown in Hin. eauto. }
    destruct l; [destruct (clickPopupRef st); [exact Hinv|exact G]|exact G..].
  - unfold on_mouseleave, set_hover.
    apply (transient_none_inv (remove (hoverPopupRef st) st)).
    + pose proof (remove_hover_clears st Hinv None) as E. exact E.
    + intros p Hin Hp. apply remove_shown in Hin.
      replace (clickPopupRef (remove (hoverPopupRef st) st)) with (clickPopupRef st)
        by (destruct (hoverPopupRef st); reflexivity).
      eauto.
  - unfold on_close. split; cbn.
    + intros p Hin Hp. apply filter_In in Hin as [Hin _]. auto.
    + intros p Hin Hp. apply filter_In in Hin as [_ Hin].
      unfold is_persistent in Hp. destruct (kind p); discriminate.
  - exact Hk.
  - exact Hg.
  - unfold on_list_leave.
    destruct (remove_refs (hoverPopupRef st) st) as (Rc & Rh & _).
    split.
    + intros p Hin Hp. exfalso. pose proof (remove_hover_clears st Hinv None) as E.
      change (remove None st) with st in E. unfold transient_open in E.
      assert (existsb is_transient (shown (remove (hoverPopupRef st) st)) = true)
        by (apply existsb_exists; eauto).
      congruence.
    + intros p Hin Hp. rewrite Rc. apply remove_shown in Hin. eauto.
Qed.

Lemma run_popups_inv evs : forall st, popups_inv st -> popups_inv (run st evs).
Proof.
  unfold run. induction evs as [|ev evs IH]; intros st H; cbn; [exact H|].
  apply IH, step_popups_inv, H.
Qed.

Lemma initial_popups_inv : popups_inv initial.
Proof. split; intros p []. Qed.

(** C7. What MapView does about popup exclusivity.  In every reachable
    state: a click on a sample opens the persistent popup and leaves no
    hover popup on the map, and hovering a sample while the persistent popup
    is open changes nothing.  But (1) after the persistent popup has been
    closed, hovering a sample still shows nothing ([clickPopupRef] is never
    reset), and (2) hovering a toll, accident or signal point opens a hover
    popup while the persistent popup is open (their handlers lack the guard
    of the samples handler). *)
Theorem C7_popup_exclusivity :
  (forall evs,
     let st := run initial evs in
     transient_open (step st (Click samples_circles true)) = false /\
     persistent_open (step st (Click samples_circles true)) = true /\
     (persistent_open st = true ->
      step st (MouseEnter samples_circles true) = st))
  /\
  (let st := run initial [Click samples_circles true; CloseButton;
                          MouseEnter samples_circles true] in
   persistent_open st = false /\ transient_open st = false)
  /\
  (forall l, l <> samples_circles ->
     let st := run initial [Click samples_circles true; MouseEnter l true] in
     persistent_open st = true /\ transient_open st = true).
Proof.
  split; [|split].
  - intros evs st.
    pose proof (run_popups_inv evs initial initial_popups_inv) as Hinv.
    fold st in Hinv. split; [|split].
    + cbn [step]. now rewrite click_sample.
    + cbn [step]. now rewrite click_sample.
    + intros Hp. cbn [step]. unfold on_mouseenter. cbn [negb].
      destruct (clickPopupRef st) eqn:Ec; [reflexivity|].
      unfold persistent_open in Hp. apply existsb_exists in Hp as (p & Hin & Hp).
      destruct Hinv as [_ Hc]. now destruct (Hc p Hin Hp).
  - split; reflexivity.
  - intros l Hl. destruct l; [contradiction|..]; split; reflexivity.
Qed.

Lemma C7_witness :
  let st := run initial [Click samples_circles true; MouseEnter toll_circles true] in
  persistent_open st = true /\ transient_open st = true.
Proof.
  destruct C7_popup_exclusivity as (_ & _ & H).
  apply (H toll_circles). discriminate.
Defined.

(* ------------------------------------------------------------------ *)
(** ** Map layer synchronisation *)
(* ------------------------------------------------------------------ *)

Import Surface MapView Sync.

Lemma bind_ok {A B} (c : M A) (k : A -> M B) m a m' :
  c m = Ok (a, m') -> bind c k m = k a m'.
Proof. unfold bind. now intros ->. Qed.

Lemma existsb_ext {A} (f g : A -> bool) (l : list A) :
  (forall x, f x = g x) -> existsb f l = existsb g l.
Proof.
  intros H. induction l as [|x l IH]; cbn; [reflexivity|]. now rewrite H, IH.
Qed.

Lemma filter_true {A} (f : A -> bool) (l : list A) :
  existsb (fun x => negb (f x)) l = false -> filter f l = l.
Proof.
  induction l as [|x l IH]; cbn; [reflexivity|].
  intros H. apply orb_false_elim in H as [Hx Hl].
  apply negb_false_iff in Hx. rewrite Hx. f_equal. auto.
Qed.

Lemma filter_and {A} (f g : A -> bool) (l : list A) :
  filter f (filter g l) = filter (fun x => g x && f x) l.
Proof.
  induction l as [|x l IH]; cbn; [reflexivity|].
  destruct (g x); cbn; [destruct (f x)|]; now rewrite IH.
Qed.

Lemma existsb_filter_none {A} (f p : A -> bool) (l : list A) :
  (forall x, f x = true -> p x = false) -> existsb f (filter p l) = false.
Proof.
  intros H. induction l as [|x l IH]; cbn; [reflexivity|].
  destruct (p x) eqn:P; cbn; [|exact IH].
  destruct (f x) eqn:F; [|exact IH]. rewrite (H x F) in P. discriminate.
Qed.

Lemma filter_none {A} (f : A -> bool) (l : list A) :
  (forall x, In x l -> f x = false) -> filter f l = [].
Proof.
  induction l as [|x l IH]; intros H; cbn; [reflexivity|].
  rewrite (H x (or_introl eq_refl)). apply IH. intros y Hy. apply H. now right.
Qed.

Lemma map_eta (m : Map) :
  m = {| sources := sources m; layers := layers m; glyphs := glyphs m;
         error_events := error_events m |}.
Proof. now destruct m. Qed.

(** [if (m.getLayer(id)) m.removeLayer(id)] removes the layer, never fails. *)
Lemma dropLayer_run i m :
  dropLayer i m =
  Ok (tt, with_layers (filter (fun l => negb (String.eqb (id l) i)) (layers m)) m).
Proof.
  unfold dropLayer, bind, getLayer, when.
  destruct (has_layer i m) eqn:H.
  - unfold removeLayer. now rewrite H.
  - unfold ret, with_layers. rewrite filter_true.
    + now rewrite <- map_eta.
    + unfold has_layer in H. rewrite <- H. apply existsb_ext.
      intros l. now rewrite negb_involutive.
Qed.

Lemma has_source_sym i m :
  has_source i m = existsb (fun s => String.eqb s i) (sources m).
Proof.
  unfold has_source. apply existsb_ext. intros s. apply String.eqb_sym.
Qed.

(** [if (m.getSource(id)) m.removeSource(id)], when no layer uses the source. *)
Lemma dropSource_run i m :
  in_use i m = false ->
  dropSource i m =
  Ok (tt, with_sources (filter (fun s => negb (String.eqb s i)) (sources m)) m).
Proof.
  intros U. unfold dropSource, bind, getSource, when.
  destruct (has_source i m) eqn:H.
  - unfold removeSource. now rewrite H, U.
  - unfold ret, with_sources. rewrite filter_true.
    + now rewrite <- map_eta.
    + rewrite has_source_sym in H. rewrite <- H. apply existsb_ext.
      intros l. now rewrite negb_involutive.
Qed.

Lemma addSource_run i m :
  has_source i m = false ->
  addSource i m = Ok (tt, with_sources (sources m ++ [i]) m).
Proof. intros H. unfold addSource. now rewrite H. Qed.

Lemma addLayer_run l m :
  has_layer (id l) m = false -> has_source (source l) m = true ->
  needs_glyphs l && negb (glyphs m) = false ->
  addLayer l m = Ok (tt, with_layers (layers m ++ [l]) m).
Proof.
  intros H S G. unfold addLayer, validation_errors. now rewrite H, S, G.
Qed.

(** One layer handed to [addLayer]: it is added, or, when it needs glyphs
    the style does not have, refused with one error event. *)
Lemma addLayer_put l m :
  has_layer (id l) m = false -> has_source (source l) m = true ->
  addLayer l m = Ok (tt, put_layers [l] m).
Proof.
  intros H S.
  unfold addLayer, validation_errors, put_layers, accepted, refused, fire_errors.
  rewrite H, S. cbn [filter Nat.add].
  destruct (needs_glyphs l), (glyphs m); cbn;
    rewrite ?app_nil_r, ?Nat.add_0_r; reflexivity.
Qed.

Lemma accepted_app g a b : accepted g (a ++ b) = accepted g a ++ accepted g b.
Proof. apply filter_app. Qed.

Lemma refused_app g a b : refused g (a ++ b) = (refused g a + refused g b)%nat.
Proof. unfold refused. now rewrite filter_app, length_app. Qed.

Lemma put_layers_cons a adds m :
  put_layers adds (put_layers [a] m) = put_layers (a :: adds) m.
Proof.
  unfold put_layers. cbn [sources layers glyphs error_events].
  change (a :: adds) with ([a] ++ adds).
  now rewrite accepted_app, refused_app, app_assoc, Nat.add_assoc.
Qed.

Lemma has_layer_put i ls m :
  has_layer i (put_layers ls m) = true ->
  has_layer i m = true \/ In i (map id ls).
Proof.
  unfold has_layer, put_layers. cbn [layers]. rewrite existsb_app.
  intros H. apply orb_prop in H as [H|H]; [now left|right].
  apply existsb_exists in H as (l & Hin & E). apply String.eqb_eq in E.
  apply filter_In in Hin as [Hin _]. rewrite <- E. now apply in_map.
Qed.

Lemma dropLayers_run ids : forall m,
  forEach ids dropLayer m =
  Ok (tt, with_layers (filter (fun l => negb (mem (id l) ids)) (layers m)) m).
Proof.
  induction ids as [|i ids IH]; intros m; cbn [forEach].
  - unfold ret, with_layers. cbn. rewrite filter_true; [now rewrite <- map_eta|].
    now induction (layers m).
  - rewrite (bind_ok _ _ _ _ _ (dropLayer_run i m)), IH.
    unfold with_layers; cbn. rewrite filter_and. do 3 f_equal.
    apply filter_ext. intros l. unfold mem. cbn.
    now rewrite negb_orb.
Qed.

Lemma refresh_nil c m : refresh c [] [] m = clear c m.
Proof.
  unfold refresh, accepted, refused. cbn. now rewrite !app_nil_r, Nat.add_0_r.
Qed.

Lemma owned_at l c :
  owned l = true -> on_source_id c (source l) = true -> on_layer c l = true.
Proof.
  unfold owned, channels. cbn [forallb]. intros H S.
  repeat (apply andb_prop in H as [? H]).
  destruct c; match goal with
              | I : implb (on_source_id ?c _) _ = true,
                S : on_source_id ?c _ = true |- on_layer ?c _ = true =>
                  rewrite S in I; exact I
              end.
Qed.

(** Once the layers of a channel are gone, nothing uses its sources. *)
Lemma cleared_not_in_use c i m :
  well_formed m -> on_source_id c i = true ->
  in_use i (with_layers (layers (clear c m)) m) = false.
Proof.
  intros [_ _ Ho] Hi. unfold in_use, clear, with_layers; cbn [layers].
  induction (layers m) as [|l L IH]; cbn; [reflexivity|].
  cbn [forallb] in Ho. apply andb_prop in Ho as [Hl Ho].
  destruct (on_layer c l) eqn:E; cbn; [now apply IH|].
  rewrite (IH Ho), orb_false_r.
  destruct (String.eqb_spec (source l) i) as [Heq|]; [|reflexivity].
  rewrite <- Heq in Hi. rewrite (owned_at l c Hl Hi) in E. discriminate.
Qed.

Lemma addLayers_run adds : forall m,
  NoDup (map id adds) ->
  (forall l, In l adds -> has_layer (id l) m = false /\ has_source (source l) m = true) ->
  forEach adds addLayer m = Ok (tt, put_layers adds m).
Proof.
  induction adds as [|a adds IH]; intros m Hn Hl; cbn [forEach].
  - unfold ret, put_layers, accepted, refused. cbn.
    now rewrite app_nil_r, Nat.add_0_r, <- map_eta.
  - destruct (Hl a (or_introl eq_refl)) as [Ha Hs].
    rewrite (bind_ok _ _ _ _ _ (addLayer_put a m Ha Hs)).
    cbn [map] in Hn. apply NoDup_cons_iff in Hn as [Hna Hn].
    rewrite IH.
    + now rewrite put_layers_cons.
    + exact Hn.
    + intros l Hin. destruct (Hl l (or_intror Hin)) as [Hl1 Hl2]. split.
      * destruct (has_layer (id l) (put_layers [a] m)) eqn:E; [|reflexivity].
        apply has_layer_put in E as [E|[E|[]]]; [congruence|].
        exfalso. apply Hna. rewrite E. now apply in_map.
      * exact Hl2.
Qed.

Lemma seq2 {A} (f : A -> M unit) a b m :
  bind (f a) (fun _ => f b) m = forEach [a; b] f m.
Proof.
  cbn [forEach]. unfold bind, ret.
  destruct (f a m) as [[[] m1]|]; [|reflexivity].
  now destruct (f b m1) as [[[] m2]|].
Qed.

Lemma seq3 {A} (f : A -> M unit) a b c m :
  bind (f a) (fun _ => bind (f b) (fun _ => f c)) m = forEach [a; b; c] f m.
Proof.
  cbn [forEach]. unfold bind, ret.
  destruct (f a m) as [[[] m1]|]; [|reflexivity].
  destruct (f b m1) as [[[] m2]|]; [|reflexivity].
  now destruct (f c m2) as [[[] m3]|].
Qed.

Lemma seq1 {A} (f : A -> M unit) a m :
  bind (f a) (fun _ => ret tt) m = forEach [a] f m.
Proof. reflexivity. Qed.

(** Putting a channel's source and layers on a map cleared of the channel. *)
Lemma fill_run c src adds (k : M unit) m :
  (forall m', k m' = forEach adds addLayer m') ->
  on_source_id c src = true ->
  NoDup (map id adds) ->
  (forall l, In l adds -> source l = src /\ on_layer c l = true) ->
  bind (addSource src) (fun _ => k) (clear c m) =
  Ok (tt, refresh c [src] adds m).
Proof.
  intros Hk Hs Hn Hl.
  assert (H1 : has_source src (clear c m) = false).
  { rewrite has_source_sym. unfold clear; cbn [sources].
    apply existsb_filter_none. intros s E. apply String.eqb_eq in E as ->.
    now rewrite Hs. }
  rewrite (bind_ok _ _ _ _ _ (addSource_run src _ H1)), Hk.
  rewrite addLayers_run; [reflexivity|exact Hn|].
  intros l Hin. destruct (Hl l Hin) as [<- Ho]. split.
  - unfold has_layer, with_sources, clear; cbn [layers].
    apply existsb_filter_none. intros x E. apply String.eqb_eq in E.
    unfold on_layer in *. now rewrite E, Ho.
  - unfold has_source, with_sources; cbn [sources].
    rewrite existsb_app. cbn. now rewrite String.eqb_refl, orb_true_r.
Qed.

Ltac clear_fixed c m Hwf :=
  rewrite (bind_ok _ _ _ _ _ (dropLayers_run _ m));
  match goal with
  | |- bind (dropSource ?s) _ ?m1 = _ =>
      change m1 with (with_layers (layers (clear c m)) m);
      rewrite (bind_ok _ _ _ _ _
                 (dropSource_run s _ (cleared_not_in_use c s m Hwf eq_refl)));
      match goal with
      | |- _ ?m2 = _ => change m2 with (clear c m)
      end
  end.

Ltac fill_fixed :=
  apply fill_run;
  [intros; first [apply seq3|apply seq2|apply seq1]
  |reflexivity
  |repeat constructor; cbn; intuition discriminate
  |intros ? [<-|H]; [split; reflexivity|];
   repeat (destruct H as [<-|H]; [split; reflexivity|]); destruct H].

Lemma addTollLayers_run r m :
  well_formed m ->
  addTollLayers r m = Ok (tt, refresh Tolls (new_sources Tolls r) (new_layers Tolls r) m).
Proof.
  intros Hwf. unfold addTollLayers. clear_fixed Tolls m Hwf.
  cbn [new_sources new_layers]. destruct (is_empty (tollPointsRef r)).
  - now rewrite refresh_nil.
  - fill_fixed.
Qed.

Lemma addAccidentLayers_run r m :
  well_formed m ->
  addAccidentLayers r m =
  Ok (tt, refresh Accidents (new_sources Accidents r) (new_layers Accidents r) m).
Proof.
  intros Hwf. unfold addAccidentLayers. clear_fixed Accidents m Hwf.
  cbn [new_sources new_layers]. destruct (is_empty (accidentPointsRef r)).
  - now rewrite refresh_nil.
  - fill_fixed.
Qed.

Lemma addTrafficLightLayers_run r m :
  well_formed m ->
  addTrafficLightLayers r m =
  Ok (tt, refresh Signals (new_sources Signals r) (new_layers Signals r) m).
Proof.
  intros Hwf. unfold addTrafficLightLayers. clear_fixed Signals m Hwf.
  cbn [new_sources new_layers]. destruct (is_empty (trafficLightPointsRef r)).
  - now rewrite refresh_nil.
  - fill_fixed.
Qed.

Lemma addSampleLayers_run r m :
  well_formed m ->
  addSampleLayers r m =
  Ok (tt, refresh Samples (new_sources Samples r) (new_layers Samples r) m).
Proof.
  intros Hwf. unfold addSampleLayers. clear_fixed Samples m Hwf.
  cbn [new_sources new_layers]. destruct (is_empty (or_empty (samplesRef r))).
  - now rewrite refresh_nil.
  - fill_fixed.
Qed.

Lemma drop2 {B} a b (k : unit -> M B) m :
  bind (dropLayer a) (fun _ => bind (dropLayer b) k) m =
  bind (forEach [a; b] dropLayer) k m.
Proof.
  cbn [forEach]. unfold bind, ret.
  destruct (dropLayer a m) as [[[] m1]|]; [|reflexivity].
  now destruct (dropLayer b m1) as [[[] m2]|].
Qed.

(** With a geometry in the ref the route channel is refreshed; without one
    [addRouteLayers] returns before touching the map. *)
Lemma addRouteLayers_run r m :
  well_formed m ->
  addRouteLayers r m =
  Ok (tt, match routeGeomRef r with
          | Some _ => refresh Route (new_sources Route r) (new_layers Route r) m
          | None => m
          end).
Proof.
  intros Hwf. unfold addRouteLayers.
  cbn [new_sources new_layers].
  destruct (routeGeomRef r) as [geom|]; [|reflexivity].
  rewrite drop2. clear_fixed Route m Hwf. cbv zeta.
  destruct (is_empty (congestionSegmentsRef r)); cbn [negb when].
  - fill_fixed.
  - fill_fixed.
Qed.

(** *** The congestion channel *)

Lemma show_index_inj i j : show_index i = show_index j -> i = j.
Proof.
  assert (H : forall n, NilZero.uint_of_string (show_index n) = Some (Nat.to_uint n)).
  { intros n. unfold show_index. apply NilZero.usu. intros E.
    pose proof (Unsigned.of_to n) as F. rewrite E in F. cbn in F. subst n.
    discriminate E. }
  intros E. apply Unsigned.to_uint_inj.
  pose proof (H i) as Hi. rewrite E, H in Hi. now injection Hi.
Qed.

Lemma seg_ids_prefixed idx :
  startsWith (seg_source_id idx) seg_prefix = true /\
  startsWith (seg_outline_id idx) seg_prefix = true /\
  startsWith (seg_line_id idx) seg_prefix = true.
Proof. repeat split; reflexivity. Qed.

Lemma seg_ids_distinct i j :
  i <> j ->
  String.eqb (seg_source_id i) (seg_source_id j) = false /\
  String.eqb (seg_outline_id i) (seg_outline_id j) = false /\
  String.eqb (seg_line_id i) (seg_line_id j) = false.
Proof.
  intros N. repeat split; apply String.eqb_neq; intros E; apply N;
    apply show_index_inj; unfold seg_source_id, seg_outline_id, seg_line_id in E;
    cbn in E; congruence.
Qed.

Lemma seg_outline_line i j :
  String.eqb (seg_outline_id i) (seg_line_id j) = false /\
  String.eqb (seg_line_id i) (seg_outline_id j) = false.
Proof. split; reflexivity. Qed.

Lemma removeLayer_run i m :
  has_layer i m = true ->
  removeLayer i m =
  Ok (tt, with_layers (filter (fun l => negb (String.eqb (id l) i)) (layers m)) m).
Proof. intros H. unfold removeLayer. now rewrite H. Qed.

Lemma filter_only {A} (f : A -> bool) (a : A) (l1 l2 : list A) :
  f a = false -> (forall x, In x (l1 ++ l2) -> f x = true) ->
  filter f (l1 ++ a :: l2) = l1 ++ l2.
Proof.
  intros Ha H. rewrite filter_app. cbn. rewrite Ha.
  rewrite <- filter_app. apply forallb_filter_id, forallb_forall, H.
Qed.

Lemma remove_one_layer l A B :
  NoDup (map id (A ++ l :: B)) ->
  filter (fun x => negb (String.eqb (id x) (id l))) (A ++ l :: B) = A ++ B.
Proof.
  intros N. apply filter_only.
  - now rewrite String.eqb_refl.
  - intros x Hx. apply negb_true_iff, String.eqb_neq. intros E.
    rewrite map_app in N. cbn [map] in N. apply NoDup_remove_2 in N.
    apply N. rewrite <- E, <- map_app. now apply in_map.
Qed.

Lemma remove_seg_layers todo : forall done m,
  layers m = filter keeps_layer done ++ todo ->
  NoDup (map id (layers m)) ->
  forEach todo
    (fun l => when (startsWith (id l) seg_prefix) (removeLayer (id l))) m =
  Ok (tt, with_layers (filter keeps_layer (done ++ todo)) m).
Proof.
  induction todo as [|l t IH]; intros done m Hm Hn; cbn [forEach].
  - rewrite app_nil_r in *. unfold ret, with_layers. now rewrite <- Hm, <- map_eta.
  - assert (Hsplit : filter keeps_layer (done ++ l :: t)
                     = filter keeps_layer ((done ++ [l]) ++ t))
      by now rewrite <- app_assoc.
    rewrite Hsplit.
    destruct (startsWith (id l) seg_prefix) eqn:E; cbn [when].
    + assert (Hl : has_layer (id l) m = true).
      { unfold has_layer. rewrite Hm, existsb_app. cbn.
        now rewrite String.eqb_refl, orb_true_r. }
      rewrite (bind_ok _ _ _ _ _ (removeLayer_run _ m Hl)).
      rewrite Hm in Hn |- *. rewrite (remove_one_layer _ _ _ Hn).
      rewrite (IH (done ++ [l])); [reflexivity| |].
      * cbn [with_layers layers]. rewrite filter_app. cbn [filter].
        replace (keeps_layer l) with false
          by (unfold keeps_layer, on_layer; cbn [on_layer_id]; now rewrite E).
        now rewrite app_nil_r.
      * cbn [with_layers layers]. rewrite map_app in *. cbn [map] in Hn.
        now apply NoDup_remove_1 in Hn.
    + unfold bind, ret. apply (IH (done ++ [l])); [|exact Hn].
      rewrite Hm, filter_app. cbn [filter].
      replace (keeps_layer l) with true
        by (unfold keeps_layer, on_layer; cbn [on_layer_id]; now rewrite E).
      now rewrite <- app_assoc.
Qed.

Lemma removeSource_run i m :
  has_source i m = true -> in_use i m = false ->
  removeSource i m =
  Ok (tt, with_sources (filter (fun s => negb (String.eqb s i)) (sources m)) m).
Proof. intros H U. unfold removeSource. now rewrite H, U. Qed.

Lemma remove_one_source s A B :
  NoDup (A ++ s :: B) ->
  filter (fun x => negb (String.eqb x s)) (A ++ s :: B) = A ++ B.
Proof.
  intros N. apply filter_only.
  - now rewrite String.eqb_refl.
  - intros x Hx. apply negb_true_iff, String.eqb_neq. intros ->.
    now apply NoDup_remove_2 in N.
Qed.

Lemma remove_seg_sources todo : forall done m,
  sources m = filter keeps_source done ++ todo ->
  NoDup (sources m) ->
  (forall s, startsWith s seg_prefix = true -> in_use s m = false) ->
  forEach todo (fun s => when (startsWith s seg_prefix) (removeSource s)) m =
  Ok (tt, with_sources (filter keeps_source (done ++ todo)) m).
Proof.
  induction todo as [|s t IH]; intros done m Hm Hn Hu; cbn [forEach].
  - rewrite app_nil_r in *. unfold ret, with_sources. now rewrite <- Hm, <- map_eta.
  - assert (Hsplit : filter keeps_source (done ++ s :: t)
                     = filter keeps_source ((done ++ [s]) ++ t))
      by now rewrite <- app_assoc.
    rewrite Hsplit.
    destruct (startsWith s seg_prefix) eqn:E; cbn [when].
    + assert (Hs : has_source s m = true).
      { unfold has_source. rewrite Hm, existsb_app. cbn.
        now rewrite String.eqb_refl, orb_true_r. }
      rewrite (bind_ok _ _ _ _ _ (removeSource_run _ m Hs (Hu s E))).
      rewrite Hm in Hn |- *. rewrite (remove_one_source _ _ _ Hn).
      rewrite (IH (done ++ [s])); [reflexivity| | |].
      * cbn [with_sources sources]. rewrite filter_app. cbn [filter].
        replace (keeps_source s) with false
          by (unfold keeps_source; cbn [on_source_id]; now rewrite E).
        now rewrite app_nil_r.
      * cbn [with_sources sources]. now apply NoDup_remove_1 in Hn.
      * exact Hu.
    + unfold bind, ret. apply (IH (done ++ [s])); [|exact Hn|exact Hu].
      rewrite Hm, filter_app. cbn [filter].
      replace (keeps_source s) with true
        by (unfold keeps_source; cbn [on_source_id]; now rewrite E).
      now rewrite <- app_assoc.
Qed.

Lemma bind_assoc {A B C} (c : M A) (k : A -> M B) (h : B -> M C) m :
  bind (bind c k) h m = bind c (fun x => bind (k x) h) m.
Proof. unfold bind. destruct (c m) as [[a m1]|]; reflexivity. Qed.

Lemma add_segments segs : forall idx m,
  seg_free idx m ->
  forEach_from idx segs add_segment m =
  Ok (tt, {| sources := sources m ++ seg_sources idx (List.length segs);
             layers := layers m ++ seg_layers idx (List.length segs);
             glyphs := glyphs m;
             error_events := error_events m |}).
Proof.
  induction segs as [|seg segs IH]; intros idx m Hf; cbn [forEach_from List.length].
  - cbn [seg_sources seg_layers]. unfold ret. now rewrite !app_nil_r, <- map_eta.
  - destruct (Hf idx (Nat.le_refl _)) as (Hs & Ho & Hl).
    unfold add_segment at 1. rewrite !bind_assoc.
    rewrite (bind_ok _ _ _ _ _ (addSource_run _ m Hs)), bind_assoc.
    set (m1 := with_sources (sources m ++ [seg_source_id idx]) m).
    assert (S1 : has_source (seg_source_id idx) m1 = true).
    { unfold has_source, m1, with_sources. cbn [sources].
      rewrite existsb_app. cbn. now rewrite String.eqb_refl, orb_true_r. }
    set (lo := {| id := seg_outline_id idx; type := line; source := seg_source_id idx |}).
    set (ll := {| id := seg_line_id idx; type := line; source := seg_source_id idx |}).
    rewrite (bind_ok _ _ _ _ _ (addLayer_run lo m1 Ho S1 eq_refl)).
    set (m2 := with_layers (layers m1 ++ [lo]) m1).
    assert (L2 : has_layer (id ll) m2 = false).
    { unfold has_layer, m2, m1, with_layers, with_sources in *. cbn [layers id lo ll] in *.
      rewrite existsb_app, Hl. cbn [existsb]. unfold lo. cbn [id].
      now rewrite (proj1 (seg_outline_line idx idx)). }
    rewrite (bind_ok _ _ _ _ _ (addLayer_run ll m2 L2 S1 eq_refl)).
    rewrite IH.
    + cbn [m2 m1 lo ll with_layers with_sources sources layers error_events
           glyphs seg_sources seg_layers].
      unfold m2, m1, with_layers, with_sources;
        cbn [sources layers error_events glyphs].
      now rewrite <- !app_assoc.
    + intros j Hj. destruct (Hf j ltac:(lia)) as (Hs' & Ho' & Hl').
      destruct (seg_ids_distinct j idx ltac:(lia)) as (Ds & _ & _).
      destruct (seg_ids_distinct idx j ltac:(lia)) as (_ & Do & Dl).
      destruct (seg_outline_line idx j) as [Dol Dlo].
      unfold has_source, has_layer, m2, m1, with_layers, with_sources in *.
      cbn [sources layers] in *.
      rewrite !existsb_app, Hs', Ho', Hl'. cbn [existsb]. unfold lo, ll. cbn [id].
      now rewrite Ds, Do, Dl, Dol, Dlo.
Qed.

Lemma clear_seg_free m : seg_free 0 (clear Congestion m).
Proof.
  intros j _. destruct (seg_ids_prefixed j) as (Ps & Po & Pl).
  unfold has_source, has_layer, clear. cbn [sources layers].
  repeat split.
  - erewrite existsb_ext; [apply existsb_filter_none|intros x; apply String.eqb_sym].
    intros x E. apply String.eqb_eq in E as ->. cbn [on_source_id]. now rewrite Ps.
  - apply existsb_filter_none. intros x E. apply String.eqb_eq in E.
    unfold on_layer. rewrite E. cbn [on_layer_id]. now rewrite Po.
  - apply existsb_filter_none. intros x E. apply String.eqb_eq in E.
    unfold on_layer. rewrite E. cbn [on_layer_id]. now rewrite Pl.
Qed.

(** Line layers need no glyphs: every style accepts them. *)
Lemma accepted_lines g ls :
  forallb (fun l => negb (needs_glyphs l)) ls = true ->
  accepted g ls = ls /\ refused g ls = 0%nat.
Proof.
  intros H. unfold accepted, refused. split.
  - apply forallb_filter_id. apply forallb_forall. intros l Hl.
    rewrite (proj1 (forallb_forall _ _) H l Hl). apply orb_true_r.
  - rewrite filter_none; [reflexivity|]. intros l Hl.
    rewrite (proj1 (forallb_forall _ _) H l Hl). now rewrite orb_true_r.
Qed.

Lemma seg_layers_lines n : forall from,
  forallb (fun l => negb (needs_glyphs l)) (seg_layers from n) = true.
Proof. induction n as [|n IH]; intros from; cbn; [reflexivity|apply IH]. Qed.

Lemma addCongestionLayers_run r m :
  well_formed m ->
  addCongestionLayers r m =
  Ok (tt, refresh Congestion (new_sources Congestion r) (new_layers Congestion r) m).
Proof.
  intros Hwf. unfold addCongestionLayers.
  unfold bind at 1, getStyleLayers at 1.
  rewrite (bind_ok _ _ _ _ _ (remove_seg_layers (layers m) [] m eq_refl (wf_layers m Hwf))).
  unfold bind at 1, getStyleSources at 1.
  erewrite bind_ok.
  2:{ apply (remove_seg_sources _ [] _ eq_refl).
      - exact (wf_sources m Hwf).
      - intros s Hs. exact (cleared_not_in_use Congestion s m Hwf Hs). }
  cbn [app new_sources new_layers].
  match goal with |- _ ?m2 = _ => change m2 with (clear Congestion m) end.
  destruct (congestionSegmentsRef r) as [|seg segs] eqn:E; cbn [is_empty].
  - cbn [List.length seg_sources seg_layers]. now rewrite refresh_nil.
  - change (forEach_from 0 (seg :: segs) _)
      with (forEach_from 0 (seg :: segs) add_segment).
    rewrite (add_segments _ 0 _ (clear_seg_free m)).
    unfold refresh.
    destruct (accepted_lines (glyphs m) _
                (seg_layers_lines (List.length (seg :: segs)) 0)) as [-> ->].
    now rewrite Nat.add_0_r.
Qed.

(** *** Well-formedness is kept *)

Lemma NoDup_map_filter {A B} (g : A -> B) (p : A -> bool) (l : list A) :
  NoDup (map g l) -> NoDup (map g (filter p l)).
Proof.
  induction l as [|x l IH]; cbn; intros N; [constructor|].
  apply NoDup_cons_iff in N as [Nx N].
  destruct (p x); cbn; [constructor|]; auto.
  intros H. apply Nx. apply in_map_iff in H as (y & <- & Hy).
  apply filter_In in Hy as [Hy _]. now apply in_map.
Qed.

Lemma NoDup_append {A} (l1 l2 : list A) :
  NoDup l1 -> NoDup l2 -> (forall a, In a l1 -> In a l2 -> False) ->
  NoDup (l1 ++ l2).
Proof.
  induction l1 as [|x l1 IH]; cbn; intros N1 N2 D; [exact N2|].
  apply NoDup_cons_iff in N1 as [Nx N1]. constructor.
  - intros H. apply in_app_or in H as [H|H]; [contradiction|]. eapply D; eauto.
  - apply IH; auto. intros a H1 H2. eapply D; eauto.
Qed.

Lemma forallb_filter_keep {A} (f p : A -> bool) (l : list A) :
  forallb f l = true -> forallb f (filter p l) = true.
Proof.
  induction l as [|x l IH]; cbn; [auto|]. intros H.
  apply andb_prop in H as [Hx H]. destruct (p x); cbn; [rewrite Hx|]; auto.
Qed.

Lemma refresh_wf c ss ls m :
  well_formed m ->
  NoDup ss -> (forall s, In s ss -> on_source_id c s = true) ->
  NoDup (map id ls) -> (forall l, In l ls -> on_layer c l = true) ->
  forallb owned ls = true ->
  well_formed (refresh c ss ls m).
Proof.
  intros [Wl Ws Wo] Ns Hs Nl Hl Ho. constructor; cbn [refresh clear layers sources].
  - rewrite map_app.
    apply NoDup_append;
      [now apply NoDup_map_filter|unfold accepted; now apply NoDup_map_filter|].
    intros a H1 H2.
    apply in_map_iff in H1 as (x & <- & Hx). apply filter_In in Hx as [_ Hx].
    apply in_map_iff in H2 as (y & E & Hy).
    apply filter_In in Hy as [Hy _]. apply Hl in Hy.
    unfold on_layer in *. rewrite E in Hy. rewrite Hy in Hx. discriminate.
  - apply NoDup_append; [now apply NoDup_filter|exact Ns|].
    intros a H1 H2. apply filter_In in H1 as [_ H1]. rewrite (Hs a H2) in H1.
    discriminate.
  - rewrite forallb_app. apply andb_true_intro. split.
    + now apply forallb_filter_keep.
    + unfold accepted. now apply forallb_filter_keep.
Qed.

(** The identifiers of different channels never meet. *)
Lemma layer_ids_disjoint c c' i :
  on_layer_id c i = true -> on_layer_id c' i = true -> c = c'.
Proof.
  intros H H'.
  destruct c, c'; try reflexivity; exfalso;
    unfold on_layer_id, mem in *; cbn [existsb] in *;
    repeat match goal with
           | H : (_ || _)%bool = true |- _ => apply orb_prop in H as [H|H]
           | H : false = true |- _ => discriminate H
           | H : String.eqb ?i _ = true |- _ =>
               apply String.eqb_eq in H; subst i
           end;
    discriminate.
Qed.

Lemma source_ids_disjoint c c' i :
  on_source_id c i = true -> on_source_id c' i = true -> c = c'.
Proof.
  intros H H'.
  destruct c, c'; try reflexivity; exfalso;
    unfold on_source_id in *;
    repeat match goal with
           | H : String.eqb ?i _ = true |- _ =>
               apply String.eqb_eq in H; subst i
           end;
    discriminate.
Qed.

Lemma seg_layers_spec n : forall from l,
  In l (seg_layers from n) ->
  exists j, (from <= j < from + n)%nat /\
    (l = {| id := seg_outline_id j; type := line; source := seg_source_id j |} \/
     l = {| id := seg_line_id j; type := line; source := seg_source_id j |}).
Proof.
  induction n as [|n IH]; intros from l H; cbn in H; [contradiction|].
  destruct H as [<-|[<-|H]].
  - exists from. split; [lia|now left].
  - exists from. split; [lia|now right].
  - destruct (IH _ _ H) as (j & Hj & Hl). exists j. split; [lia|exact Hl].
Qed.

Lemma seg_sources_spec n : forall from s,
  In s (seg_sources from n) ->
  exists j, (from <= j < from + n)%nat /\ s = seg_source_id j.
Proof.
  induction n as [|n IH]; intros from s H; cbn in H; [contradiction|].
  destruct H as [<-|H].
  - exists from. split; [lia|reflexivity].
  - destruct (IH _ _ H) as (j & Hj & Hl). exists j. split; [lia|exact Hl].
Qed.

Lemma seg_layers_NoDup n : forall from, NoDup (map id (seg_layers from n)).
Proof.
  induction n as [|n IH]; intros from; cbn; [constructor|].
  constructor; [|constructor; [|apply IH]].
  - intros [E|H].
    + pose proof (proj2 (seg_outline_line from from)) as D.
      apply String.eqb_neq in D. now apply D.
    + apply in_map_iff in H as (l & E & H).
      apply seg_layers_spec in H as (j & Hj & [->| ->]); cbn [id] in E.
      * destruct (seg_ids_distinct j from ltac:(lia)) as (_ & D & _).
        apply String.eqb_neq in D. now apply D.
      * pose proof (proj2 (seg_outline_line j from)) as D.
        apply String.eqb_neq in D. now apply D.
  - intros H. apply in_map_iff in H as (l & E & H).
    apply seg_layers_spec in H as (j & Hj & [->| ->]); cbn [id] in E.
    + pose proof (proj1 (seg_outline_line j from)) as D.
      apply String.eqb_neq in D. now apply D.
    + destruct (seg_ids_distinct j from ltac:(lia)) as (_ & _ & D).
      apply String.eqb_neq in D. now apply D.
Qed.

Lemma seg_sources_NoDup n : forall from, NoDup (seg_sources from n).
Proof.
  induction n as [|n IH]; intros from; cbn; [constructor|].
  constructor; [|apply IH].
  intros H. apply seg_sources_spec in H as (j & Hj & E).
  destruct (seg_ids_distinct from j ltac:(lia)) as (D & _).
  apply String.eqb_neq in D. now apply D.
Qed.

(** What a channel puts on the map lies within its own namespace. *)
Lemma new_items_ok c r :
  NoDup (new_sources c r) /\
  (forall s, In s (new_sources c r) -> on_source_id c s = true) /\
  NoDup (map id (new_layers c r)) /\
  (forall l, In l (new_layers c r) -> on_layer c l = true) /\
  forallb owned (new_layers c r) = true.
Proof.
  destruct c; cbn [new_sources new_layers];
    try (match goal with
         | |- context [is_empty ?x] => destruct (is_empty x)
         end;
         repeat split; try (repeat constructor; cbn; intuition discriminate);
         intros x H; cbn in H; intuition (subst; reflexivity)).
  - destruct (routeGeomRef r), (is_empty (congestionSegmentsRef r));
      repeat split; try (repeat constructor; cbn; intuition discriminate);
      intros x H; cbn in H; intuition (subst; reflexivity).
  - repeat split.
    + apply seg_sources_NoDup.
    + intros s H. apply seg_sources_spec in H as (j & _ & ->).
      apply seg_ids_prefixed.
    + apply seg_layers_NoDup.
    + intros l H. apply seg_layers_spec in H as (j & _ & [->| ->]); reflexivity.
    + apply forallb_forall. intros l H.
      apply seg_layers_spec in H as (j & _ & [->| ->]); reflexivity.
Qed.

(** *** Sequences of channel rebuilds *)

Lemma rebuild_channel_run c r m :
  well_formed m ->
  rebuild_channel c r m = Ok (tt, after c r m) /\ well_formed (after c r m).
Proof.
  intros Hwf. split.
  - unfold after. destruct c; cbn [rebuild_channel touched];
      [rewrite addRouteLayers_run by assumption; now destruct (routeGeomRef r)
      |now apply addCongestionLayers_run
      |now apply addSampleLayers_run
      |now apply addTollLayers_run
      |now apply addAccidentLayers_run
      |now apply addTrafficLightLayers_run].
  - unfold after. destruct (touched r c); [|exact Hwf].
    destruct (new_items_ok c r) as (H1 & H2 & H3 & H4 & H5).
    now apply refresh_wf.
Qed.

Lemma run_channels_ok cs r : forall m,
  well_formed m ->
  run_channels cs r m = Ok (tt, after_all cs r m) /\
  well_formed (after_all cs r m).
Proof.
  unfold run_channels, after_all.
  induction cs as [|c cs IH]; intros m Hwf; cbn [forEach fold_left].
  - split; [reflexivity|exact Hwf].
  - destruct (rebuild_channel_run c r m Hwf) as [Hc Hw].
    rewrite (bind_ok _ _ _ _ _ Hc). now apply IH.
Qed.

Ltac run_all :=
  unfold bind, ret;
  repeat match goal with
         | |- context [match ?c ?m with Ok _ => _ | Throw _ => _ end] =>
             destruct (c m) as [[[] ?]|]; try reflexivity
         end.

Lemma rebuildLayers_channels r m :
  rebuildLayers r m = run_channels rebuild_order r m.
Proof.
  unfold rebuildLayers, run_channels, rebuild_order.
  cbn [forEach rebuild_channel]. run_all.
Qed.

Lemma effect_congestionSegments_channels r m :
  effect_congestionSegments r m = run_channels [Route; Congestion] r m.
Proof.
  unfold effect_congestionSegments, run_channels.
  cbn [forEach rebuild_channel]. run_all.
Qed.

Lemma effect_routeGeometry_channels p r m :
  routeGeometry p <> None ->
  effect_routeGeometry p r m =
  run_channels [Route; Congestion; Samples; Signals] r m.
Proof.
  unfold effect_routeGeometry, run_channels. intros H.
  destruct (routeGeometry p); [|contradiction].
  cbn [forEach rebuild_channel]. run_all.
Qed.

Lemma untouched_nothing r c :
  touched r c = false -> new_layers c r = [] /\ new_sources c r = [].
Proof.
  destruct c; cbn; try discriminate. now destruct (routeGeomRef r).
Qed.

Lemma new_layers_elsewhere cs r c :
  ~ In c cs ->
  filter (fun l => negb (on_layer c l)) (all_new_layers cs r) = all_new_layers cs r.
Proof.
  intros N. apply forallb_filter_id, forallb_forall. intros l H.
  unfold all_new_layers in H. apply in_concat in H as (ls & Hls & Hl).
  apply in_map_iff in Hls as (c' & <- & Hc').
  destruct (new_items_ok c' r) as (_ & _ & _ & Ho & _).
  destruct (on_layer c l) eqn:E; [|reflexivity]. exfalso. apply N.
  now rewrite (layer_ids_disjoint c c' (id l) E (Ho l Hl)).
Qed.

Lemma new_sources_elsewhere cs r c :
  ~ In c cs ->
  filter (fun s => negb (on_source_id c s)) (all_new_sources cs r)
  = all_new_sources cs r.
Proof.
  intros N. apply forallb_filter_id, forallb_forall. intros s H.
  unfold all_new_sources in H. apply in_concat in H as (ss & Hss & Hs).
  apply in_map_iff in Hss as (c' & <- & Hc').
  destruct (new_items_ok c' r) as (_ & Ho & _).
  destruct (on_source_id c s) eqn:E; [|reflexivity]. exfalso. apply N.
  now rewrite (source_ids_disjoint c c' s E (Ho s Hs)).
Qed.

Lemma after_all_snoc cs c r m :
  after_all (cs ++ [c]) r m = after c r (after_all cs r m).
Proof. unfold after_all. now rewrite fold_left_app. Qed.

Lemma accepted_filter g (f : Layer -> bool) ls :
  filter f (accepted g ls) = accepted g (filter f ls).
Proof.
  unfold accepted. rewrite !filter_and. apply filter_ext. intros l.
  apply andb_comm.
Qed.

Lemma after_glyphs c r m : glyphs (after c r m) = glyphs m.
Proof. unfold after. now destruct (touched r c). Qed.

Lemma after_all_glyphs cs r : forall m, glyphs (after_all cs r m) = glyphs m.
Proof.
  unfold after_all. induction cs as [|c cs IH]; intros m; cbn [fold_left];
    [reflexivity|].
  now rewrite IH, after_glyphs.
Qed.

(** The normal form of a sequence of rebuilds over distinct channels: what
    was on the map and belongs to no rebuilt channel stays, in its order,
    and above it come the new items the style accepts, in the order of the
    rebuilds; every refused layer has cost one error event. *)
Lemma after_all_normal cs r m :
  NoDup cs ->
  layers (after_all cs r m)
    = filter (kept r cs) (layers m) ++ accepted (glyphs m) (all_new_layers cs r) /\
  sources (after_all cs r m)
    = filter (kept_source r cs) (sources m) ++ all_new_sources cs r /\
  error_events (after_all cs r m)
    = (error_events m + refused (glyphs m) (all_new_layers cs r))%nat.
Proof.
  induction cs as [|c cs IH] using rev_ind; intros N.
  - cbn. unfold kept, kept_source. cbn.
    rewrite !app_nil_r, Nat.add_0_r.
    rewrite !forallb_filter_id; auto; now apply forallb_forall.
  - assert (Nc : ~ In c cs /\ NoDup cs).
    { apply NoDup_remove in N. rewrite app_nil_r in N. tauto. }
    destruct Nc as [Nc N']. destruct (IH N') as (IHl & IHs & IHe).
    rewrite after_all_snoc. unfold after, all_new_layers, all_new_sources.
    rewrite !map_app, !concat_app. cbn [map List.concat]. rewrite !app_nil_r.
    fold (all_new_layers cs r). fold (all_new_sources cs r).
    assert (Kl : forall b, filter (kept r (cs ++ [c])) (layers m)
                 = filter (fun l => kept r cs l && negb (b && on_layer c l)) (layers m)
                 \/ touched r c <> b).
    { intros b. destruct (Bool.bool_dec (touched r c) b) as [<-|]; [left|now right].
      apply filter_ext. intros l. unfold kept. rewrite existsb_app. cbn.
      now rewrite orb_false_r, negb_orb. }
    assert (Ks : forall b, filter (kept_source r (cs ++ [c])) (sources m)
                 = filter (fun s => kept_source r cs s && negb (b && on_source_id c s))
                          (sources m)
                 \/ touched r c <> b).
    { intros b. destruct (Bool.bool_dec (touched r c) b) as [<-|]; [left|now right].
      apply filter_ext. intros l. unfold kept_source. rewrite existsb_app. cbn.
      now rewrite orb_false_r, negb_orb. }
    rewrite accepted_app, refused_app.
    destruct (touched r c) eqn:T.
    + destruct (Kl true) as [-> |]; [|congruence].
      destruct (Ks true) as [-> |]; [|congruence].
      cbn [refresh clear layers sources error_events andb].
      rewrite after_all_glyphs.
      rewrite IHl, IHs, IHe, !filter_app, !filter_and, accepted_filter.
      rewrite (new_layers_elsewhere cs r c Nc), (new_sources_elsewhere cs r c Nc).
      now rewrite <- !app_assoc, Nat.add_assoc.
    + destruct (Kl false) as [-> |]; [|congruence].
      destruct (Ks false) as [-> |]; [|congruence].
      destruct (untouched_nothing r c T) as [-> ->].
      unfold accepted at 2, refused at 2. cbn [filter List.length].
      rewrite !app_nil_r, Nat.add_0_r.
      rewrite IHl, IHs, IHe. repeat split; f_equal; apply filter_ext;
        intros x; cbn; now rewrite andb_true_r.
Qed.

Lemma map_fields_eq (a b : Map) :
  layers a = layers b -> sources a = sources b -> glyphs a = glyphs b ->
  error_events a = error_events b -> a = b.
Proof. destruct a, b; cbn; now intros -> -> -> ->. Qed.

Lemma new_layers_not_kept cs r l :
  In l (all_new_layers cs r) -> kept r cs l = false.
Proof.
  unfold all_new_layers. intros H. apply in_concat in H as (ls & Hls & Hl).
  apply in_map_iff in Hls as (c & <- & Hc).
  destruct (new_items_ok c r) as (_ & _ & _ & Ho & _).
  unfold kept. apply negb_false_iff, existsb_exists. exists c. split; [exact Hc|].
  rewrite (Ho l Hl), andb_true_r.
  destruct (touched r c) eqn:T; [reflexivity|].
  destruct (untouched_nothing r c T) as [E _]. rewrite E in Hl. destruct Hl.
Qed.

Lemma new_sources_not_kept cs r s :
  In s (all_new_sources cs r) -> kept_source r cs s = false.
Proof.
  unfold all_new_sources. intros H. apply in_concat in H as (ss & Hss & Hs).
  apply in_map_iff in Hss as (c & <- & Hc).
  destruct (new_items_ok c r) as (_ & Ho & _).
  unfold kept_source. apply negb_false_iff, existsb_exists. exists c. split; [exact Hc|].
  rewrite (Ho s Hs), andb_true_r.
  destruct (touched r c) eqn:T; [reflexivity|].
  destruct (untouched_nothing r c T) as [_ E]. rewrite E in Hs. destruct Hs.
Qed.

Lemma filter_twice {A} (f : A -> bool) (l : list A) :
  filter f (filter f l) = filter f l.
Proof.
  rewrite filter_and. apply filter_ext. intros x. apply andb_diag.
Qed.

Lemma refused_glyphs ls : refused true ls = 0%nat.
Proof. unfold refused. cbn. now rewrite filter_none. Qed.

(** A sequence of rebuilds over distinct channels, run a second time with
    the same refs, reproduces the sources and the layers it produced; the
    layers the style refuses are refused again. *)
Lemma after_all_again cs r m :
  NoDup cs ->
  let m1 := after_all cs r m in
  let m2 := after_all cs r m1 in
  layers m2 = layers m1 /\ sources m2 = sources m1 /\ glyphs m2 = glyphs m1 /\
  error_events m2 = (error_events m1 + refused (glyphs m) (all_new_layers cs r))%nat.
Proof.
  intros N m1 m2.
  destruct (after_all_normal cs r m N) as (L1 & S1 & E1).
  destruct (after_all_normal cs r m1 N) as (L2 & S2 & E2).
  fold m2 in L2, S2, E2. fold m1 in L1, S1, E1.
  assert (G : glyphs m1 = glyphs m) by apply after_all_glyphs.
  rewrite G in *. repeat split.
  - rewrite L2, L1, filter_app, filter_twice. f_equal.
    rewrite accepted_filter, (filter_none (kept r cs) (all_new_layers cs r)).
    + now rewrite app_nil_r.
    + intros l. apply new_layers_not_kept.
  - rewrite S2, S1, filter_app, filter_twice.
    rewrite (filter_none (kept_source r cs) (all_new_sources cs r));
      [now rewrite app_nil_r|].
    intros s. apply new_sources_not_kept.
  - subst m2. now rewrite after_all_glyphs.
  - exact E2.
Qed.

Lemma after_all_idempotent cs r m :
  NoDup cs -> glyphs m = true ->
  after_all cs r (after_all cs r m) = after_all cs r m.
Proof.
  intros N G. destruct (after_all_again cs r m N) as (L & S & Gl & E).
  apply map_fields_eq; try assumption.
  rewrite E, G, refused_glyphs. apply Nat.add_0_r.
Qed.

Lemma rebuild_order_NoDup : NoDup rebuild_order.
Proof. repeat constructor; cbn; intuition discriminate. Qed.

(** C5. From a map surface that honours the channel namespace, the full
    rebuild succeeds, and running it again with the same refs leaves the
    same sources and the same layers in the same order, with no identifier
    twice.  On a style with glyphs the second run reproduces the very same
    map, and neither run fires an error event. *)
Theorem C5_rebuild_idempotent r m :
  well_formed m ->
  exists m1 m2,
    rebuildLayers r m = Ok (tt, m1) /\
    rebuildLayers r m1 = Ok (tt, m2) /\
    sources m2 = sources m1 /\ layers m2 = layers m1 /\
    NoDup (map id (layers m1)) /\ NoDup (sources m1) /\
    (glyphs m = true -> m2 = m1 /\ error_events m1 = error_events m).
Proof.
  intros Hwf.
  exists (after_all rebuild_order r m),
         (after_all rebuild_order r (after_all rebuild_order r m)).
  destruct (run_channels_ok rebuild_order r m Hwf) as [H1 W1].
  destruct (run_channels_ok rebuild_order r _ W1) as [H2 _].
  destruct (after_all_again rebuild_order r m rebuild_order_NoDup) as (L & S & _).
  rewrite !rebuildLayers_channels.
  split; [exact H1|]. split; [exact H2|]. split; [exact S|]. split; [exact L|].
  split; [apply W1|]. split; [apply W1|].
  intros G. split; [apply after_all_idempotent; [exact rebuild_order_NoDup|exact G]|].
  destruct (after_all_normal _ r m rebuild_order_NoDup) as (_ & _ & E).
  rewrite E, G, refused_glyphs. apply Nat.add_0_r.
Qed.

Lemma empty_map_wf : well_formed empty_map.
Proof. constructor; [constructor|constructor|reflexivity]. Qed.

Lemma raster_style_wf : well_formed Session.raster_style.
Proof.
  constructor; [|repeat constructor; cbn; intuition discriminate|reflexivity].
  repeat constructor; cbn; intuition discriminate.
Qed.

Lemma C5_witness :
  exists m1 m2,
    rebuildLayers sample_refs Session.raster_style = Ok (tt, m1) /\
    rebuildLayers sample_refs m1 = Ok (tt, m2) /\
    sources m2 = sources m1 /\ layers m2 = layers m1 /\
    map id (layers m1) =
      ["raster-layer"; "route-outline";
       "congestion-seg-outline-0"; "congestion-seg-line-0";
       "congestion-seg-outline-1"; "congestion-seg-line-1";
       "samples-circles-stroke"; "samples-circles"; "toll-circles"]%string.
Proof.
  destruct (C5_rebuild_idempotent sample_refs Session.raster_style raster_style_wf)
    as (m1 & m2 & H1 & H2 & S & L & _).
  exists m1, m2. split; [exact H1|]. split; [exact H2|].
  split; [exact S|]. split; [exact L|].
  assert (E : Ok (tt, m1) =
              rebuildLayers sample_refs Session.raster_style) by now rewrite H1.
  vm_compute in E. injection E as ->. reflexivity.
Defined.

(** *** What a rebuild leaves on one channel *)

Lemma Channel_eq_dec (a b : Channel) : {a = b} + {a <> b}.
Proof. decide equality. Qed.

Lemma channel_after_same c r m :
  touched r c = true ->
  channel_layers c (after c r m) = accepted (glyphs m) (new_layers c r) /\
  channel_sources c (after c r m) = new_sources c r.
Proof.
  intros T. unfold after, channel_layers, channel_sources. rewrite T.
  destruct (new_items_ok c r) as (_ & Hs & _ & Hl & _).
  cbn [refresh clear layers sources]. rewrite !filter_app, !filter_and. split.
  - rewrite filter_none by (intros x _; apply andb_negb_l).
    cbn [app]. apply forallb_filter_id, forallb_forall.
    intros l Hin. apply filter_In in Hin as [Hin _]. now apply Hl.
  - rewrite filter_none by (intros x _; apply andb_negb_l).
    cbn [app]. apply forallb_filter_id, forallb_forall, Hs.
Qed.

Lemma channel_after_other c c' r m :
  c <> c' ->
  channel_layers c (after c' r m) = channel_layers c m /\
  channel_sources c (after c' r m) = channel_sources c m.
Proof.
  intros N. unfold after, channel_layers, channel_sources.
  destruct (touched r c'); [|split; reflexivity].
  destruct (new_items_ok c' r) as (_ & Hs & _ & Hl & _).
  cbn [refresh clear layers sources]. rewrite !filter_app, !filter_and. split.
  - rewrite (filter_none (on_layer c) (accepted (glyphs m) (new_layers c' r))), app_nil_r.
    + apply filter_ext. intros l. destruct (on_layer c' l) eqn:E'; cbn; [|apply andb_true_l].
      destruct (on_layer c l) eqn:E; [|reflexivity].
      destruct (N (layer_ids_disjoint c c' (id l) E E')).
    + intros l Hin. apply filter_In in Hin as [Hin _].
      destruct (on_layer c l) eqn:E; [|reflexivity].
      destruct (N (layer_ids_disjoint c c' (id l) E (Hl l Hin))).
  - rewrite (filter_none (on_source_id c) (new_sources c' r)), app_nil_r.
    + apply filter_ext. intros s. destruct (on_source_id c' s) eqn:E'; cbn; [|apply andb_true_l].
      destruct (on_source_id c s) eqn:E; [|reflexivity].
      destruct (N (source_ids_disjoint c c' s E E')).
    + intros s Hin. destruct (on_source_id c s) eqn:E; [|reflexivity].
      destruct (N (source_ids_disjoint c c' s E (Hs s Hin))).
Qed.

Lemma channel_after_all_other c cs r : forall m,
  ~ In c cs ->
  channel_layers c (after_all cs r m) = channel_layers c m /\
  channel_sources c (after_all cs r m) = channel_sources c m.
Proof.
  unfold after_all.
  induction cs as [|c' cs IH]; intros m N; cbn [fold_left]; [now split|].
  destruct (IH (after c' r m)) as [Hl Hs]; [intros H; apply N; now right|].
  destruct (channel_after_other c c' r m) as [Hl' Hs'];
    [intros ->; apply N; now left|].
  split; congruence.
Qed.

(** Whatever else a sequence rebuilds, a channel it rebuilds ends with
    exactly the items of the current refs. *)
Lemma channel_after_all c cs r : forall m,
  In c cs -> touched r c = true ->
  channel_layers c (after_all cs r m) = accepted (glyphs m) (new_layers c r) /\
  channel_sources c (after_all cs r m) = new_sources c r.
Proof.
  induction cs as [|c' cs IH]; intros m Hin T; [destruct Hin|].
  change (after_all (c' :: cs) r m) with (after_all cs r (after c' r m)).
  destruct (in_dec Channel_eq_dec c cs) as [I|I];
    [rewrite <- (after_glyphs c' r m); now apply IH|].
  destruct Hin as [->|Hin]; [|contradiction].
  destruct (channel_after_all_other c cs r (after c r m) I) as [-> ->].
  now apply channel_after_same.
Qed.

Lemma on_result_channels res r m :
  snd (on_result res r) m = run_channels (reaction res) (fst (on_result res r)) m.
Proof.
  unfold on_result, reaction, run_channels, effect_routeGeometry,
    effect_samples, effect_tollPoints, effect_accidentPoints,
    effect_congestionSegments, effect_trafficLightPoints.
  cbn [fst snd].
  destruct (routeGeometry (props_of res));
    cbn [app forEach rebuild_channel]; run_all.
Qed.

Lemma seg_lengths n : forall from,
  List.length (seg_sources from n) = n /\
  List.length (seg_layers from n) = (2 * n)%nat.
Proof.
  induction n as [|n IH]; intros from; cbn [seg_sources seg_layers List.length];
    [split; reflexivity|].
  destruct (IH (S from)) as [-> ->]. split; lia.
Qed.

Lemma congestion_exact cs r m :
  well_formed m -> In Congestion cs ->
  exists m', run_channels cs r m = Ok (tt, m') /\
             congestion_exactly (List.length (congestionSegmentsRef r)) m'.
Proof.
  intros Hwf Hin. set (M := List.length (congestionSegmentsRef r)).
  destruct (run_channels_ok cs r m Hwf) as [H _].
  set (m2 := after_all cs r m) in *. exists m2. split; [exact H|].
  destruct (channel_after_all Congestion cs r m Hin eq_refl) as [Hl Hs].
  fold m2 in Hl, Hs. cbn [new_layers new_sources] in Hl, Hs. fold M in Hl, Hs.
  rewrite (proj1 (accepted_lines (glyphs m) _ (seg_layers_lines M 0))) in Hl.
  destruct (seg_lengths M 0) as [Ls Ll].
  unfold congestion_exactly. repeat split; try congruence.
  - destruct (has_source (seg_source_id j) m2) eqn:E; [|reflexivity].
    unfold has_source in E. apply existsb_exists in E as (s & Hs1 & Hs2).
    apply String.eqb_eq in Hs2. subst s.
    assert (I : In (seg_source_id j) (channel_sources Congestion m2)).
    { apply filter_In. split; [exact Hs1|apply seg_ids_prefixed]. }
    rewrite Hs in I. apply seg_sources_spec in I as (k & Hk & E).
    destruct (seg_ids_distinct j k ltac:(lia)) as (D & _).
    apply String.eqb_neq in D. contradiction.
  - destruct (has_layer (seg_outline_id j) m2) eqn:E; [|reflexivity].
    unfold has_layer in E. apply existsb_exists in E as (l & Hl1 & Hl2).
    apply String.eqb_eq in Hl2.
    assert (I : In l (channel_layers Congestion m2)).
    { apply filter_In. split; [exact Hl1|]. unfold on_layer. rewrite Hl2.
      apply seg_ids_prefixed. }
    rewrite Hl in I. apply seg_layers_spec in I as (k & Hk & [->| ->]);
      cbn [id] in Hl2.
    + destruct (seg_ids_distinct k j ltac:(lia)) as (_ & D & _).
      apply String.eqb_neq in D. contradiction.
    + pose proof (proj2 (seg_outline_line k j)) as D.
      apply String.eqb_neq in D. contradiction.
  - destruct (has_layer (seg_line_id j) m2) eqn:E; [|reflexivity].
    unfold has_layer in E. apply existsb_exists in E as (l & Hl1 & Hl2).
    apply String.eqb_eq in Hl2.
    assert (I : In l (channel_layers Congestion m2)).
    { apply filter_In. split; [exact Hl1|]. unfold on_layer. rewrite Hl2.
      apply seg_ids_prefixed. }
    rewrite Hl in I. apply seg_layers_spec in I as (k & Hk & [->| ->]);
      cbn [id] in Hl2.
    + pose proof (proj1 (seg_outline_line k j)) as D.
      apply String.eqb_neq in D. contradiction.
    + destruct (seg_ids_distinct k j ltac:(lia)) as (_ & _ & D).
      apply String.eqb_neq in D. contradiction.
Qed.

(** C4. Two results follow each other, the first with N congestion
    segments, the second with M.  After MapView has reacted to the second
    (all its data effects, or the effect of the congestion data alone, or a
    full rebuild), the congestion channel holds exactly the M sources
    [congestion-seg-0 .. congestion-seg-(M-1)], each with its outline and its
    line layer, and no other source or layer with the congestion prefix:
    nothing of index M or above survives. *)
Theorem C4_congestion_segments_replaced m0 r0 res1 res2 :
  well_formed m0 ->
  let r1 := fst (on_result (Some res1) r0) in
  let r2 := fst (on_result (Some res2) r1) in
  let M := List.length (or_empty (congestion_segments res2)) in
  exists m1,
    snd (on_result (Some res1) r0) m0 = Ok (tt, m1) /\
    (exists m2, snd (on_result (Some res2) r1) m1 = Ok (tt, m2) /\
                congestion_exactly M m2) /\
    (exists m2, effect_congestionSegments r2 m1 = Ok (tt, m2) /\
                congestion_exactly M m2) /\
    (exists m2, rebuildLayers r2 m1 = Ok (tt, m2) /\
                congestion_exactly M m2).
Proof.
  intros Hwf r1 r2 M.
  destruct (run_channels_ok (reaction (Some res1)) r1 m0 Hwf) as [H1 W1].
  exists (after_all (reaction (Some res1)) r1 m0).
  rewrite on_result_channels. split; [exact H1|].
  change M with (List.length (congestionSegmentsRef r2)).
  split; [|split].
  - rewrite on_result_channels. apply congestion_exact; [exact W1|].
    unfold reaction. apply in_or_app. right. cbn. tauto.
  - rewrite effect_congestionSegments_channels.
    apply congestion_exact; [exact W1|cbn; tauto].
  - rewrite rebuildLayers_channels.
    apply congestion_exact; [exact W1|cbn; tauto].
Qed.

Lemma C4_witness :
  exists m1,
    snd (on_result (Some two_segment_result) initial_refs) empty_map = Ok (tt, m1) /\
    exists m2,
      snd (on_result (Some one_segment_result)
             (fst (on_result (Some two_segment_result) initial_refs))) m1
      = Ok (tt, m2) /\
      channel_sources Congestion m2 = ["congestion-seg-0"%string] /\
      has_source "congestion-seg-1" m2 = false.
Proof.
  destruct (C4_congestion_segments_replaced empty_map initial_refs
              two_segment_result one_segment_result empty_map_wf)
    as (m1 & H1 & (m2 & H2 & Hs & _ & _ & _ & Hj) & _).
  exists m1. split; [exact H1|]. exists m2. repeat split; try assumption.
  apply (Hj 1%nat). cbn. lia.
Defined.

(** *** Channels without data *)

Lemma empty_channel_nothing c r :
  channel_empty c r = true -> new_layers c r = [] /\ new_sources c r = [].
Proof.
  destruct c; cbn [channel_empty new_layers new_sources];
    try (intros ->; split; reflexivity).
  - destruct (routeGeomRef r); [discriminate|split; reflexivity].
  - destruct (congestionSegmentsRef r); [split; reflexivity|discriminate].
Qed.

Lemma after_errors c r m :
  error_events (after c r m)
  = (error_events m + refused (glyphs m) (if touched r c then new_layers c r else []))%nat.
Proof.
  unfold after. destruct (touched r c); [reflexivity|].
  unfold refused. cbn. now rewrite Nat.add_0_r.
Qed.

Lemma has_layer_channel c i m :
  on_layer_id c i = true ->
  has_layer i m = existsb (fun l => String.eqb (id l) i) (channel_layers c m).
Proof.
  intros Hc. unfold has_layer, channel_layers.
  induction (layers m) as [|l ls IH]; cbn [existsb filter]; [reflexivity|].
  destruct (String.eqb_spec (id l) i) as [E|E].
  - unfold on_layer at 1. rewrite E, Hc. cbn [existsb].
    rewrite <- E, String.eqb_refl. reflexivity.
  - cbn [orb]. destruct (on_layer c l); cbn [existsb]; rewrite IH; [|reflexivity].
    apply String.eqb_neq in E. now rewrite E.
Qed.

Lemma has_source_channel c i m :
  on_source_id c i = true ->
  has_source i m = existsb (String.eqb i) (channel_sources c m).
Proof.
  intros Hc. unfold has_source, channel_sources.
  induction (sources m) as [|x xs IH]; cbn [existsb filter]; [reflexivity|].
  destruct (String.eqb_spec i x) as [E|E].
  - rewrite <- E, Hc. cbn [existsb]. now rewrite String.eqb_refl.
  - cbn [orb]. destruct (on_source_id c x); cbn [existsb]; rewrite IH; [|reflexivity].
    apply String.eqb_neq in E. now rewrite E.
Qed.

Lemma bind_ext {A B} (c c' : M A) (k k' : A -> M B) m :
  c m = c' m -> (forall a m', k a m' = k' a m') -> bind c k m = bind c' k' m.
Proof.
  intros Hc Hk. unfold bind. rewrite Hc.
  destruct (c' m) as [[a m1]|]; [apply Hk|reflexivity].
Qed.

Lemma run_channels_app a b r m :
  run_channels (a ++ b) r m
  = bind (run_channels a r) (fun _ => run_channels b r) m.
Proof.
  unfold run_channels. revert m.
  induction a as [|c a IH]; intros m; cbn [app forEach]; [reflexivity|].
  rewrite bind_assoc. apply bind_ext; [reflexivity|]. intros [] m'. apply IH.
Qed.

Lemma run_channels_nil r m : run_channels [] r m = Ok (tt, m).
Proof. reflexivity. Qed.

(** The effects due between two renders, as a sequence of channel
    rebuilds. *)
Lemma on_props_channels prev p r m :
  snd (on_props prev p r) m
  = run_channels (Session.due prev p) (fst (on_props prev p r)) m.
Proof.
  unfold on_props, Session.due. cbn [fst snd].
  set (r' := sync_changed prev p r).
  repeat (rewrite run_channels_app; apply bind_ext; [|intros [] ?]).
  - destruct (changed (routeGeometry prev) (routeGeometry p)); cbn [when].
    + unfold effect_routeGeometry. destruct (routeGeometry p) eqn:E; [|reflexivity].
      rewrite <- (effect_routeGeometry_channels p r' m) by congruence.
      unfold effect_routeGeometry. now rewrite E.
    + reflexivity.
  - destruct (changed (p_samples prev) (p_samples p)); cbn [when]; [|reflexivity].
    unfold effect_samples, run_channels. cbn [forEach rebuild_channel]. run_all.
  - destruct (changed (tollPoints prev) (tollPoints p)); cbn [when]; [|reflexivity].
    unfold effect_tollPoints, run_channels. cbn [forEach rebuild_channel]. run_all.
  - destruct (changed (accidentPoints prev) (accidentPoints p)); cbn [when];
      [|reflexivity].
    unfold effect_accidentPoints, run_channels. cbn [forEach rebuild_channel]. run_all.
  - destruct (changed (congestionSegments prev) (congestionSegments p)); cbn [when];
      [|reflexivity].
    apply effect_congestionSegments_channels.
  - destruct (changed (trafficLightPoints prev) (trafficLightPoints p)); cbn [when];
      [|reflexivity].
    unfold effect_trafficLightPoints, run_channels. cbn [forEach rebuild_channel].
    run_all.
Qed.

(** [on_result] is the render at which the dependency of every data effect
    changed: then the effects due are all six, and the refs are those of
    [sync_refs]. *)
Lemma on_props_all_changed prev res r :
  changed (routeGeometry prev) (routeGeometry (props_of res)) = true ->
  changed (p_samples prev) (p_samples (props_of res)) = true ->
  changed (tollPoints prev) (tollPoints (props_of res)) = true ->
  changed (accidentPoints prev) (accidentPoints (props_of res)) = true ->
  changed (congestionSegments prev) (congestionSegments (props_of res)) = true ->
  changed (trafficLightPoints prev) (trafficLightPoints (props_of res)) = true ->
  on_props prev (props_of res) r = on_result res r.
Proof.
  intros H1 H2 H3 H4 H5 H6. unfold on_props, on_result, sync_changed, sync_refs.
  now rewrite H1, H2, H3, H4, H5, H6.
Qed.

Lemma route_kept_layers (r : Refs) g :
  routeGeomRef r = Some g -> congestionSegmentsRef r = [] ->
  new_layers Route r =
    [{| id := "route-outline"; type := line; source := "route" |};
     {| id := "route-line"; type := line; source := "route" |}] /\
  new_sources Route r = ["route"%string].
Proof. intros Hg Hc. cbn [new_layers new_sources]. now rewrite Hg, Hc. Qed.

(** C8 (as stated) fails for the route channel.  A result with a geometry
    is shown; then the result is cleared ([setResult(null)]: every prop of
    MapView is absent, the geometry included).  A full rebuild on top of
    that (and likewise the rebuild of the route channel alone) leaves the
    route source and its two layers on the map. *)
Lemma C8_counterexample :
  let r1 := fst (on_result (Some geometry_result) initial_refs) in
  let r2 := sync_refs (props_of None) r1 in
  exists m1 m2 m3,
    snd (on_result (Some geometry_result) initial_refs) empty_map = Ok (tt, m1) /\
    routeGeometry (props_of None) = None /\
    rebuildLayers r2 m1 = Ok (tt, m2) /\
    addRouteLayers r2 m1 = Ok (tt, m3) /\
    map id (channel_layers Route m2) = ["route-outline"; "route-line"]%string /\
    channel_sources Route m2 = ["route"%string] /\
    channel_layers Route m2 <> [] /\
    map id (channel_layers Route m3) = ["route-outline"; "route-line"]%string.
Proof.
  cbv zeta. do 3 eexists.
  split; [vm_compute; reflexivity|]. split; [reflexivity|].
  split; [vm_compute; reflexivity|]. split; [vm_compute; reflexivity|].
  repeat split; discriminate.
Qed.

(** C8 (amended). For the congestion, samples, tolls, accidents and signals
    channels, rebuilding with empty or absent data leaves the channel with
    no layer and no source, and nothing is raised on its account: the
    channel's own function throws nothing and fires no error event, and so
    does the full rebuild on a style with glyphs (on a style without glyphs
    its only error events are the label layers of other channels that the
    style refuses).  The route channel is different.  Without a geometry in
    the ref [addRouteLayers] returns at once, raising nothing and removing
    nothing.  And the ref keeps the last geometry: once the result is cleared
    (every prop absent), the route channel's own function and the full
    rebuild put the route source and its two layers back, and the effects
    due at that render leave the route source and the outline on the map. *)
Theorem C8_absent_data r m :
  well_formed m ->
  (forall c, c <> Route -> channel_empty c r = true ->
     (exists m', rebuild_channel c r m = Ok (tt, m') /\
                 channel_layers c m' = [] /\ channel_sources c m' = [] /\
                 error_events m' = error_events m) /\
     (exists m', rebuildLayers r m = Ok (tt, m') /\
                 channel_layers c m' = [] /\ channel_sources c m' = [] /\
                 error_events m' =
                   (error_events m
                    + refused (glyphs m) (all_new_layers rebuild_order r))%nat /\
                 new_layers c r = [] /\
                 (glyphs m = true -> error_events m' = error_events m)))
  /\ (channel_empty Route r = true -> addRouteLayers r m = Ok (tt, m))
  /\ (forall r0 g,
        routeGeomRef r0 = Some g ->
        let r1 := sync_refs (props_of None) r0 in
        routeGeomRef r1 = Some g /\
        (exists m', addRouteLayers r1 m = Ok (tt, m') /\
                    map id (channel_layers Route m') =
                      ["route-outline"; "route-line"]%string /\
                    channel_sources Route m' = ["route"%string] /\
                    error_events m' = error_events m) /\
        (exists m', rebuildLayers r1 m = Ok (tt, m') /\
                    map id (channel_layers Route m') =
                      ["route-outline"; "route-line"]%string /\
                    channel_sources Route m' = ["route"%string]) /\
        (forall prev,
           has_layer "route-outline" m = true -> has_source "route" m = true ->
           exists m', snd (on_props prev (props_of None) r0) m = Ok (tt, m') /\
                      routeGeomRef (fst (on_props prev (props_of None) r0)) = Some g /\
                      has_layer "route-outline" m' = true /\
                      has_source "route" m' = true)).
Proof.
  intros Hwf. split; [|split].
  - intros c Hc He.
    assert (T : touched r c = true) by (destruct c; [contradiction|reflexivity..]).
    destruct (empty_channel_nothing c r He) as [El Es]. split.
    + exists (after c r m).
      destruct (rebuild_channel_run c r m Hwf) as [H _].
      destruct (channel_after_same c r m T) as [Hl Hs].
      split; [exact H|]. split; [now rewrite Hl, El|]. split; [now rewrite Hs, Es|].
      rewrite after_errors, T, El. unfold refused. cbn. apply Nat.add_0_r.
    + exists (after_all rebuild_order r m).
      destruct (run_channels_ok rebuild_order r m Hwf) as [H _].
      assert (I : In c rebuild_order) by (destruct c; cbn; tauto).
      destruct (channel_after_all c rebuild_order r m I T) as [Hl Hs].
      destruct (after_all_normal _ r m rebuild_order_NoDup) as (_ & _ & E).
      rewrite rebuildLayers_channels.
      split; [exact H|]. split; [now rewrite Hl, El|]. split; [now rewrite Hs, Es|].
      split; [exact E|]. split; [exact El|].
      intros G. rewrite E, G, refused_glyphs. apply Nat.add_0_r.
  - intros He. rewrite addRouteLayers_run by assumption.
    cbn in He. now destruct (routeGeomRef r).
  - intros r0 g Hg r1.
    assert (Hg1 : routeGeomRef r1 = Some g) by (subst r1; cbn; exact Hg).
    assert (Hc1 : congestionSegmentsRef r1 = []) by reflexivity.
    destruct (route_kept_layers r1 g Hg1 Hc1) as [Nl Ns].
    assert (T : touched r1 Route = true) by (unfold touched; now rewrite Hg1).
    split; [exact Hg1|]. split; [|split].
    + exists (after Route r1 m).
      destruct (rebuild_channel_run Route r1 m Hwf) as [H _].
      destruct (channel_after_same Route r1 m T) as [Hl Hs].
      split; [exact H|]. rewrite Hl, Hs, Nl, Ns, after_errors, T, Nl.
      destruct (accepted_lines (glyphs m)
                  [{| id := "route-outline"; type := line; source := "route" |};
                   {| id := "route-line"; type := line; source := "route" |}]
                  eq_refl) as [-> ->].
      rewrite Nat.add_0_r. repeat split.
    + exists (after_all rebuild_order r1 m).
      destruct (run_channels_ok rebuild_order r1 m Hwf) as [H _].
      destruct (channel_after_all Route rebuild_order r1 m (or_introl eq_refl) T)
        as [Hl Hs].
      rewrite rebuildLayers_channels. split; [exact H|].
      rewrite Hl, Hs, Nl, Ns. split; [now destruct (glyphs m)|reflexivity].
    + intros prev Ho Hsrc.
      set (r2 := fst (on_props prev (props_of None) r0)).
      assert (Hg2 : routeGeomRef r2 = Some g) by (subst r2; cbn; exact Hg).
      assert (T2 : touched r2 Route = true) by (unfold touched; now rewrite Hg2).
      destruct (run_channels_ok (Session.due prev (props_of None)) r2 m Hwf) as [H _].
      exists (after_all (Session.due prev (props_of None)) r2 m).
      rewrite on_props_channels. fold r2. split; [exact H|]. split; [exact Hg2|].
      rewrite (has_layer_channel Route "route-outline") by reflexivity.
      rewrite (has_source_channel Route "route") by reflexivity.
      rewrite (has_layer_channel Route "route-outline") in Ho by reflexivity.
      rewrite (has_source_channel Route "route") in Hsrc by reflexivity.
      destruct (in_dec Channel_eq_dec Route (Session.due prev (props_of None)))
        as [I|I].
      * destruct (channel_after_all Route _ r2 m I T2) as [-> ->].
        cbn [new_layers new_sources]. rewrite Hg2.
        split; [|reflexivity].
        destruct (glyphs m), (is_empty (congestionSegmentsRef r2)); reflexivity.
      * destruct (channel_after_all_other Route _ r2 m I) as [-> ->].
        split; assumption.
Qed.

Lemma map_with_tolls_wf : well_formed map_with_tolls.
Proof.
  constructor; [|repeat constructor; cbn; intuition discriminate|reflexivity].
  repeat constructor; cbn; intuition discriminate.
Qed.

Lemma C8_witness :
  exists m', addTollLayers initial_refs map_with_tolls = Ok (tt, m') /\
             channel_layers Tolls m' = [] /\ channel_sources Tolls m' = [] /\
             error_events m' = 0%nat.
Proof.
  destruct (C8_absent_data initial_refs map_with_tolls map_with_tolls_wf) as [H _].
  destruct (H Tolls ltac:(discriminate) eq_refl) as [H1 _]. exact H1.
Defined.

(** *** Draw order *)

Lemma below_none_hi lo hi ls :
  existsb hi ls = false -> below lo hi ls = true.
Proof.
  induction ls as [|l ls IH]; cbn; [reflexivity|]. intros H.
  apply orb_false_elim in H as [-> H]. cbn. now apply IH.
Qed.

Lemma below_none_lo lo hi ls :
  existsb lo ls = false -> below lo hi ls = true.
Proof.
  induction ls as [|l ls IH]; cbn; [reflexivity|]. intros H.
  apply orb_false_elim in H as [Hl H]. rewrite (IH H), andb_true_r.
  apply orb_true_iff. right. apply forallb_forall. intros x Hx.
  destruct (lo x) eqn:E; [|reflexivity].
  assert (existsb lo ls = true) by (apply existsb_exists; eauto). congruence.
Qed.

Lemma not_exists_forall {A} (f : A -> bool) (l : list A) :
  existsb f l = false -> forallb (fun x => negb (f x)) l = true.
Proof.
  induction l as [|x l IH]; cbn; [reflexivity|]. intros H.
  apply orb_false_elim in H as [-> H]. now rewrite IH.
Qed.

(** Layers of the upper kind only in the upper part, layers of the lower
    kind only in the lower part. *)
Lemma below_app lo hi X Y :
  below lo hi X = true -> below lo hi Y = true ->
  (existsb hi X = false \/ existsb lo Y = false) ->
  below lo hi (X ++ Y) = true.
Proof.
  intros HX HY D. induction X as [|x X IH]; cbn in *; [exact HY|].
  apply andb_prop in HX as [Hx HX].
  rewrite IH; [rewrite andb_true_r|exact HX|].
  - destruct (hi x) eqn:E; cbn in *; [|reflexivity].
    destruct D as [D|D]; [discriminate|].
    rewrite forallb_app, Hx. now apply not_exists_forall.
  - destruct D as [D|D]; [left|now right].
    now apply orb_false_elim in D.
Qed.

Lemma below_within c r :
  below (circles_of c) (labels_of c) (new_layers c r) = true.
Proof.
  destruct c; cbn [new_layers];
    try (match goal with |- context [is_empty ?x] => destruct (is_empty x) end;
         reflexivity).
  - destruct (routeGeomRef r), (is_empty (congestionSegmentsRef r)); reflexivity.
  - apply below_none_hi.
    destruct (existsb _ _) eqn:E; [|reflexivity].
    apply existsb_exists in E as (l & Hin & Hl).
    apply seg_layers_spec in Hin as (j & _ & [->| ->]);
      unfold labels_of, is_label in Hl; cbn [type] in Hl;
      now rewrite andb_false_r in Hl.
Qed.

Lemma all_new_layers_app cs1 cs2 r :
  all_new_layers (cs1 ++ cs2) r = all_new_layers cs1 r ++ all_new_layers cs2 r.
Proof. unfold all_new_layers. now rewrite map_app, concat_app. Qed.

Lemma in_all_new_layers cs r l :
  In l (all_new_layers cs r) -> exists c, In c cs /\ on_layer c l = true.
Proof.
  unfold all_new_layers. intros H. apply in_concat in H as (ls & Hls & Hl).
  apply in_map_iff in Hls as (c & <- & Hc). exists c. split; [exact Hc|].
  now apply (new_items_ok c r).
Qed.

(** After a sequence of rebuilds, the layers of the channels rebuilt last
    lie above everything that belongs to other channels. *)
Lemma below_across cs1 cs2 r L (lo hi : Layer -> bool) :
  NoDup (cs1 ++ cs2) ->
  (forall l, hi l = true ->
     exists c, In c cs2 /\ touched r c = true /\ on_layer c l = true) ->
  (forall l, lo l = true -> exists c, ~ In c cs2 /\ on_layer c l = true) ->
  below lo hi (filter (kept r (cs1 ++ cs2)) L ++ all_new_layers (cs1 ++ cs2) r)
  = true.
Proof.
  intros N Hhi Hlo. rewrite all_new_layers_app, app_assoc.
  assert (HX : existsb hi (filter (kept r (cs1 ++ cs2)) L ++ all_new_layers cs1 r)
               = false).
  { destruct (existsb _ _) eqn:E; [|reflexivity]. exfalso.
    apply existsb_exists in E as (l & Hin & Hl).
    destruct (Hhi l Hl) as (c & Hc & T & Ho).
    apply in_app_or in Hin as [Hin|Hin].
    - apply filter_In in Hin as [_ Hk]. unfold kept in Hk.
      apply negb_true_iff in Hk.
      assert (existsb (fun c => touched r c && on_layer c l) (cs1 ++ cs2) = true).
      { apply existsb_exists. exists c. split; [apply in_or_app; now right|].
        now rewrite T, Ho. }
      congruence.
    - apply in_all_new_layers in Hin as (c' & Hc' & Ho').
      rewrite (layer_ids_disjoint c c' (id l) Ho Ho') in Hc.
      clear - N Hc Hc'. induction cs1 as [|x cs1 IH]; [destruct Hc'|].
      cbn in N. apply NoDup_cons_iff in N as [Nx N].
      destruct Hc' as [->|Hc']; [|now apply IH].
      apply Nx, in_or_app. now right. }
  assert (HY : existsb lo (all_new_layers cs2 r) = false).
  { destruct (existsb lo (all_new_layers cs2 r)) eqn:E; [|reflexivity]. exfalso.
    apply existsb_exists in E as (l & Hin & Hl).
    destruct (Hlo l Hl) as (c & Hc & Ho).
    apply in_all_new_layers in Hin as (c' & Hc' & Ho').
    rewrite (layer_ids_disjoint c c' (id l) Ho Ho') in Hc. contradiction. }
  apply below_app; [now apply below_none_hi|now apply below_none_lo|now left].
Qed.

(** Within a rebuilt channel, the circles lie below the channel's label. *)
Lemma below_inside cs1 c cs2 r L :
  NoDup (cs1 ++ c :: cs2) -> touched r c = true ->
  below (circles_of c) (labels_of c)
    (filter (kept r (cs1 ++ c :: cs2)) L ++ all_new_layers (cs1 ++ c :: cs2) r)
  = true.
Proof.
  intros N T.
  assert (Nc : ~ In c (cs1 ++ cs2)) by now apply NoDup_remove_2 in N.
  change (c :: cs2) with ([c] ++ cs2).
  rewrite !all_new_layers_app.
  change (all_new_layers [c] r) with (new_layers c r ++ []).
  rewrite app_nil_r, app_assoc.
  assert (Hout : forall f ls,
            (forall l, In l ls -> on_layer c l = false) ->
            existsb (fun l => on_layer c l && f l) ls = false).
  { intros f ls H. destruct (existsb _ _) eqn:E; [|reflexivity].
    apply existsb_exists in E as (l & Hin & Hl). now rewrite (H l Hin) in Hl. }
  assert (Hnew : forall cs l, ~ In c cs -> In l (all_new_layers cs r) ->
                              on_layer c l = false).
  { intros cs l Hn Hin. apply in_all_new_layers in Hin as (c' & Hc' & Ho').
    destruct (on_layer c l) eqn:E; [|reflexivity].
    rewrite (layer_ids_disjoint c c' (id l) E Ho') in Hn. contradiction. }
  apply below_app.
  - apply below_none_hi, Hout. intros l Hin.
    apply in_app_or in Hin as [Hin|Hin].
    + apply filter_In in Hin as [_ Hk]. unfold kept in Hk.
      apply negb_true_iff in Hk. destruct (on_layer c l) eqn:E; [|reflexivity].
      assert (existsb (fun c => touched r c && on_layer c l) (cs1 ++ [c] ++ cs2) = true).
      { apply existsb_exists. exists c. split; [|now rewrite T, E].
        apply in_or_app. right. now left. }
      congruence.
    + apply (Hnew cs1); [|exact Hin]. intros H. apply Nc, in_or_app. now left.
  - apply below_app; [apply below_within| |right].
    + apply below_none_lo, Hout. intros l. apply Hnew.
      intros H. apply Nc, in_or_app. now right.
    + apply Hout. intros l. apply Hnew.
      intros H. apply Nc, in_or_app. now right.
  - left. apply Hout. intros l Hin.
    apply in_app_or in Hin as [Hin|Hin].
    + apply filter_In in Hin as [_ Hk]. unfold kept in Hk.
      apply negb_true_iff in Hk. destruct (on_layer c l) eqn:E; [|reflexivity].
      assert (existsb (fun c => touched r c && on_layer c l) (cs1 ++ [c] ++ cs2) = true).
      { apply existsb_exists. exists c. split; [|now rewrite T, E].
        apply in_or_app. right. now left. }
      congruence.
    + apply (Hnew cs1); [|exact Hin]. intros H. apply Nc, in_or_app. now left.
Qed.

(** C6 (as stated) fails.  With a route, two congestion segments, one
    weather sample and one toll: after the full rebuild the label layer of
    the samples lies below the circle layer of the tolls; after the rebuild
    triggered by the congestion data the route underlay and the congestion
    segments lie above the sample and toll layers; and so they do once
    MapView has reacted to the arrival of such a result. *)
Lemma C6_counterexample :
  exists m1 m2 m3,
    snd (on_result (Some full_result) initial_refs) empty_map = Ok (tt, m3) /\
    map id (layers m3) =
      ["samples-circles-stroke"; "samples-circles"; "samples-labels";
       "toll-circles"; "toll-labels";
       "route-outline"; "congestion-seg-outline-0"; "congestion-seg-line-0";
       "congestion-seg-outline-1"; "congestion-seg-line-1"]%string /\
    below (on_layer Route) is_point_channel (layers m3) = false /\
    rebuildLayers sample_refs empty_map = Ok (tt, m1) /\
    map id (layers m1) =
      ["route-outline"; "congestion-seg-outline-0"; "congestion-seg-line-0";
       "congestion-seg-outline-1"; "congestion-seg-line-1";
       "samples-circles-stroke"; "samples-circles"; "samples-labels";
       "toll-circles"; "toll-labels"]%string /\
    draw_order m1 = false /\
    effect_congestionSegments sample_refs m1 = Ok (tt, m2) /\
    map id (layers m2) =
      ["samples-circles-stroke"; "samples-circles"; "samples-labels";
       "toll-circles"; "toll-labels";
       "route-outline"; "congestion-seg-outline-0"; "congestion-seg-line-0";
       "congestion-seg-outline-1"; "congestion-seg-line-1"]%string /\
    below (on_layer Route) is_point_channel (layers m2) = false /\
    below (on_layer Congestion) is_point_channel (layers m2) = false /\
    draw_order m2 = false.
Proof.
  do 3 eexists.
  split; [vm_compute; reflexivity|]. split; [reflexivity|]. split; [reflexivity|].
  split; [vm_compute; reflexivity|]. split; [reflexivity|]. split; [reflexivity|].
  split; [vm_compute; reflexivity|]. repeat split.
Qed.

(** Leaving layers out of the upper part keeps the order. *)
Lemma below_filter_tail lo hi (p : Layer -> bool) X Y :
  below lo hi (X ++ Y) = true -> below lo hi (X ++ filter p Y) = true.
Proof.
  induction X as [|x X IH]; cbn [app below].
  - induction Y as [|y Y IHY]; cbn [filter below]; [reflexivity|].
    intros H. apply andb_prop in H as [H1 H2].
    destruct (p y); cbn [below]; [|now apply IHY].
    rewrite (IHY H2), andb_true_r.
    apply orb_prop in H1 as [H1|H1]; [now rewrite H1|].
    rewrite (forallb_filter_keep _ p Y H1). apply orb_true_r.
  - intros H. apply andb_prop in H as [H1 H2].
    rewrite (IH H2), andb_true_r.
    apply orb_prop in H1 as [H1|H1]; [now rewrite H1|].
    rewrite forallb_app in H1. apply andb_prop in H1 as [Ha Hb].
    rewrite forallb_app, Ha, (forallb_filter_keep _ p Y Hb). apply orb_true_r.
Qed.

Lemma point_channel_rebuilt r l :
  is_point_channel l = true ->
  exists c, In c [Samples; Tolls; Accidents; Signals] /\
            touched r c = true /\ on_layer c l = true.
Proof.
  unfold is_point_channel. intros H.
  apply orb_prop in H as [H|H]; [apply orb_prop in H as [H|H];
                                 [apply orb_prop in H as [H|H]|]|];
    [exists Samples|exists Tolls|exists Accidents|exists Signals];
    (split; [cbn; tauto|split; [reflexivity|exact H]]).
Qed.

Lemma lower_channel c cs l :
  ~ In c cs -> on_layer c l = true ->
  exists c', ~ In c' cs /\ on_layer c' l = true.
Proof. intros; exists c; auto. Qed.


(** C6 (amended). After every full rebuild the route underlay lies below
    the congestion segments, and both lie below every layer of the point
    channels (samples, tolls, accidents, signals); within each point channel
    the circles lie below that channel's label.  The rebuilds triggered by
    the congestion data, by the route geometry and by the arrival of a
    result also leave the route underlay below the congestion segments. *)
Theorem C6_draw_order r m :
  well_formed m ->
  (exists m', rebuildLayers r m = Ok (tt, m') /\
     below (on_layer Route) (on_layer Congestion) (layers m') = true /\
     below (on_layer Congestion) is_point_channel (layers m') = true /\
     below (on_layer Route) is_point_channel (layers m') = true /\
     (forall c, In c [Samples; Tolls; Accidents; Signals] ->
        below (circles_of c) (labels_of c) (layers m') = true))
  /\
  (exists m', effect_congestionSegments r m = Ok (tt, m') /\
     below (on_layer Route) (on_layer Congestion) (layers m') = true)
  /\
  (forall p, routeGeometry p <> None ->
     exists m', effect_routeGeometry p r m = Ok (tt, m') /\
       below (on_layer Route) (on_layer Congestion) (layers m') = true)
  /\
  (forall res r0,
     exists m', snd (on_result res r0) m = Ok (tt, m') /\
       below (on_layer Route) (on_layer Congestion) (layers m') = true).
Proof.
  intros Hwf.
  assert (N2 : NoDup [Route; Congestion])
    by (repeat constructor; cbn; intuition discriminate).
  assert (N4 : NoDup [Route; Congestion; Samples; Signals])
    by (repeat constructor; cbn; intuition discriminate).
  assert (RC : forall r m cs2, NoDup ([Route] ++ Congestion :: cs2) ->
            below (on_layer Route) (on_layer Congestion)
              (layers (after_all ([Route] ++ Congestion :: cs2) r m)) = true).
  { clear. intros r m cs2 N.
    destruct (after_all_normal _ r m N) as (-> & _).
    unfold accepted. apply below_filter_tail.
    apply below_across; [exact N| |].
    - intros l H. exists Congestion. repeat split; [now left|exact H].
    - intros l H. apply (lower_channel Route); [|exact H].
      intros I. apply NoDup_cons_iff in N as [N _]. exact (N I). }
  split; [|split; [|split]].
  - exists (after_all rebuild_order r m).
    destruct (run_channels_ok rebuild_order r m Hwf) as [H _].
    rewrite rebuildLayers_channels. split; [exact H|].
    split; [apply (RC r m [Samples; Tolls; Accidents; Signals]), rebuild_order_NoDup|].
    destruct (after_all_normal _ r m rebuild_order_NoDup) as (-> & _).
    unfold accepted.
    split; [|split].
    + apply below_filter_tail.
      apply (below_across [Route; Congestion] [Samples; Tolls; Accidents; Signals]);
        [exact rebuild_order_NoDup|apply point_channel_rebuilt|].
      intros l. apply lower_channel. cbn. intuition discriminate.
    + apply below_filter_tail.
      apply (below_across [Route; Congestion] [Samples; Tolls; Accidents; Signals]);
        [exact rebuild_order_NoDup|apply point_channel_rebuilt|].
      intros l. apply lower_channel. cbn. intuition discriminate.
    + intros c Hc. cbn in Hc.
      destruct Hc as [<-|[<-|[<-|[<-|[]]]]]; apply below_filter_tail.
      * apply (below_inside [Route; Congestion] Samples [Tolls; Accidents; Signals]);
          [exact rebuild_order_NoDup|reflexivity].
      * apply (below_inside [Route; Congestion; Samples] Tolls [Accidents; Signals]);
          [exact rebuild_order_NoDup|reflexivity].
      * apply (below_inside [Route; Congestion; Samples; Tolls] Accidents [Signals]);
          [exact rebuild_order_NoDup|reflexivity].
      * apply (below_inside [Route; Congestion; Samples; Tolls; Accidents] Signals []);
          [exact rebuild_order_NoDup|reflexivity].
  - exists (after_all [Route; Congestion] r m).
    destruct (run_channels_ok [Route; Congestion] r m Hwf) as [H _].
    rewrite effect_congestionSegments_channels. split; [exact H|].
    apply (RC r m []), N2.
  - intros p Hp. exists (after_all [Route; Congestion; Samples; Signals] r m).
    destruct (run_channels_ok [Route; Congestion; Samples; Signals] r m Hwf) as [H _].
    rewrite effect_routeGeometry_channels by exact Hp. split; [exact H|].
    apply (RC r m [Samples; Signals]), N4.
  - intros res r0.
    set (r' := fst (on_result res r0)).
    set (pre := match routeGeometry (props_of res) with
                | Some _ => [Route; Congestion; Samples; Signals]
                | None => []
                end ++ [Samples; Tolls; Accidents]).
    assert (E : reaction res = pre ++ [Route; Congestion; Signals])
      by (unfold reaction, pre; now rewrite <- app_assoc).
    destruct (run_channels_ok (reaction res) r' m Hwf) as [H _].
    exists (after_all (reaction res) r' m).
    rewrite on_result_channels. split; [exact H|].
    rewrite E. unfold after_all. rewrite fold_left_app.
    apply (RC r' _ [Signals]). repeat constructor; cbn; intuition discriminate.
Qed.

Lemma C6_witness :
  exists m', rebuildLayers sample_refs empty_map = Ok (tt, m') /\
    below (on_layer Route) (on_layer Congestion) (layers m') = true /\
    below (on_layer Congestion) is_point_channel (layers m') = true.
Proof.
  destruct (C6_draw_order sample_refs empty_map empty_map_wf)
    as [(m' & H & H1 & H2 & _) _].
  exists m'. auto.
Defined.

(* ------------------------------------------------------------------ *)
(** * Further properties *)
(* ------------------------------------------------------------------ *)

(** ** The countdown, second by second *)

Import More.

Lemma mod_succ t c :
  0 <= t -> 0 < c ->
  (t + 1) mod c = if t mod c + 1 <? c then t mod c + 1 else 0.
Proof.
  intros Ht Hc. pose proof (Z.mod_pos_bound t c Hc) as Hb.
  pose proof (Z.div_mod t c ltac:(lia)) as Hd.
  destruct (Z.ltb_spec (t mod c + 1) c).
  - symmetry. apply (Z.mod_unique _ _ (t / c)); lia.
  - symmetry. apply (Z.mod_unique _ _ (t / c + 1)); lia.
Qed.

(** X1. For a signal with non-negative durations and a positive cycle, the
    countdown runs down second by second: while more than one second
    remains, the next second shows the same phase with one second less; and
    after the last second of a phase, the next second shows a phase at its
    full duration. *)
Theorem X1_countdown_runs_down g y r t :
  0 <= g -> 0 <= y -> 0 <= r -> 0 < g + y + r -> 0 <= t ->
  exists k k',
    remaining (getPhaseAndRemaining g y r t) = Num k /\
    remaining (getPhaseAndRemaining g y r (t + 1)) = Num k' /\
    (1 < k ->
       phase (getPhaseAndRemaining g y r (t + 1)) = phase (getPhaseAndRemaining g y r t)
       /\ k' = k - 1) /\
    (k = 1 ->
       k' = duration_of g y r (phase (getPhaseAndRemaining g y r (t + 1)))).
Proof.
  intros Hg Hy Hr Hc Ht. unfold getPhaseAndRemaining.
  rewrite !js_rem_nonneg by lia. rewrite mod_succ by lia.
  pose proof (Z.mod_pos_bound t (g + y + r) Hc) as Hb.
  set (pos := t mod (g + y + r)) in *. cbn [js_lt js_sub].
  destruct (Z.ltb_spec (pos + 1) (g + y + r));
    destruct (Z.ltb_spec pos g); destruct (Z.ltb_spec pos (g + y));
    try lia;
    repeat match goal with
           | |- context [?a <? ?b] => destruct (Z.ltb_spec a b); try lia
           end;
    cbn [phase remaining duration_of];
    do 2 eexists; (split; [reflexivity|]); (split; [reflexivity|]);
    split; intros; try split; try reflexivity; try lia; try discriminate.
Qed.

Lemma X1_witness :
  exists k k',
    remaining (getPhaseAndRemaining 30 5 25 29) = Num k /\
    remaining (getPhaseAndRemaining 30 5 25 30) = Num k' /\ k = 1 /\ k' = 5.
Proof.
  destruct (X1_countdown_runs_down 30 5 25 29) as (k & k' & Hk & Hk' & _ & H1);
    try lia.
  exists k, k'. split; [exact Hk|]. split; [exact Hk'|].
  assert (E : k = 1) by (vm_compute in Hk; congruence).
  split; [exact E|]. rewrite (H1 E). reflexivity.
Defined.

(** ** The driver while it is active *)

Lemma ticks_one n : forall id s e p,
  intervals p = [{| interval_id := id; iv_signal := s; elapsed := e |}] ->
  let q := ticks n p in
  intervals q = [{| interval_id := id; iv_signal := s; elapsed := e + Z.of_nat n |}] /\
  emissions q =
    emissions p ++ map (fun i => as_pair (phase_of s (e + 1 + Z.of_nat i))) (seq 0 n) /\
  next_interval q = next_interval p /\
  (n <> 0%nat -> st_phase q = phase (phase_of s (e + Z.of_nat n)) /\
                 st_countdown q = remaining (phase_of s (e + Z.of_nat n))).
Proof.
  induction n as [|n IH]; intros id s e p E q; subst q.
  - cbn [ticks seq map]. rewrite Z.add_0_r, app_nil_r. rewrite E. now repeat split.
  - cbn [ticks].
    assert (T : intervals (tick p) =
                [{| interval_id := id; iv_signal := s; elapsed := e + 1 |}])
      by (unfold tick; rewrite E; reflexivity).
    destruct (IH id s (e + 1) (tick p) T) as (Hi & He & Hn & Hs).
    replace (e + Z.of_nat (S n)) with (e + 1 + Z.of_nat n) by lia.
    split; [exact Hi|]. split; [|split].
    + rewrite He. unfold tick at 1. rewrite E. cbn [map fire fst snd fold_left show emissions
        interval_id iv_signal elapsed].
      rewrite <- app_assoc. f_equal. cbn [app seq map]. rewrite Z.add_0_r. f_equal.
      rewrite <- seq_shift, map_map. apply map_ext. intros i. do 2 f_equal. lia.
    + rewrite Hn. unfold tick. rewrite E. reflexivity.
    + intros _. destruct n as [|n].
      * cbn [ticks]. rewrite Z.add_0_r. unfold tick. rewrite E. now cbn.
      * now apply Hs.
Qed.

Lemma activation_ticks p s u n :
  driver_inv p ->
  let off := startOffset u s in
  let q := ticks n (Phase.step p (Deps (Some s) true u)) in
  intervals q =
    [{| interval_id := next_interval p; iv_signal := s;
        elapsed := off + Z.of_nat n |}] /\
  st_phase q = phase (phase_of s (off + Z.of_nat n)) /\
  st_countdown q = remaining (phase_of s (off + Z.of_nat n)) /\
  emissions q =
    emissions p ++ map (fun i => as_pair (phase_of s (off + Z.of_nat i))) (seq 0 (S n)).
Proof.
  intros Hp off q.
  destruct (cleanup_stops _ Hp) as (Hi & Hn & He & _).
  set (p1 := Phase.step p (Deps (Some s) true u)) in *.
  assert (E1 : intervals p1 =
               [{| interval_id := next_interval p; iv_signal := s; elapsed := off |}])
    by (subst p1; cbn [Phase.step]; unfold effect; cbn; now rewrite Hi, Hn).
  assert (E2 : emissions p1 = emissions p ++ [as_pair (phase_of s off)])
    by (subst p1; cbn [Phase.step]; unfold effect; cbn; now rewrite He).
  assert (E3 : st_phase p1 = phase (phase_of s off) /\
               st_countdown p1 = remaining (phase_of s off))
    by (subst p1; cbn [Phase.step]; unfold effect; now cbn).
  destruct (ticks_one n _ _ _ _ E1) as (Ti & Te & _ & Ts). fold q in Ti, Te, Ts.
  split; [exact Ti|].
  assert (S : st_phase q = phase (phase_of s (off + Z.of_nat n)) /\
              st_countdown q = remaining (phase_of s (off + Z.of_nat n))).
  { destruct n as [|n]; [|now apply Ts].
    subst q. cbn [ticks]. now rewrite Z.add_0_r. }
  destruct S as [S1 S2]. split; [exact S1|]. split; [exact S2|].
  rewrite Te, E2, <- app_assoc. f_equal. cbn [seq map app]. rewrite Z.add_0_r.
  f_equal. rewrite <- seq_shift, map_map. apply map_ext. intros i. do 2 f_equal. lia.
Qed.

(** X2. Whatever the popup did before (including simulating another signal),
    once it is given a signal while visible and [n] seconds have passed,
    exactly one timer is alive; its elapsed counter is the random start
    offset plus [n]; the phase and the countdown on display are those of
    [getPhaseAndRemaining] at that instant; and since the activation the
    popup has published one value per second, the first at the offset. *)
Theorem X2_active_driver_tracks_time evs s u n :
  let p := Phase.run mount evs in
  let off := startOffset u s in
  let q := ticks n (Phase.step p (Deps (Some s) true u)) in
  intervals q =
    [{| interval_id := next_interval p; iv_signal := s;
        elapsed := off + Z.of_nat n |}] /\
  st_phase q = phase (phase_of s (off + Z.of_nat n)) /\
  st_countdown q = remaining (phase_of s (off + Z.of_nat n)) /\
  emissions q =
    emissions p ++ map (fun i => as_pair (phase_of s (off + Z.of_nat i))) (seq 0 (S n)).
Proof.
  intros p off q. apply activation_ticks. apply run_inv, mount_inv.
Qed.

Lemma run_snoc evs ev p : Phase.run p (evs ++ [ev]) = Phase.step (Phase.run p evs) ev.
Proof. unfold Phase.run. now rewrite fold_left_app. Qed.

Lemma current_signal_snoc evs ev :
  current_signal (evs ++ [ev]) =
  match ev with
  | Deps (Some s) true _ => Some s
  | Deps _ _ _ => None
  | Unmount => None
  | Tick => current_signal evs
  end.
Proof. unfold current_signal. now rewrite fold_left_app. Qed.

(** X3. In every state the popup can reach, the timers alive are exactly
    one for the signal being simulated while the popup is active (the last
    change of [signal] / [visible] gave a signal and [visible = true]), and
    none otherwise: changing the signal never leaves a second timer
    running. *)
Theorem X3_one_timer_while_active evs :
  map iv_signal (intervals (Phase.run mount evs)) =
  match current_signal evs with Some s => [s] | None => [] end.
Proof.
  induction evs as [|ev evs IH] using rev_ind; [reflexivity|].
  rewrite run_snoc, current_signal_snoc.
  pose proof (run_inv evs mount mount_inv) as Hinv.
  destruct (cleanup_stops _ Hinv) as (Hi & Hn & _).
  destruct ev as [[s|] [|] u| |]; cbn [Phase.step].
  - unfold effect; cbn. now rewrite Hi.
  - unfold effect; cbn. now rewrite clear_current_idle, Hi.
  - unfold effect; cbn. now rewrite clear_current_idle, Hi.
  - unfold effect; cbn. now rewrite clear_current_idle, Hi.
  - rewrite <- IH. unfold tick; cbn. rewrite !map_map. now apply map_ext.
  - now rewrite Hi.
Qed.

(** X4. A signal whose three durations sum to zero has no cycle: the
    remainder by zero is [NaN], both comparisons fail, and the popup shows
    red with a [NaN] countdown from the activation on, at every second. *)
Theorem X4_zero_cycle_shows_NaN evs s u n :
  totalCycle s = 0 ->
  let q := ticks n (Phase.step (Phase.run mount evs) (Deps (Some s) true u)) in
  st_phase q = red /\ st_countdown q = NaN.
Proof.
  intros Hc q.
  destruct (activation_ticks (Phase.run mount evs) s u n (run_inv evs mount mount_inv))
    as (_ & Hp & Hd & _).
  fold q in Hp, Hd. rewrite Hp, Hd.
  unfold phase_of, getPhaseAndRemaining. unfold totalCycle in Hc. rewrite Hc.
  now cbn.
Qed.

Lemma X4_witness :
  let s := {| tl_lat := 0; tl_lon := 0; osm_id := 7; tl_name := "B"%string;
              green_duration := 0; yellow_duration := 0; red_duration := 0 |} in
  st_countdown (ticks 2 (Phase.step mount (Deps (Some s) true (1 # 3)))) = NaN.
Proof.
  intros s. apply (X4_zero_cycle_shows_NaN [] s (1 # 3) 2 eq_refl).
Defined.

(** ** The poll loop against an arbitrary backend *)

(** X5. A transport error is not retried: if the first [k] fetches are
    answered [pending] or [processing] and fetch [k], still within the
    budget, is rejected, [pollRoute] rejects with that very error after
    exactly [k + 1] fetches and [k] waits. *)
Theorem X5_fetch_error_ends_polling backend interval maxAttempts net k e :
  (k < maxAttempts)%nat ->
  (forall j, (j < k)%nat -> keeps_polling backend (fetches net + j)) ->
  backend (fetches net + k)%nat = Rejected e ->
  pollRoute backend interval maxAttempts net =
    (Rejected e,
     {| fetches := fetches net + k + 1; slept := slept net ++ repeat interval k |}).
Proof.
  intros Hk Hp He. unfold pollRoute.
  rewrite (poll_loop_pending backend interval k) by (auto; lia).
  destruct (maxAttempts - k)%nat as [|left] eqn:E; [lia|].
  cbn [poll_loop getRouteResult fetches]. rewrite He.
  do 2 f_equal. lia.
Qed.

Lemma X5_witness :
  pollRoute failing_backend 1500 60 {| fetches := 0; slept := [] |} =
    (Rejected {| message := "Network Error"; detail := None |},
     {| fetches := 2; slept := [1500] |}).
Proof.
  apply (X5_fetch_error_ends_polling failing_backend 1500 60
           {| fetches := 0; slept := [] |} 1).
  - lia.
  - intros j Hj. assert (j = 0)%nat as -> by lia.
    exists processing_result. split; [reflexivity|now right].
  - reflexivity.
Defined.

Lemma not_final_keeps backend k r :
  backend k = Resolved r -> is_final (status r) = false -> keeps_polling backend k.
Proof.
  intros Hr Hf. exists r. split; [exact Hr|].
  destruct (status r); try discriminate Hf; auto.
Qed.

(** X6. Whatever the backend answers, [pollRoute] ends in one of three
    ways, after [k] fetches answered [pending] / [processing], each followed
    by one wait of [interval]: fetch [k] is answered [completed] or [failed]
    and that answer is returned; or fetch [k] is rejected and the rejection
    is passed on; or the budget is used up ([k = maxAttempts]) and the
    timeout error is thrown.  So a result that [pollRoute] returns is never
    [pending] or [processing], and it never issues more than [maxAttempts]
    fetches. *)
Theorem X6_pollRoute_outcomes backend interval maxAttempts net :
  let out := fst (pollRoute backend interval maxAttempts net) in
  let net' := snd (pollRoute backend interval maxAttempts net) in
  exists k,
    (k <= maxAttempts)%nat /\
    (forall j, (j < k)%nat -> keeps_polling backend (fetches net + j)) /\
    slept net' = slept net ++ repeat interval k /\
    (fetches net' <= fetches net + maxAttempts)%nat /\
    match out with
    | Resolved r =>
        (k < maxAttempts)%nat /\ backend (fetches net + k)%nat = Resolved r /\
        is_final (status r) = true /\ fetches net' = (fetches net + k + 1)%nat
    | Rejected e =>
        ((k < maxAttempts)%nat /\ backend (fetches net + k)%nat = Rejected e /\
         fetches net' = (fetches net + k + 1)%nat)
        \/ (k = maxAttempts /\ e = TimeoutError /\
            fetches net' = (fetches net + maxAttempts)%nat)
    end.
Proof.
  unfold pollRoute. revert net.
  induction maxAttempts as [|left IH]; intros net; cbn zeta.
  - exists 0%nat. cbn [poll_loop fst snd repeat]. rewrite app_nil_r, Nat.add_0_r.
    split; [lia|]. split; [intros j Hj; lia|]. split; [reflexivity|].
    split; [lia|]. right. auto.
  - cbn [poll_loop getRouteResult].
    destruct (backend (fetches net)) as [r|e] eqn:Hb.
    + destruct (is_final (status r)) eqn:Hf.
      * exists 0%nat. cbn [fst snd fetches slept repeat].
        rewrite app_nil_r, !Nat.add_0_r.
        split; [lia|]. split; [intros j Hj; lia|]. split; [reflexivity|].
        split; [lia|]. repeat split; auto; lia.
      * specialize (IH (sleep interval {| fetches := S (fetches net); slept := slept net |})).
        cbn zeta in IH. cbn [sleep fetches slept] in IH.
        destruct IH as (k & Hk & Hp & Hs & Hn & Ho).
        exists (S k). split; [lia|]. split; [|split; [|split]].
        -- intros [|j] Hj.
           ++ rewrite Nat.add_0_r. now apply not_final_keeps with (r := r).
           ++ replace (fetches net + S j)%nat with (S (fetches net) + j)%nat by lia.
              apply Hp. lia.
        -- cbn [sleep fetches slept]. rewrite Hs, <- app_assoc. reflexivity.
        -- cbn [sleep fetches slept]. lia.
        -- cbn [sleep fetches slept].
           replace (fetches net + S k)%nat with (S (fetches net) + k)%nat by lia.
           destruct (fst (poll_loop backend interval left _)) as [r'|e'].
           ++ destruct Ho as (? & ? & ? & ?). repeat split; auto; lia.
           ++ destruct Ho as [(? & ? & ?)|(? & ? & ?)]; [left|right];
                repeat split; auto; lia.
    + exists 0%nat. cbn [fst snd fetches slept repeat].
      rewrite app_nil_r, !Nat.add_0_r.
      split; [lia|]. split; [intros j Hj; lia|]. split; [reflexivity|].
      split; [lia|]. left. repeat split; auto; lia.
Qed.

(** ** [handleAnalyze] and [pollRoute] together *)

Lemma replies_run maxAttempts backend interval j : forall left i k sl s,
  nth_error (App.jobs s) j = Some (App.AwaitFetch i) ->
  (i + S left = maxAttempts)%nat ->
  App.requests s = S k ->
  App.run maxAttempts s (replies backend j k (S left)) =
  let p := poll_loop backend interval (S left) {| fetches := k; slept := sl |} in
  {| App.app := fold_left App.apply_emission (App.on_poll_settled (fst p)) (App.app s);
     App.jobs := App.set_nth j App.Finished (App.jobs s);
     App.log := App.log s ++ App.on_poll_settled (fst p);
     App.requests := fetches (snd p) |}.
Proof.
  assert (Hlen : forall (s : App.Sys) pc, nth_error (App.jobs s) j = Some pc ->
                   (j < List.length (App.jobs s))%nat).
  { intros s pc H. apply nth_error_Some. congruence. }
  unfold App.run.
  induction left as [|left IH]; intros i k sl s Hj Hi Hq; cbn zeta.
  - cbn [replies poll_loop getRouteResult fetches].
    destruct (backend k) as [r|e] eqn:Hb.
    + destruct (is_final (status r)) eqn:Hf.
      * cbn [fold_left App.step]. rewrite Hj, Hf. cbn [fst snd fetches].
        unfold App.emit, App.set_pc; cbn. now rewrite Hq.
      * cbn [fold_left App.step]. rewrite Hj, Hf.
        unfold App.set_pc at 1. cbn [App.jobs].
        rewrite nth_error_set_nth by (eapply Hlen; eauto).
        unfold App.enter_iteration.
        replace (S i <? maxAttempts)%nat with false
          by (symmetry; apply Nat.ltb_ge; lia).
        cbn [fst snd sleep fetches].
        unfold App.emit, App.set_pc; cbn. now rewrite set_nth_twice, Hq.
    + cbn [fold_left App.step]. rewrite Hj. cbn [fst snd fetches].
      unfold App.emit, App.set_pc; cbn. now rewrite Hq.
  - change (replies backend j k (S (S left)))
      with (App.FetchSettled j (backend k) ::
            match backend k with
            | Resolved r =>
                if is_final (status r) then []
                else App.SleepElapsed j :: replies backend j (S k) (S left)
            | Rejected _ => []
            end).
    change (poll_loop backend interval (S (S left)) {| fetches := k; slept := sl |})
      with (match backend k with
            | Rejected e => (Rejected e, {| fetches := S k; slept := sl |})
            | Resolved result =>
                if is_final (status result)
                then (Resolved result, {| fetches := S k; slept := sl |})
                else poll_loop backend interval (S left)
                       {| fetches := S k; slept := sl ++ [interval] |}
            end).
    destruct (backend k) as [r|e] eqn:Hb.
    + destruct (is_final (status r)) eqn:Hf.
      * cbn [fold_left App.step]. rewrite Hj, Hf. cbn [fst snd fetches].
        unfold App.emit, App.set_pc; cbn. now rewrite Hq.
      * cbn [fold_left App.step]. rewrite Hj, Hf.
        unfold App.set_pc at 1. cbn [App.jobs].
        rewrite nth_error_set_nth by (eapply Hlen; eauto).
        unfold App.enter_iteration.
        replace (S i <? maxAttempts)%nat with true
          by (symmetry; apply Nat.ltb_lt; lia).
        rewrite (IH (S i) (S k) (sl ++ [interval])).
        -- cbn zeta. unfold App.set_pc; cbn. now rewrite !set_nth_twice.
        -- unfold App.set_pc; cbn. apply nth_error_set_nth.
           rewrite set_nth_length. eapply Hlen; eauto.
        -- lia.
        -- unfold App.set_pc; cbn. now rewrite Hq.
    + cbn [fold_left App.step]. rewrite Hj. cbn [fst snd fetches].
      unfold App.emit, App.set_pc; cbn. now rewrite Hq.
Qed.

(** X7. [handleAnalyze] drives exactly the loop of [pollRoute]: started
    from the idle client and answered by any backend (the POST resolves,
    GET number [k] gets [backend k], every wait elapses), the invocation
    ends with [loading] cleared; it has called the setters with the reset
    [setLoading(true); setError(null); setResult(null)] followed by what
    [handleAnalyze] does with the outcome of [pollRoute] for that backend;
    and it has issued as many GETs as [pollRoute] does. *)
Theorem X7_handleAnalyze_runs_pollRoute backend interval maxAttempts rid :
  let p := pollRoute backend interval maxAttempts {| fetches := 0; slept := [] |} in
  let s := App.run maxAttempts App.initial
             ([App.AnalyzeClicked; App.CreateSettled 0 (Resolved rid)]
              ++ replies backend 0 0 maxAttempts) in
  App.log s = [App.SetLoading true; App.SetError None; App.SetResult None]
                ++ App.on_poll_settled (fst p) /\
  App.requests s = fetches (snd p) /\
  App.jobs s = [App.Finished] /\
  App.loading (App.app s) = false.
Proof.
  intros p s. subst p s. unfold pollRoute, App.run. rewrite fold_left_app.
  destruct maxAttempts as [|left].
  - cbn. auto.
  - cbn [fold_left App.step App.initial App.canAnalyze App.loading App.app negb
         App.handleAnalyze App.emit App.jobs app nth_error App.log App.requests
         App.enter_iteration Nat.ltb Nat.leb App.set_pc App.set_nth].
    pose proof (replies_run (S left) backend interval 0 left 0 0 []) as R.
    unfold App.run in R. rewrite R by (try reflexivity; lia).
    cbn zeta. cbn [App.log App.requests App.jobs App.app App.set_nth].
    split; [reflexivity|]. split; [reflexivity|]. split; [reflexivity|].
    destruct (fst (poll_loop backend interval (S left) _)) as [[? [] ? ? ? ? ? ? ?]|e];
      reflexivity.
Qed.

(** ** What the client shows *)

Lemma or_else_nonempty a b : b <> EmptyString -> App.or_else a b <> EmptyString.
Proof.
  intros Hb. unfold App.or_else. destruct a as [s|]; [|exact Hb].
  destruct (String.eqb_spec s EmptyString); [exact Hb|assumption].
Qed.

Lemma catch_message_nonempty e : App.catch_message e <> EmptyString.
Proof.
  unfold App.catch_message. apply or_else_nonempty, or_else_nonempty. discriminate.
Qed.

(** What the cells hold once an invocation has ended. *)
Lemma poll_settled_cells r a :
  let a' := fold_left App.apply_emission (App.on_poll_settled r) a in
  App.loading a' = false /\
  ((exists m, App.error_msg a' = Some m /\ m <> EmptyString /\
              App.result a' = App.result a)
   \/ (exists rr, r = Resolved rr /\ status rr <> failed /\
                  App.result a' = Some rr /\ App.error_msg a' = App.error_msg a)).
Proof.
  destruct r as [rr|e]; cbn zeta.
  - unfold App.on_poll_settled. destruct (status rr) eqn:Hs; cbn;
      (split; [reflexivity|]);
      try (right; exists rr; rewrite Hs; repeat split; auto; discriminate).
    left. eexists. split; [reflexivity|]. split; [|reflexivity].
    apply or_else_nonempty. discriminate.
  - cbn. split; [reflexivity|]. left. eexists. split; [reflexivity|].
    split; [apply catch_message_nonempty|reflexivity].
Qed.

Lemma step_cells maxAttempts s ev (P : App.AppState -> Prop) :
  P (App.app s) ->
  P (App.app (App.handleAnalyze s)) ->
  (forall r, (forall rr, r = Resolved rr -> is_final (status rr) = true) ->
     P (fold_left App.apply_emission (App.on_poll_settled r) (App.app s))) ->
  P (App.app (App.step maxAttempts s ev)).
Proof.
  intros H0 Hh Hf.
  assert (Hto : P (fold_left App.apply_emission
                     (App.on_poll_settled (Rejected TimeoutError)) (App.app s)))
    by (apply Hf; discriminate).
  assert (He : forall j i, P (App.app (App.enter_iteration maxAttempts j i s))).
  { intros j i. unfold App.enter_iteration. destruct (i <? maxAttempts)%nat; assumption. }
  destruct ev as [| |j r|j r|j]; cbn [App.step].
  - exact Hh.
  - destruct (App.canAnalyze s); assumption.
  - destruct (nth_error (App.jobs s) j) as [[| | |]|]; try exact H0.
    destruct r; [apply He|]. apply Hf. discriminate.
  - destruct (nth_error (App.jobs s) j) as [[|i|i|]|]; try exact H0.
    destruct r as [rr|e].
    + destruct (is_final (status rr)) eqn:F; [|exact H0].
      apply Hf. intros ? [= <-]. exact F.
    + apply Hf. discriminate.
  - destruct (nth_error (App.jobs s) j) as [[|i|i|]|]; try exact H0. apply He.
Qed.

(** X8. However analyses are started and whatever arrives, the result the
    client holds is always one whose status is [completed] ([pending],
    [processing] and [failed] results are never stored), and an error
    message it holds is never the empty string. *)
Theorem X8_only_completed_results maxAttempts evs :
  let a := App.app (App.run maxAttempts App.initial evs) in
  (forall r, App.result a = Some r -> status r = completed) /\
  (forall m, App.error_msg a = Some m -> m <> EmptyString).
Proof.
  cbn zeta. unfold App.run.
  set (P := fun a => (forall r, App.result a = Some r -> status r = completed) /\
                     (forall m, App.error_msg a = Some m -> m <> EmptyString)).
  assert (G : forall s, P (App.app s) ->
                P (App.app (fold_left (App.step maxAttempts) evs s))).
  { induction evs as [|ev evs IH]; intros s Hs; cbn [fold_left]; [exact Hs|].
    apply IH. apply step_cells; [exact Hs| |].
    - split; cbn; intros ? [=].
    - intros r Hfin. destruct Hs as [Hr Hm].
      destruct (poll_settled_cells r (App.app s)) as (_ & [(m & Em & Hne & Er)|(rr & -> & Hnf & Er & Em)]).
      + split.
        * intros r0 H. apply Hr. now rewrite <- Er.
        * intros m0 H. rewrite Em in H. now injection H as <-.
      + split.
        * intros r0 H. rewrite Er in H. injection H as <-.
          specialize (Hfin rr eq_refl). destruct (status rr); try discriminate; congruence.
        * intros m0 H. apply Hm. now rewrite <- Em. }
  apply G. split; cbn; intros ? [=].
Qed.

Lemma active_ge j pc (l : list App.Pc) :
  nth_error l j = Some pc -> App.active pc = true ->
  (1 <= List.length (filter App.active l))%nat.
Proof.
  revert j. induction l as [|h t IH]; intros [|j] H Ha; cbn in H; try discriminate.
  - injection H as ->. cbn [filter]. rewrite Ha. cbn. lia.
  - cbn [filter]. specialize (IH j H Ha). destruct (App.active h); cbn; lia.
Qed.

Lemma finish_cells r j old s :
  cells_inv s -> nth_error (App.jobs s) j = Some old -> App.active old = true ->
  cells_inv (App.emit (App.on_poll_settled r) (App.set_pc j App.Finished s)).
Proof.
  intros (H1 & H2 & H3) Hj Ha.
  split; [now apply finish_one_job with (old := old)|].
  assert (L : App.loading (App.app s) = true).
  { pose proof (active_ge j old _ Hj Ha) as G. unfold App.one_job, App.active_jobs in H1.
    destruct (App.loading (App.app s)); [reflexivity|lia]. }
  destruct (H2 L) as [E R].
  cbn [App.emit App.app App.set_pc].
  destruct (poll_settled_cells r (App.app s)) as (Hl & [(m & Em & _ & Er)|(rr & _ & _ & Er & Em)]).
  - split; [intros H; rewrite Hl in H; discriminate|]. right. now rewrite Er.
  - split; [intros H; rewrite Hl in H; discriminate|]. left. now rewrite Em.
Qed.

Lemma enter_cells maxAttempts j i old s :
  cells_inv s -> nth_error (App.jobs s) j = Some old -> App.active old = true ->
  cells_inv (App.enter_iteration maxAttempts j i s).
Proof.
  intros Hs Hj Ha. unfold App.enter_iteration.
  destruct (i <? maxAttempts)%nat.
  - destruct Hs as (H1 & H2 & H3). split; [|split; assumption].
    apply (move_one_job j old (App.AwaitFetch i) s H1 Hj Ha eq_refl).
  - now apply finish_cells with (old := old).
Qed.

Lemma step_cells_inv maxAttempts s ev :
  App.from_panel ev = true -> cells_inv s -> cells_inv (App.step maxAttempts s ev).
Proof.
  intros Hev Hs. destruct ev as [| |j r|j r|j]; try discriminate Hev;
    cbn [App.step].
  - unfold App.canAnalyze. destruct (App.loading (App.app s)) eqn:L; [exact Hs|].
    cbn [negb]. destruct Hs as (H1 & _). split; [|split; cbn; auto].
    unfold App.one_job, App.active_jobs in *. rewrite L in H1. cbn.
    rewrite filter_app, length_app, H1. reflexivity.
  - destruct (nth_error (App.jobs s) j) as [[| | |]|] eqn:Hj; try exact Hs.
    destruct r.
    + now apply enter_cells with (old := App.AwaitCreate).
    + now apply finish_cells with (old := App.AwaitCreate).
  - destruct (nth_error (App.jobs s) j) as [[|i|i|]|] eqn:Hj; try exact Hs.
    destruct r as [rr|e].
    + destruct (is_final (status rr)).
      * now apply finish_cells with (old := App.AwaitFetch i).
      * destruct Hs as (H1 & H2 & H3). split; [|split; assumption].
        now apply move_one_job with (old := App.AwaitFetch i).
    + now apply finish_cells with (old := App.AwaitFetch i).
  - destruct (nth_error (App.jobs s) j) as [[|i|i|]|] eqn:Hj; try exact Hs.
    now apply enter_cells with (old := App.AwaitSleep i).
Qed.

(** X9. Through the panel (analyses are started only by the button, which
    is disabled while [loading]), the three cells are never inconsistent:
    while [loading] is set both the error and the result are cleared, and
    the client never holds an error and a result at the same time. *)
Theorem X9_panel_cells_consistent maxAttempts evs :
  forallb App.from_panel evs = true ->
  let a := App.app (App.run maxAttempts App.initial evs) in
  (App.loading a = true -> App.error_msg a = None /\ App.result a = None) /\
  (App.error_msg a = None \/ App.result a = None).
Proof.
  intros Hev a.
  assert (H : cells_inv (App.run maxAttempts App.initial evs)).
  { unfold App.run.
    assert (G : forall s0, cells_inv s0 ->
                  cells_inv (fold_left (App.step maxAttempts) evs s0)).
    { induction evs as [|ev evs IH]; intros s0 H0; cbn [fold_left]; [exact H0|].
      cbn [forallb] in Hev. apply andb_prop in Hev as [He Hev].
      apply (IH Hev). now apply step_cells_inv. }
    apply G. split; [reflexivity|]. split; cbn; auto. }
  destruct H as (_ & H2 & H3). split; assumption.
Qed.

Lemma X9_witness :
  let a := App.app (App.run 60 App.initial
             [App.AnalyzeClicked; App.CreateSettled 0 (Resolved "a"%string);
              App.FetchSettled 0 (Resolved (completed_result "a"));
              App.AnalyzeClicked]) in
  App.loading a = true /\ App.error_msg a = None /\ App.result a = None.
Proof.
  cbv zeta. split; [reflexivity|].
  apply (X9_panel_cells_consistent 60
           [App.AnalyzeClicked; App.CreateSettled 0 (Resolved "a"%string);
            App.FetchSettled 0 (Resolved (completed_result "a"));
            App.AnalyzeClicked] eq_refl).
  reflexivity.
Defined.

Lemma count_loading_app b l1 l2 :
  count_loading b (l1 ++ l2) = (count_loading b l1 + count_loading b l2)%nat.
Proof. unfold count_loading. now rewrite filter_app, length_app. Qed.

Lemma count_loading_settled r :
  count_loading true (App.on_poll_settled r) = 0%nat /\
  count_loading false (App.on_poll_settled r) = 1%nat.
Proof.
  destruct r as [[? [] ? ? ? ? ? ? ?]|e]; split; reflexivity.
Qed.

Lemma finish_balanced r j old s :
  loading_balanced s -> nth_error (App.jobs s) j = Some old -> App.active old = true ->
  loading_balanced (App.emit (App.on_poll_settled r) (App.set_pc j App.Finished s)).
Proof.
  unfold loading_balanced, App.active_jobs. intros Hs Hj Ha.
  cbn [App.emit App.log App.jobs App.set_pc].
  rewrite !count_loading_app.
  destruct (count_loading_settled r) as [-> ->].
  pose proof (active_set_nth _ j old App.Finished Hj) as H.
  rewrite Ha in H. cbn [App.active] in H. lia.
Qed.

Lemma move_balanced j old new s :
  loading_balanced s -> nth_error (App.jobs s) j = Some old ->
  App.active old = true -> App.active new = true ->
  loading_balanced (App.set_pc j new s).
Proof.
  unfold loading_balanced, App.active_jobs. intros Hs Hj Ha Hn.
  cbn [App.set_pc App.jobs App.log].
  pose proof (active_set_nth _ j old new Hj) as H.
  rewrite Ha, Hn in H. lia.
Qed.

Lemma enter_balanced maxAttempts j i old s :
  loading_balanced s -> nth_error (App.jobs s) j = Some old -> App.active old = true ->
  loading_balanced (App.enter_iteration maxAttempts j i s).
Proof.
  intros Hs Hj Ha. unfold App.enter_iteration.
  destruct (i <? maxAttempts)%nat.
  - apply (move_balanced j old (App.AwaitFetch i) s Hs Hj Ha eq_refl).
  - now apply finish_balanced with (old := old).
Qed.

Lemma handleAnalyze_balanced s :
  loading_balanced s -> loading_balanced (App.handleAnalyze s).
Proof.
  unfold loading_balanced, App.active_jobs. intros Hs.
  unfold App.handleAnalyze, App.emit. cbn [App.log App.jobs].
  rewrite !count_loading_app, filter_app, length_app, Hs. cbn. lia.
Qed.

Lemma step_balanced maxAttempts s ev :
  loading_balanced s -> loading_balanced (App.step maxAttempts s ev).
Proof.
  intros Hs. destruct ev as [| |j r|j r|j]; cbn [App.step].
  - now apply handleAnalyze_balanced.
  - destruct (App.canAnalyze s); [now apply handleAnalyze_balanced|exact Hs].
  - destruct (nth_error (App.jobs s) j) as [[| | |]|] eqn:Hj; try exact Hs.
    destruct r.
    + now apply enter_balanced with (old := App.AwaitCreate).
    + now apply finish_balanced with (old := App.AwaitCreate).
  - destruct (nth_error (App.jobs s) j) as [[|i|i|]|] eqn:Hj; try exact Hs.
    destruct r as [rr|e].
    + destruct (is_final (status rr)).
      * now apply finish_balanced with (old := App.AwaitFetch i).
      * now apply move_balanced with (old := App.AwaitFetch i).
    + now apply finish_balanced with (old := App.AwaitFetch i).
  - destruct (nth_error (App.jobs s) j) as [[|i|i|]|] eqn:Hj; try exact Hs.
    now apply enter_balanced with (old := App.AwaitSleep i).
Qed.

(** X10. The [finally] of [handleAnalyze]: every invocation calls
    [setLoading(false)] exactly once, when it ends, however it ends (result,
    failed result, rejected request, timeout).  At any moment the calls of
    [setLoading(true)] are as many as the calls of [setLoading(false)] plus
    the invocations still suspended; in particular, once no invocation is
    suspended, each [setLoading(true)] has been answered. *)
Theorem X10_loading_cleared_once maxAttempts evs :
  let s := App.run maxAttempts App.initial evs in
  count_loading true (App.log s) =
  (count_loading false (App.log s) + App.active_jobs s)%nat.
Proof.
  cbn zeta. unfold App.run.
  assert (G : forall s0, loading_balanced s0 ->
                loading_balanced (fold_left (App.step maxAttempts) evs s0)).
  { induction evs as [|ev evs IH]; intros s0 H0; cbn [fold_left]; [exact H0|].
    apply IH. now apply step_balanced. }
  apply (G App.initial). reflexivity.
Qed.

(** ** The layer functions one by one, and over a session *)

Import Session.

Lemma accepted_glyphs ls : accepted true ls = ls.
Proof. unfold accepted. cbn. apply forallb_filter_id. now apply forallb_forall. Qed.

(** X11. Each of the six layer functions, run on a surface that honours
    the channel namespace with data for its channel in the refs (for the
    route: a known geometry), removes exactly the layers and sources with
    its own identifiers, keeps every other layer and source in place and in
    order, adds its sources and puts on top those of its layers that the
    style accepts; each layer the style refuses (a label, on a style without
    glyphs) costs one error event.  It throws nothing and leaves a surface
    that honours the namespace again.  On a style with glyphs all its layers
    are added and no error event is fired. *)
Theorem X11_layer_function_effect c r m :
  well_formed m -> touched r c = true ->
  exists m',
    rebuild_channel c r m = Ok (tt, m') /\
    layers m' = filter (fun l => negb (on_layer c l)) (layers m)
                ++ filter (fun l => glyphs m || negb (needs_glyphs l)) (new_layers c r) /\
    sources m' = filter (fun s => negb (on_source_id c s)) (sources m) ++ new_sources c r /\
    error_events m' =
      (error_events m
       + List.length (filter (fun l => negb (glyphs m || negb (needs_glyphs l)))
                             (new_layers c r)))%nat /\
    glyphs m' = glyphs m /\
    well_formed m' /\
    (glyphs m = true ->
       layers m' = filter (fun l => negb (on_layer c l)) (layers m) ++ new_layers c r /\
       error_events m' = error_events m).
Proof.
  intros Hwf Ht. destruct (rebuild_channel_run c r m Hwf) as [H W].
  exists (after c r m). split; [exact H|].
  unfold after in *. rewrite Ht in *.
  split; [reflexivity|]. split; [reflexivity|]. split; [reflexivity|].
  split; [reflexivity|]. split; [exact W|].
  intros G. cbn [refresh layers error_events]. rewrite G, accepted_glyphs, refused_glyphs.
  split; [reflexivity|apply Nat.add_0_r].
Qed.

Lemma X11_witness :
  exists m',
    addTollLayers toll_refs raster_style = Ok (tt, m') /\
    map id (layers m') = ["raster-layer"; "toll-circles"]%string /\
    sources m' = ["raster-tiles"; "tolls"]%string /\
    error_events m' = 1%nat.
Proof.
  destruct (X11_layer_function_effect Tolls toll_refs raster_style
              raster_style_wf eq_refl) as (m' & H & Hl & Hs & He & _).
  exists m'. split; [exact H|]. rewrite Hl, Hs, He. repeat split.
Defined.

Lemma foreign_not_on c l : foreign_layer l = true -> on_layer c l = false.
Proof.
  unfold foreign_layer, channels. cbn [forallb]. intros H.
  repeat (apply andb_prop in H as [? H]).
  destruct c; apply negb_true_iff; assumption.
Qed.

Lemma foreign_source_not_on c s : foreign_source s = true -> on_source_id c s = false.
Proof.
  unfold foreign_source, channels. cbn [forallb]. intros H.
  repeat (apply andb_prop in H as [? H]).
  destruct c; apply negb_true_iff; assumption.
Qed.

Lemma foreign_after c r m :
  filter foreign_layer (layers (after c r m)) = filter foreign_layer (layers m) /\
  filter foreign_source (sources (after c r m)) = filter foreign_source (sources m).
Proof.
  unfold after. destruct (touched r c); [|split; reflexivity].
  destruct (new_items_ok c r) as (_ & Hs & _ & Hl & _).
  unfold refresh, clear; cbn [layers sources]. rewrite !filter_app. split.
  - rewrite (filter_none foreign_layer (accepted (glyphs m) (new_layers c r))), app_nil_r.
    + rewrite filter_and. apply filter_ext. intros l.
      destruct (foreign_layer l) eqn:F; [|apply andb_false_r].
      now rewrite (foreign_not_on c l F).
    + intros l Hin. apply filter_In in Hin as [Hin _].
      destruct (foreign_layer l) eqn:F; [|reflexivity].
      specialize (Hl l Hin). rewrite (foreign_not_on c l F) in Hl. discriminate.
  - rewrite (filter_none foreign_source (new_sources c r)), app_nil_r.
    + rewrite filter_and. apply filter_ext. intros s.
      destruct (foreign_source s) eqn:F; [|apply andb_false_r].
      now rewrite (foreign_source_not_on c s F).
    + intros s Hin. destruct (foreign_source s) eqn:F; [|reflexivity].
      specialize (Hs s Hin). rewrite (foreign_source_not_on c s F) in Hs. discriminate.
Qed.

Lemma foreign_after_all cs r : forall m,
  filter foreign_layer (layers (after_all cs r m)) = filter foreign_layer (layers m) /\
  filter foreign_source (sources (after_all cs r m)) = filter foreign_source (sources m) /\
  (error_events m <= error_events (after_all cs r m))%nat /\
  (glyphs m = true -> error_events (after_all cs r m) = error_events m).
Proof.
  unfold after_all. induction cs as [|c cs IH]; intros m; cbn [fold_left]; [auto|].
  destruct (IH (after c r m)) as (-> & -> & Hle & Heq).
  destruct (foreign_after c r m) as [-> ->].
  rewrite after_errors, after_glyphs in *.
  split; [reflexivity|]. split; [reflexivity|]. split; [lia|].
  intros G. rewrite (Heq G), G, refused_glyphs. apply Nat.add_0_r.
Qed.

Lemma fresh_well_formed m : fresh_style m -> well_formed m.
Proof.
  intros [Hi Hs Hl Hu _]. split; [exact Hi|exact Hs|].
  apply forallb_forall. intros l Hin.
  pose proof (proj1 (forallb_forall _ _) Hu l Hin) as F.
  unfold owned. apply forallb_forall. intros c _.
  now rewrite (foreign_source_not_on c _ F).
Qed.

Lemma base_style_fresh : fresh_style base_style.
Proof.
  split; try reflexivity.
  - cbn. repeat constructor; cbn; intuition discriminate.
  - cbn. repeat constructor; cbn; intuition discriminate.
Qed.

Lemma raster_style_fresh : fresh_style raster_style.
Proof.
  split; try reflexivity.
  - cbn. repeat constructor; cbn; intuition discriminate.
  - cbn. repeat constructor; cbn; intuition discriminate.
Qed.

(** X12. Over a whole session (results arriving and being cleared, city
    names arriving; at each render the effects whose dependency changed),
    started on a surface that honours the channel namespace: no call throws,
    the surface honours the namespace at the end, and the layers and sources
    of the base style are all still there, in their order.  On a style with
    glyphs the map fires no error event over the whole session. *)
Theorem X12_session_is_safe cs : forall prev r m,
  well_formed m ->
  exists prev' r' m',
    session cs prev r m = Ok ((prev', r'), m') /\
    well_formed m' /\
    filter foreign_layer (layers m') = filter foreign_layer (layers m) /\
    filter foreign_source (sources m') = filter foreign_source (sources m) /\
    glyphs m' = glyphs m /\
    (error_events m <= error_events m')%nat /\
    (glyphs m = true -> error_events m' = error_events m).
Proof.
  induction cs as [|ch cs IH]; intros prev r m Hwf; cbn [session].
  - exists prev, r, m. repeat split; try reflexivity; try apply Hwf; try lia.
  - assert (G : forall chans r1 prev1,
              exists prev' r' m',
                session cs prev1 r1 (after_all chans r1 m) = Ok ((prev', r'), m') /\
                well_formed m' /\
                filter foreign_layer (layers m') = filter foreign_layer (layers m) /\
                filter foreign_source (sources m') = filter foreign_source (sources m) /\
                glyphs m' = glyphs m /\
                (error_events m <= error_events m')%nat /\
                (glyphs m = true -> error_events m' = error_events m)).
    { intros chans r1 prev1.
      destruct (run_channels_ok chans r1 m Hwf) as [_ W].
      destruct (IH prev1 r1 _ W) as (prev' & r' & m' & Hs & W' & Fl & Fs & Gl & Le & Eq).
      destruct (foreign_after_all chans r1 m) as (Al & As & Ale & Aeq).
      exists prev', r', m'. split; [exact Hs|]. split; [exact W'|].
      rewrite Fl, Fs, Gl, Al, As, after_all_glyphs in *.
      split; [reflexivity|]. split; [reflexivity|]. split; [reflexivity|].
      split; [lia|]. intros T. rewrite (Eq T). now apply Aeq. }
    destruct ch as [res|].
    + set (p := props_of res).
      destruct (run_channels_ok (due prev p) (fst (on_props prev p r)) m Hwf) as [H _].
      rewrite <- on_props_channels in H.
      rewrite (bind_ok _ _ _ _ _ H). apply G.
    + destruct (run_channels_ok [Samples] r m Hwf) as [H _].
      assert (E : effect_samples r m = run_channels [Samples] r m).
      { unfold effect_samples, run_channels. cbn [forEach rebuild_channel]. run_all. }
      rewrite <- E in H. rewrite (bind_ok _ _ _ _ _ H). apply G.
Qed.

Lemma X12_witness :
  exists prev' r' m',
    session [NewResult (Some full_result); CityNames; NewResult None;
             NewResult (Some one_segment_result)]
      (props_of None) initial_refs base_style = Ok ((prev', r'), m') /\
    error_events m' = 0%nat.
Proof.
  destruct (X12_session_is_safe
              [NewResult (Some full_result); CityNames; NewResult None;
               NewResult (Some one_segment_result)]
              (props_of None) initial_refs base_style
              (fresh_well_formed base_style base_style_fresh))
    as (prev' & r' & m' & H & _ & _ & _ & _ & _ & He).
  exists prev', r', m'. split; [exact H|]. now apply He.
Defined.

Lemma reaction_all res c : In c (reaction res).
Proof.
  unfold reaction. apply in_or_app. right. destruct c; cbn; tauto.
Qed.

Lemma channel_untouched c cs r : forall m,
  touched r c = false ->
  channel_layers c (after_all cs r m) = channel_layers c m /\
  channel_sources c (after_all cs r m) = channel_sources c m.
Proof.
  unfold after_all.
  induction cs as [|c' cs IH]; intros m T; cbn [fold_left]; [now split|].
  destruct (IH (after c' r m) T) as [-> ->].
  destruct (Channel_eq_dec c c') as [E|N].
  - subst c'. unfold after. now rewrite T.
  - now apply channel_after_other.
Qed.

(** The refs a render leaves differ from the refs before only in what the
    channels rebuilt at that render show. *)
Lemma not_due_same prev p r c :
  ~ In c (due prev p) \/ touched (sync_changed prev p r) c = false ->
  new_layers c (sync_changed prev p r) = new_layers c r /\
  new_sources c (sync_changed prev p r) = new_sources c r.
Proof.
  intros [N|T].
  - revert N. unfold due, new_layers, new_sources, sync_changed.
    cbn [routeGeomRef samplesRef tollPointsRef accidentPointsRef
         congestionSegmentsRef trafficLightPointsRef].
    destruct (routeGeometry prev), (routeGeometry p); cbn [changed];
      destruct (changed (p_samples prev) (p_samples p)),
               (changed (tollPoints prev) (tollPoints p)),
               (changed (accidentPoints prev) (accidentPoints p)),
               (changed (congestionSegments prev) (congestionSegments p)),
               (changed (trafficLightPoints prev) (trafficLightPoints p));
      destruct c; intros N; try (split; reflexivity);
      exfalso; apply N; cbn; auto 10.
  - destruct c; cbn in T; try discriminate.
    unfold new_layers, new_sources, sync_changed in *.
    cbn [routeGeomRef] in *.
    destruct (routeGeometry p); [discriminate|].
    now destruct (routeGeomRef r).
Qed.

Lemma in_sync_after_all cs r r' m :
  in_sync r m ->
  (forall c, ~ In c cs \/ touched r' c = false ->
     new_layers c r' = new_layers c r /\ new_sources c r' = new_sources c r) ->
  in_sync r' (after_all cs r' m).
Proof.
  intros S Hsame c. rewrite after_all_glyphs.
  destruct (touched r' c) eqn:T.
  - destruct (in_dec Channel_eq_dec c cs) as [I|I].
    + now apply channel_after_all.
    + destruct (channel_after_all_other c cs r' m I) as [-> ->].
      destruct (Hsame c (or_introl I)) as [-> ->]. apply S.
  - destruct (channel_untouched c cs r' m T) as [-> ->].
    destruct (Hsame c (or_intror T)) as [-> ->]. apply S.
Qed.

Lemma fresh_in_sync m : fresh_style m -> in_sync initial_refs m.
Proof.
  intros [_ _ Fl _ Fs] c. unfold channel_layers, channel_sources. split.
  - rewrite filter_none.
    + destruct c; reflexivity.
    + intros l Hin. apply (foreign_not_on c).
      exact (proj1 (forallb_forall _ _) Fl l Hin).
  - rewrite filter_none.
    + destruct c; reflexivity.
    + intros x Hin. apply (foreign_source_not_on c).
      exact (proj1 (forallb_forall _ _) Fs x Hin).
Qed.

Lemma session_in_sync cs : forall prev r m,
  well_formed m -> in_sync r m ->
  exists prev' r' m',
    session cs prev r m = Ok ((prev', r'), m') /\ in_sync r' m' /\
    glyphs m' = glyphs m.
Proof.
  induction cs as [|ch cs IH]; intros prev r m Hwf S; cbn [session].
  - exists prev, r, m. auto.
  - destruct ch as [res|].
    + set (p := props_of res).
      destruct (run_channels_ok (due prev p) (fst (on_props prev p r)) m Hwf) as [H W].
      rewrite <- on_props_channels in H.
      rewrite (bind_ok _ _ _ _ _ H).
      change (fst (on_props prev p r)) with (sync_changed prev p r) in *.
      destruct (IH p (sync_changed prev p r) _ W) as (prev' & r' & m' & Hs & S' & G).
      * apply (in_sync_after_all _ r); [exact S|].
        intros c Hc. apply not_due_same. exact Hc.
      * exists prev', r', m'. rewrite G, after_all_glyphs. auto.
    + destruct (run_channels_ok [Samples] r m Hwf) as [H W].
      assert (E : effect_samples r m = run_channels [Samples] r m).
      { unfold effect_samples, run_channels. cbn [forEach rebuild_channel]. run_all. }
      rewrite <- E in H. rewrite (bind_ok _ _ _ _ _ H).
      destruct (IH prev r _ W) as (prev' & r' & m' & Hs & S' & G).
      * apply (in_sync_after_all _ r); [exact S|]. intros; split; reflexivity.
      * exists prev', r', m'. rewrite G, after_all_glyphs. auto.
Qed.

(** X13. The map follows the refs over a whole session.  Started on a
    freshly loaded style, after any sequence of renders (results arriving
    and being cleared, city names arriving), with only the effects run whose
    dependency changed, every channel holds exactly what its layer function
    builds from the refs as they are now: its sources, and those of its
    layers that the style accepts. *)
Theorem X13_map_follows_refs cs m :
  fresh_style m ->
  exists prev r m',
    session cs (props_of None) initial_refs m = Ok ((prev, r), m') /\
    forall c,
      channel_layers c m'
        = filter (fun l => glyphs m || negb (needs_glyphs l)) (new_layers c r) /\
      channel_sources c m' = new_sources c r.
Proof.
  intros F.
  destruct (session_in_sync cs (props_of None) initial_refs m
              (fresh_well_formed m F) (fresh_in_sync m F))
    as (prev & r & m' & H & S & G).
  exists prev, r, m'. split; [exact H|]. intros c.
  destruct (S c) as [Hl Hs]. rewrite G in Hl. split; assumption.
Qed.

Lemma X13_witness :
  exists prev r m',
    session [NewResult (Some full_result); NewResult None] (props_of None)
      initial_refs raster_style = Ok ((prev, r), m') /\
    map id (channel_layers Route m') = ["route-outline"; "route-line"]%string /\
    channel_layers Tolls m' = [] /\ channel_sources Samples m' = [].
Proof.
  destruct (X13_map_follows_refs [NewResult (Some full_result); NewResult None]
              raster_style raster_style_fresh) as (prev & r & m' & H & S).
  exists prev, r, m'. split; [exact H|].
  assert (E : Ok ((prev, r), m') =
              session [NewResult (Some full_result); NewResult None] (props_of None)
                initial_refs raster_style) by now rewrite H.
  vm_compute in E. injection E as -> -> ->.
  repeat split.
Defined.

(** X14. The blue route line and the congestion colouring exclude each
    other: after MapView has reacted to a result that carries a geometry,
    the layer [route-outline] is on the map, and the layer [route-line] is on
    the map exactly when the result has no congestion segment. *)
Theorem X14_route_line_or_congestion res r0 m :
  well_formed m -> route_geometry res <> None ->
  exists m',
    snd (on_result (Some res) r0) m = Ok (tt, m') /\
    has_layer "route-outline" m' = true /\
    has_layer "route-line" m' = is_empty (or_empty (congestion_segments res)).
Proof.
  intros Hwf Hg.
  set (r := fst (on_result (Some res) r0)).
  assert (Hr : routeGeomRef r = route_geometry res).
  { subst r. cbn. destruct (route_geometry res); [reflexivity|contradiction]. }
  assert (Hc : congestionSegmentsRef r = or_empty (congestion_segments res))
    by reflexivity.
  assert (Ht : touched r Route = true).
  { unfold touched. rewrite Hr. destruct (route_geometry res); [reflexivity|contradiction]. }
  destruct (run_channels_ok (reaction (Some res)) r m Hwf) as [H _].
  exists (after_all (reaction (Some res)) r m).
  rewrite on_result_channels. fold r. split; [exact H|].
  destruct (channel_after_all Route (reaction (Some res)) r m
              (reaction_all _ _) Ht) as [Hl _].
  rewrite (has_layer_channel Route "route-outline") by reflexivity.
  rewrite (has_layer_channel Route "route-line") by reflexivity.
  rewrite Hl. unfold new_layers. rewrite Hr, Hc.
  destruct (route_geometry res); [|contradiction].
  destruct (glyphs m), (or_empty (congestion_segments res)); split; reflexivity.
Qed.

Lemma X14_witness :
  exists m',
    snd (on_result (Some two_segment_result) initial_refs) empty_map = Ok (tt, m') /\
    has_layer "route-outline" m' = true /\ has_layer "route-line" m' = false.
Proof.
  destruct (X14_route_line_or_congestion two_segment_result initial_refs empty_map
              empty_map_wf) as (m' & H & Ho & Hl).
  - discriminate.
  - exists m'. split; [exact H|]. split; [exact Ho|exact Hl].
Defined.

Lemma foreign_kept r cs l : foreign_layer l = true -> kept r cs l = true.
Proof.
  intros F. unfold kept. apply negb_true_iff.
  induction cs as [|c cs IH]; cbn [existsb]; [reflexivity|].
  now rewrite (foreign_not_on c l F), andb_false_r.
Qed.

Lemma foreign_kept_source r cs s : foreign_source s = true -> kept_source r cs s = true.
Proof.
  intros F. unfold kept_source. apply negb_true_iff.
  induction cs as [|c cs IH]; cbn [existsb]; [reflexivity|].
  now rewrite (foreign_source_not_on c s F), andb_false_r.
Qed.

Lemma filter_all {A} (f : A -> bool) (l : list A) :
  (forall x, In x l -> f x = true) -> filter f l = l.
Proof.
  induction l as [|x l IH]; intros H; cbn; [reflexivity|].
  rewrite (H x (or_introl eq_refl)). f_equal. apply IH. intros y Hy. apply H. now right.
Qed.

(** X15. On a freshly loaded style (nothing of MapView on it, as after a
    theme or style switch), [rebuildLayers] succeeds and leaves the style's
    own sources and layers untouched at the bottom; above them come
    MapView's layers in the order route, congestion, samples, tolls,
    accidents, signals, each built from the refs, except those the style
    refuses: on a style without glyphs (the raster style) the label layers
    are missing and each has cost one error event. *)
Theorem X15_rebuild_on_fresh_style r m :
  fresh_style m ->
  rebuildLayers r m =
  Ok (tt, {| sources := sources m ++ all_new_sources rebuild_order r;
             layers := layers m
                       ++ filter (fun l => glyphs m || negb (needs_glyphs l))
                                 (all_new_layers rebuild_order r);
             glyphs := glyphs m;
             error_events :=
               error_events m
               + List.length
                   (filter (fun l => negb (glyphs m || negb (needs_glyphs l)))
                           (all_new_layers rebuild_order r)) |}).
Proof.
  intros F. pose proof (fresh_well_formed m F) as Hwf.
  rewrite rebuildLayers_channels.
  destruct (run_channels_ok rebuild_order r m Hwf) as [H _]. rewrite H.
  destruct (after_all_normal rebuild_order r m rebuild_order_NoDup) as (Hl & Hs & He).
  do 2 f_equal. rewrite (map_eta (after_all rebuild_order r m)), Hl, Hs, He.
  rewrite after_all_glyphs.
  destruct F as [_ _ Fl _ Fs].
  rewrite (filter_all (kept r rebuild_order)), (filter_all (kept_source r rebuild_order));
    [reflexivity| |].
  - intros s Hin. apply foreign_kept_source.
    exact (proj1 (forallb_forall _ _) Fs s Hin).
  - intros l Hin. apply foreign_kept.
    exact (proj1 (forallb_forall _ _) Fl l Hin).
Qed.

Lemma X15_witness :
  exists m',
    rebuildLayers sample_refs raster_style = Ok (tt, m') /\
    map id (layers m') =
      ["raster-layer"; "route-outline";
       "congestion-seg-outline-0"; "congestion-seg-line-0";
       "congestion-seg-outline-1"; "congestion-seg-line-1";
       "samples-circles-stroke"; "samples-circles";
       "toll-circles"]%string /\
    error_events m' = 2%nat.
Proof.
  eexists. split; [apply (X15_rebuild_on_fresh_style sample_refs raster_style
                            raster_style_fresh)|].
  split; reflexivity.
Defined.

(** X16. The guard of [addTollLayers] is the namespace: when a layer that
    is not one of the toll layers draws from the source ["tolls"], the map
    refuses to remove the source (an error event), and then, with toll data
    in the refs, [addSource] throws because the identifier is taken (the
    error reads: Source, the identifier in double quotes, already exists.);
    with no toll data the call returns, the source still on the map. *)
Theorem X16_source_in_foreign_use r m :
  has_source "tolls" m = true ->
  existsb (fun l => String.eqb (source l) "tolls"
                    && negb (mem (id l) ["toll-labels"; "toll-circles"]%string))
          (layers m) = true ->
  (tollPointsRef r <> [] ->
     addTollLayers r m =
     Throw ("Source " ++ dquote ++ "tolls" ++ dquote ++ " already exists.")%string) /\
  (tollPointsRef r = [] ->
     exists m', addTollLayers r m = Ok (tt, m') /\
                error_events m' = S (error_events m) /\
                has_source "tolls" m' = true).
Proof.
  intros Hs Hu. unfold addTollLayers.
  rewrite (bind_ok _ _ _ _ _ (dropLayers_run _ m)).
  set (m1 := with_layers _ m).
  assert (Hs1 : has_source "tolls" m1 = true) by exact Hs.
  assert (Hu1 : in_use "tolls" m1 = true).
  { apply existsb_exists in Hu as (l & Hin & Hl).
    apply andb_prop in Hl as [Hl1 Hl2].
    unfold in_use. apply existsb_exists. exists l. split; [|exact Hl1].
    subst m1. cbn [with_layers layers]. apply filter_In. split; assumption. }
  assert (D : dropSource "tolls" m1 = fire_error m1).
  { unfold dropSource, bind, getSource, when, removeSource.
    rewrite Hs1. cbn [negb]. now rewrite Hu1, Hs1. }
  split.
  - intros Hne. destruct (tollPointsRef r); [contradiction|]. cbn [is_empty].
    unfold bind at 1. rewrite D. cbn [fire_error].
    unfold bind at 1. unfold addSource.
    change (has_source "tolls" _) with (has_source "tolls" m). now rewrite Hs.
  - intros ->. cbn [is_empty]. unfold bind. rewrite D. cbn [fire_error ret].
    eexists. split; [reflexivity|]. split; [reflexivity|exact Hs].
Qed.

Lemma X16_witness :
  addTollLayers toll_refs map_with_foreign_user =
  Throw ("Source " ++ dquote ++ "tolls" ++ dquote ++ " already exists.")%string.
Proof.
  apply (X16_source_in_foreign_use toll_refs map_with_foreign_user); try reflexivity.
  discriminate.
Defined.

(* ------------------------------------------------------------------ *)
(** ** The search fields *)
(* ------------------------------------------------------------------ *)

Import Js.

Lemma split_cons sep s : exists h r, split sep s = h :: r.
Proof.
  induction s as [|c t (h & r & IH)]; cbn [split]; [eauto|].
  destruct (c =? sep)%N; [eauto|]. rewrite IH. eauto.
Qed.

Lemma join_cons sep x y r : join sep (x :: y :: r) = x ++ sep :: join sep (y :: r).
Proof. reflexivity. Qed.

Lemma join_split sep s : join sep (split sep s) = s.
Proof.
  induction s as [|c t IH]; cbn [split]; [reflexivity|].
  destruct (split_cons sep t) as (h & r & E). rewrite E in *.
  destruct (N.eqb_spec c sep) as [->|_].
  - rewrite join_cons. cbn [app]. now rewrite IH.
  - destruct r as [|y r].
    + cbn [join] in *. now rewrite IH.
    + rewrite join_cons in *. cbn [app]. now rewrite IH.
Qed.

Lemma occurrences_app c a b :
  occurrences c (a ++ b) = (occurrences c a + occurrences c b)%nat.
Proof. unfold occurrences. now rewrite filter_app, length_app. Qed.

Lemma occurrences_cons c x s :
  occurrences c (x :: s) = ((if (c =? x)%N then 1 else 0) + occurrences c s)%nat.
Proof. unfold occurrences. cbn [filter]. now destruct (c =? x)%N. Qed.

Lemma split_parts sep s :
  Forall (fun p => occurrences sep p = 0%nat) (split sep s).
Proof.
  induction s as [|c t IH]; cbn [split]; [repeat constructor|].
  destruct (split_cons sep t) as (h & r & E). rewrite E in *.
  destruct (N.eqb_spec c sep) as [->|N].
  - constructor; [reflexivity|exact IH].
  - inversion IH as [|? ? Hh Hr]; subst. constructor; [|exact Hr].
    rewrite occurrences_cons, Hh.
    destruct (N.eqb_spec sep c); [congruence|reflexivity].
Qed.

Lemma split_length sep s :
  List.length (split sep s) = S (occurrences sep s).
Proof.
  induction s as [|c t IH]; cbn [split]; [reflexivity|].
  destruct (split_cons sep t) as (h & r & E). rewrite E in *.
  rewrite occurrences_cons, (N.eqb_sym sep c).
  destruct (c =? sep)%N; cbn [List.length] in *; lia.
Qed.

(** X17. The text [selectSuggestion] puts into the field is the display
    name cut before its second comma: it is a prefix of the display name
    with at most one comma; a display name with at most one comma is taken
    whole, and otherwise exactly the part before the second comma is
    taken. *)
Theorem X17_short_name_cuts_at_second_comma item :
  let d := SearchPanel.display_name item in
  let n := SearchPanel.short_name item in
  (exists rest, d = n ++ rest) /\
  (occurrences comma n <= 1)%nat /\
  ((occurrences comma d <= 1)%nat -> n = d) /\
  ((2 <= occurrences comma d)%nat ->
     occurrences comma n = 1%nat /\ exists rest, d = n ++ comma :: rest).
Proof.
  cbn zeta. unfold SearchPanel.short_name, slice0.
  set (d := SearchPanel.display_name item). clearbody d.
  pose proof (join_split comma d) as J.
  pose proof (split_parts comma d) as P.
  pose proof (split_length comma d) as L.
  destruct (split comma d) as [|h [|h2 r]]; cbn [List.length] in L; [lia| |].
  - cbn [firstn join] in *. subst h.
    pose proof (Forall_inv P) as Hh. cbn beta in Hh.
    split; [exists []; now rewrite app_nil_r|].
    split; [lia|]. split; [reflexivity|]. intros; lia.
  - pose proof (Forall_inv P) as Hh. pose proof (Forall_inv_tail P) as P'.
    pose proof (Forall_inv P') as Hh2. cbn beta in Hh, Hh2.
    cbn [firstn]. rewrite join_cons in J. rewrite join_cons.
    change (join comma [h2]) with h2.
    assert (C : occurrences comma (h ++ comma :: h2) = 1%nat).
    { rewrite occurrences_app, occurrences_cons, Hh, Hh2. reflexivity. }
    destruct r as [|h3 r].
    + cbn [join] in J. subst d.
      split; [exists []; now rewrite app_nil_r|].
      split; [lia|]. split; [reflexivity|]. cbn [List.length] in L. intros; lia.
    + rewrite join_cons in J.
      assert (E : d = (h ++ comma :: h2) ++ comma :: join comma (h3 :: r)).
      { rewrite <- J, <- app_assoc. reflexivity. }
      split; [eexists; exact E|]. split; [lia|].
      split; [cbn [List.length] in L; intros; lia|].
      intros _. split; [exact C|]. eexists; exact E.
Qed.

Lemma X17_witness :
  SearchPanel.short_name SearchPanel.sao_paulo = units "Sao Paulo, SP" /\
  SearchPanel.short_name SearchPanel.santos = units "Santos".
Proof.
  split.
  - reflexivity.
  - destruct (X17_short_name_cuts_at_second_comma SearchPanel.santos)
      as (_ & _ & H & _).
    apply H. cbn. lia.
Defined.

Lemma panel_run_snoc st evs ev :
  SearchPanel.run st (evs ++ [ev]) = SearchPanel.step (SearchPanel.run st evs) ev.
Proof. unfold SearchPanel.run. now rewrite fold_left_app. Qed.

Lemma panel_typed_snoc evs ev :
  SearchPanel.typed (evs ++ [ev]) =
  SearchPanel.typed evs
  ++ match ev with SearchPanel.ChangeText _ text => [text] | _ => [] end.
Proof. unfold SearchPanel.typed. rewrite flat_map_app. cbn. now rewrite app_nil_r. Qed.

(** X18. What reaches [onAnalyze] from the mobile search panel are always
    coordinates of suggestions the user selected, one for the origin and one
    for the destination: the Analyze button does nothing before both
    selections exist.  And there is no debounce: the geocoding requests
    issued are, in order, exactly the texts typed that have at least three
    code units, one request per change of the text. *)
Theorem X18_panel_analyses_selected_places evs :
  let st := SearchPanel.run SearchPanel.initial evs in
  (forall o d, In (o, d) (SearchPanel.analyses st) ->
     (exists i, In (SearchPanel.Select i) evs /\ o = SearchPanel.coords_of i) /\
     (exists i, In (SearchPanel.Select i) evs /\ d = SearchPanel.coords_of i)) /\
  SearchPanel.requests st =
    filter (fun text => negb (List.length text <? 3)%nat) (SearchPanel.typed evs).
Proof.
  cbn zeta.
  set (sel := fun (evs : list SearchPanel.Event) (c : SearchPanel.Coordinates) =>
                exists i, In (SearchPanel.Select i) evs /\ c = SearchPanel.coords_of i).
  assert (G :
    let st := SearchPanel.run SearchPanel.initial evs in
    (forall c, SearchPanel.originCoords st = Some c -> sel evs c) /\
    (forall c, SearchPanel.destCoords st = Some c -> sel evs c) /\
    (forall o d, In (o, d) (SearchPanel.analyses st) -> sel evs o /\ sel evs d) /\
    SearchPanel.requests st =
      filter (fun text => negb (List.length text <? 3)%nat) (SearchPanel.typed evs)).
  { induction evs as [|ev evs IH] using rev_ind.
    - cbn. repeat split; try discriminate; try contradiction.
    - cbn zeta in *. rewrite panel_run_snoc, panel_typed_snoc, filter_app.
      set (st := SearchPanel.run SearchPanel.initial evs) in *.
      destruct IH as (Io & Id & Ia & Ir).
      assert (W : forall c, sel evs c -> sel (evs ++ [ev]) c).
      { intros c (i & Hi & E). exists i. split; [|exact E].
        apply in_or_app. now left. }
      destruct ev as [field text|field|r|item|loading]; cbn [SearchPanel.step].
      + unfold SearchPanel.search.
        destruct (List.length text <? 3)%nat eqn:Len;
          cbn [SearchPanel.setSuggestions SearchPanel.originCoords SearchPanel.destCoords
               SearchPanel.analyses SearchPanel.requests];
          (split; [intros c H; apply W, Io, H|]);
          (split; [intros c H; apply W, Id, H|]);
          (split; [intros o d H; destruct (Ia o d H); split; apply W; assumption|]);
          cbn [filter]; rewrite Len; cbn [negb]; rewrite Ir; [now rewrite app_nil_r|reflexivity].
      + cbn. split; [intros c H; apply W, Io, H|].
        split; [intros c H; apply W, Id, H|].
        split; [intros o d H; destruct (Ia o d H); split; apply W; assumption|rewrite app_nil_r; exact Ir].
      + destruct r; cbn;
          (split; [intros c H; apply W, Io, H|]);
          (split; [intros c H; apply W, Id, H|]);
          (split; [intros o d H; destruct (Ia o d H); split; apply W; assumption|rewrite app_nil_r; exact Ir]).
      + assert (S : sel (evs ++ [SearchPanel.Select item]) (SearchPanel.coords_of item)).
        { exists item. split; [|reflexivity]. apply in_or_app. right. now left. }
        unfold SearchPanel.selectSuggestion.
        destruct (SearchPanel.activeField st) as [[|]|]; cbn;
          (split; [intros c H; first [injection H as <-; exact S | apply W, Io, H]|]);
          (split; [intros c H; first [injection H as <-; exact S | apply W, Id, H]|]);
          (split; [intros o d H; destruct (Ia o d H); split; apply W; assumption|rewrite app_nil_r; exact Ir]).
      + unfold SearchPanel.button_disabled, SearchPanel.handleAnalyze.
        destruct (SearchPanel.originCoords st) as [o|] eqn:Eo;
          destruct (SearchPanel.destCoords st) as [d|] eqn:Ed;
          try destruct loading; cbn; rewrite ?Eo, ?Ed;
          (split; [intros c H; first [apply W, Io, H | discriminate H]|]);
          (split; [intros c H; first [apply W, Id, H | discriminate H]|]);
          (split; [|rewrite app_nil_r; exact Ir]);
          intros o' d' H;
          try (destruct (Ia o' d' H); split; apply W; assumption).
        apply in_app_or in H as [H|[H|[]]].
        * destruct (Ia o' d' H); split; apply W; assumption.
        * injection H as <- <-. split; apply W; [apply Io|apply Id]; reflexivity. }
  cbn zeta in G. destruct G as (_ & _ & Ga & Gr). split; [exact Ga|exact Gr].
Qed.

Lemma X18_witness :
  let evs := [SearchPanel.ChangeText SearchPanel.origin (units "Sao");
              SearchPanel.SearchSettled (Resolved [SearchPanel.sao_paulo]);
              SearchPanel.Select SearchPanel.sao_paulo;
              SearchPanel.Press false;
              SearchPanel.ChangeText SearchPanel.dest (units "Santos");
              SearchPanel.Select SearchPanel.santos;
              SearchPanel.Press false] in
  SearchPanel.analyses (SearchPanel.run SearchPanel.initial evs) =
    [(SearchPanel.coords_of SearchPanel.sao_paulo,
      SearchPanel.coords_of SearchPanel.santos)] /\
  exists i, In (SearchPanel.Select i) evs /\
            SearchPanel.coords_of SearchPanel.santos = SearchPanel.coords_of i.
Proof.
  intros evs. split; [reflexivity|].
  destruct (X18_panel_analyses_selected_places evs) as [H _].
  apply (H (SearchPanel.coords_of SearchPanel.sao_paulo)
           (SearchPanel.coords_of SearchPanel.santos)).
  now left.
Defined.

(** *** The debounce of the web search box *)

Lemma box_run_snoc st evs ev :
  SearchBox.run st (evs ++ [ev]) = SearchBox.step (SearchBox.run st evs) ev.
Proof. unfold SearchBox.run. now rewrite fold_left_app. Qed.

Lemma last_typed_snoc evs ev :
  SearchBox.last_typed (evs ++ [ev]) =
  match ev with SearchBox.Change text => Some text | _ => SearchBox.last_typed evs end.
Proof. unfold SearchBox.last_typed. now rewrite fold_left_app. Qed.

Lemma typed_snoc evs ev :
  SearchBox.typed (evs ++ [ev]) =
  SearchBox.typed evs ++ match ev with SearchBox.Change text => [text] | _ => [] end.
Proof. unfold SearchBox.typed. rewrite flat_map_app. cbn. now rewrite app_nil_r. Qed.

Lemma last_typed_in evs text :
  SearchBox.last_typed evs = Some text -> In text (SearchBox.typed evs).
Proof.
  induction evs as [|ev evs IH] using rev_ind; [discriminate|].
  rewrite last_typed_snoc, typed_snoc. intros H. apply in_or_app.
  destruct ev; try (left; now apply IH).
  right. injection H as ->. now left.
Qed.

Lemma clearTimeout_current st evs :
  SearchBox.debounced evs st ->
  SearchBox.clearTimeout (SearchBox.timer st) (SearchBox.timeouts st) = [].
Proof.
  intros [[E|(id & text & E & T & _)] _]; rewrite E.
  - unfold SearchBox.clearTimeout. now destruct (SearchBox.timer st).
  - rewrite T. cbn. now rewrite Nat.eqb_refl.
Qed.

Lemma step_debounced evs st ev :
  SearchBox.debounced evs st ->
  SearchBox.debounced (evs ++ [ev]) (SearchBox.step st ev).
Proof.
  intros D. pose proof (clearTimeout_current st evs D) as C.
  destruct D as [Dt Dr].
  assert (W : forall text, In text (SearchBox.requests st) ->
                In text (SearchBox.typed (evs ++ [ev])) /\ (2 <= List.length text)%nat).
  { intros text H. destruct (Dr text H) as [H1 H2]. split; [|exact H2].
    rewrite typed_snoc. apply in_or_app. now left. }
  assert (K : forall st', SearchBox.timeouts st' = SearchBox.timeouts st ->
                SearchBox.timer st' = SearchBox.timer st ->
                SearchBox.requests st' = SearchBox.requests st ->
                SearchBox.last_typed (evs ++ [ev]) = SearchBox.last_typed evs ->
                SearchBox.debounced (evs ++ [ev]) st').
  { intros st' Et Er Eq El. unfold SearchBox.debounced. rewrite Et, Er, Eq, El.
    split; [exact Dt|exact W]. }
  destruct ev as [text|id|r| |name| |value]; cbn [SearchBox.step].
  - unfold SearchBox.handleChange. rewrite C.
    destruct (List.length text <? 2)%nat eqn:Len; (split; [|exact W]).
    + now left.
    + right. exists (SearchBox.next_timeout st), text. cbn.
      rewrite last_typed_snoc. apply Nat.ltb_ge in Len. auto.
  - unfold SearchBox.fire.
    destruct Dt as [E|(id0 & text & E & T & L & Len)]; rewrite E; cbn [find fst].
    + apply K; try reflexivity. now rewrite last_typed_snoc.
    + destruct (id0 =? id)%nat eqn:I.
      * split; cbn; [rewrite I; now left|].
        intros t H. apply in_app_or in H as [H|[<-|[]]]; [now apply W|].
        split; [|exact Len]. rewrite typed_snoc. apply in_or_app. left.
        now apply last_typed_in.
      * apply K; try reflexivity. now rewrite last_typed_snoc.
  - destruct r; apply K; try reflexivity; now rewrite last_typed_snoc.
  - unfold SearchBox.clear_clicked. destruct (SearchBox.query st);
      apply K; try reflexivity; now rewrite last_typed_snoc.
  - apply K; try reflexivity. now rewrite last_typed_snoc.
  - apply K; try reflexivity. now rewrite last_typed_snoc.
  - unfold SearchBox.value_changed. destruct value;
      apply K; try reflexivity; now rewrite last_typed_snoc.
Qed.

Lemma run_debounced value evs :
  SearchBox.debounced evs (SearchBox.run (SearchBox.initial value) evs).
Proof.
  induction evs as [|ev evs IH] using rev_ind.
  - split; [now left|intros text []].
  - rewrite box_run_snoc. now apply step_debounced.
Qed.

(** X19. The debounce of the search box: in every state it can reach, at
    most one timeout is alive, the one [timer.current] holds, and it is for
    the text typed last, which has at least two code units; and every
    geocoding request issued so far is for a text that was typed and has at
    least two code units. *)
Theorem X19_search_box_debounce value evs :
  let st := SearchBox.run (SearchBox.initial value) evs in
  (SearchBox.timeouts st = [] \/
   exists id text,
     SearchBox.timeouts st = [(id, text)] /\ SearchBox.timer st = Some id /\
     SearchBox.last_typed evs = Some text /\ (2 <= List.length text)%nat) /\
  (forall text, In text (SearchBox.requests st) ->
     In text (SearchBox.typed evs) /\ (2 <= List.length text)%nat).
Proof. exact (run_debounced value evs). Qed.

Lemma changes_requests texts : forall st,
  SearchBox.requests (SearchBox.run st (map SearchBox.Change texts))
  = SearchBox.requests st.
Proof.
  unfold SearchBox.run.
  induction texts as [|t texts IH]; intros st; cbn [map fold_left]; [reflexivity|].
  rewrite IH. cbn [SearchBox.step]. unfold SearchBox.handleChange.
  now destruct (List.length t <? 2)%nat.
Qed.

(** X20. A burst of keystrokes costs at most one request: after any
    number of changes of the text with no timeout expiring in between,
    nothing has been requested; if the last text has fewer than two code
    units no timeout is alive and the suggestions are cleared; otherwise
    exactly one timeout is alive and, when it expires, exactly one request
    is issued, for the last text. *)
Theorem X20_burst_requests_last_text value evs texts last :
  let st0 := SearchBox.run (SearchBox.initial value) evs in
  let st := SearchBox.run st0 (map SearchBox.Change (texts ++ [last])) in
  SearchBox.requests st = SearchBox.requests st0 /\
  SearchBox.query st = last /\
  ((List.length last < 2)%nat ->
     SearchBox.timeouts st = [] /\ SearchBox.suggestions st = []) /\
  ((2 <= List.length last)%nat ->
     exists id,
       SearchBox.timeouts st = [(id, last)] /\
       let st' := SearchBox.step st (SearchBox.TimeoutExpired id) in
       SearchBox.requests st' = SearchBox.requests st0 ++ [last] /\
       SearchBox.timeouts st' = [] /\ SearchBox.loading st' = true).
Proof.
  intros st0 st. split; [apply changes_requests|].
  assert (R : SearchBox.requests st = SearchBox.requests st0) by apply changes_requests.
  subst st. rewrite map_app in *. cbn [map] in *. rewrite box_run_snoc in *.
  set (st1 := SearchBox.run st0 (map SearchBox.Change texts)) in *.
  assert (D : SearchBox.debounced (evs ++ map SearchBox.Change texts) st1).
  { subst st1 st0. unfold SearchBox.run. rewrite <- fold_left_app.
    apply run_debounced. }
  pose proof (clearTimeout_current st1 _ D) as C.
  cbn [SearchBox.step] in *. unfold SearchBox.handleChange in *. rewrite C in *.
  destruct (Nat.ltb_spec (List.length last) 2) as [Hlt|Hge].
  - split; [reflexivity|]. split; [intros _; split; reflexivity|]. intros; lia.
  - split; [reflexivity|]. split; [intros; lia|]. intros _.
    exists (SearchBox.next_timeout st1). split; [reflexivity|].
    cbn in R. unfold SearchBox.fire. cbn. rewrite Nat.eqb_refl. cbn.
    rewrite R. auto.
Qed.

Lemma X20_witness :
  let st := SearchBox.run (SearchBox.initial [])
              (map SearchBox.Change [units "C"; units "Ca"; units "Cam"]) in
  exists id,
    SearchBox.timeouts st = [(id, units "Cam")] /\
    SearchBox.requests (SearchBox.step st (SearchBox.TimeoutExpired id)) = [units "Cam"].
Proof.
  destruct (X20_burst_requests_last_text [] [] [units "C"; units "Ca"] (units "Cam"))
    as (_ & _ & _ & H).
  destruct (H ltac:(cbn; lia)) as (id & Ht & Hr & _).
  exists id. split; [exact Ht|exact Hr].
Defined.

(** X21. The clear button does not cancel a pending search: with a
    timeout alive, after the button is clicked the timeout still expires and
    issues its request, and the answer is shown (the suggestions are set and
    the list opens when the answer is not empty) although the query is
    empty. *)
Theorem X21_clear_keeps_pending_search st id text data :
  SearchBox.timeouts st = [(id, text)] ->
  let st' := SearchBox.run st
               [SearchBox.ClearClicked; SearchBox.TimeoutExpired id;
                SearchBox.FetchSettled (Resolved data)] in
  SearchBox.query st' = [] /\
  SearchBox.requests st' = SearchBox.requests st ++ [text] /\
  SearchBox.suggestions st' = data /\
  SearchBox.is_open st' = negb (Nat.eqb (List.length data) 0).
Proof.
  intros E. cbn [SearchBox.run fold_left SearchBox.step].
  assert (E1 : SearchBox.timeouts (SearchBox.clear_clicked st) = [(id, text)])
    by (unfold SearchBox.clear_clicked; destruct (SearchBox.query st); exact E).
  assert (Q1 : SearchBox.query (SearchBox.clear_clicked st) = [])
    by (unfold SearchBox.clear_clicked; destruct (SearchBox.query st) eqn:Q;
        [exact Q|reflexivity]).
  assert (R1 : SearchBox.requests (SearchBox.clear_clicked st) = SearchBox.requests st)
    by (unfold SearchBox.clear_clicked; now destruct (SearchBox.query st)).
  unfold SearchBox.fire. rewrite E1. cbn [find fst]. rewrite Nat.eqb_refl.
  cbn. rewrite Q1, R1. auto.
Qed.

Lemma X21_witness :
  let st := SearchBox.run (SearchBox.initial []) [SearchBox.Change (units "Cam")] in
  let st' := SearchBox.run st
               [SearchBox.ClearClicked; SearchBox.TimeoutExpired 1;
                SearchBox.FetchSettled (Resolved [SearchBox.campinas])] in
  SearchBox.query st' = [] /\ SearchBox.suggestions st' = [SearchBox.campinas] /\
  SearchBox.is_open st' = true.
Proof.
  intros st.
  destruct (X21_clear_keeps_pending_search st 1 (units "Cam") [SearchBox.campinas] eq_refl)
    as (Hq & _ & Hs & Ho).
  split; [exact Hq|]. split; [exact Hs|exact Ho].
Defined.

(* ------------------------------------------------------------------ *)
(** ** The popups on the map *)
(* ------------------------------------------------------------------ *)

Lemma kinds_exclusive p : is_persistent p = negb (is_transient p).
Proof. unfold is_persistent, is_transient. now destruct (kind p). Qed.

Lemma shape_remove ref st ps ts :
  shown st = ps ++ ts ->
  shown (remove ref st) =
    match ref with
    | None => ps ++ ts
    | Some p => filter (fun q => negb (popup_id q =? popup_id p)%nat) ps
                ++ filter (fun q => negb (popup_id q =? popup_id p)%nat) ts
    end.
Proof. intros E. destruct ref; cbn; rewrite E; [apply filter_app|reflexivity]. Qed.

Lemma filter_single {A} (f : A -> bool) (l : list A) (P : A -> Prop) :
  (l = [] \/ exists x, l = [x] /\ P x) ->
  (filter f l = [] \/ exists x, filter f l = [x] /\ P x).
Proof.
  intros [->|(x & -> & H)]; [now left|]. cbn. destruct (f x); [right; eauto|now left].
Qed.

Lemma filter_own_id (t : Popup) :
  filter (fun q => negb (popup_id q =? popup_id t)%nat) [t] = [].
Proof. cbn. now rewrite Nat.eqb_refl. Qed.

(** Taking the hover popup off the map. *)
Lemma shape_remove_hover st :
  popups_shape st ->
  exists ps,
    shown (remove (hoverPopupRef st) st) = ps /\
    (ps = [] \/ exists p, ps = [p] /\ is_persistent p = true /\
                          clickPopupRef st = Some p).
Proof.
  intros (ps & ts & E & Hp & Ht).
  rewrite (shape_remove _ st ps ts E).
  destruct Ht as [->|(t & -> & Kt & Rt)].
  - rewrite app_nil_r.
    destruct (hoverPopupRef st) as [h|]; [|eauto].
    cbn [filter]. rewrite app_nil_r. eexists. split; [reflexivity|].
    now apply filter_single.
  - rewrite Rt, filter_own_id, app_nil_r. eexists. split; [reflexivity|].
    now apply filter_single.
Qed.

Lemma shape_open_hover st :
  popups_shape st ->
  popups_shape (let st1 := remove (hoverPopupRef st) st in
                let (p, st2) := open Transient st1 in set_hover (Some p) st2).
Proof.
  intros H. destruct (shape_remove_hover st H) as (ps & E & Hp).
  destruct (remove_refs (hoverPopupRef st) st) as (Rc & _ & Rn).
  cbn [open set_hover]. rewrite E, Rc.
  exists ps, [{| popup_id := next_popup (remove (hoverPopupRef st) st); kind := Transient |}].
  split; [reflexivity|]. split; [exact Hp|]. right. eexists. repeat split.
Qed.

Lemma step_popups_shape st ev : popups_shape st -> popups_shape (step st ev).
Proof.
  intros H.
  assert (Hk : popups_shape (close_on_click st)).
  { exists [], []. split; [reflexivity|]. split; now left. }
  destruct ev as [l f|l f|l| | | |]; cbn [step].
  - rewrite (click_shown l f st). destruct l, f; try exact Hk.
    rewrite click_sample.
    exists [{| popup_id := next_popup st; kind := Persistent |}], [].
    split; [reflexivity|]. split; [|now left]. right. eexists. repeat split.
  - unfold on_mouseenter. destruct f; cbn [negb]; [|exact H].
    pose proof (shape_open_hover st H) as G.
    destruct l; [destruct (clickPopupRef st) eqn:C; [exact H|]|..]; exact G.
  - unfold on_mouseleave.
    destruct (shape_remove_hover st H) as (ps & E & Hp).
    destruct (remove_refs (hoverPopupRef st) st) as (Rc & _ & _).
    exists ps, []. cbn [set_hover shown clickPopupRef hoverPopupRef].
    rewrite E, Rc, app_nil_r. split; [reflexivity|]. split; [exact Hp|now left].
  - destruct H as (ps & ts & E & Hp & Ht). unfold on_close.
    exists [], ts. cbn [shown clickPopupRef hoverPopupRef]. rewrite E, filter_app.
    split; [|split; [now left|exact Ht]].
    assert (P0 : filter (fun q => match kind q with Persistent => false | Transient => true end)
                   ps = []).
    { destruct Hp as [->|(p & -> & Kp & _)]; [reflexivity|].
      cbn. unfold is_persistent in Kp. now destruct (kind p). }
    rewrite P0. cbn [app].
    destruct Ht as [->|(t & -> & Kt & _)]; [reflexivity|].
    cbn. unfold is_transient in Kt. now destruct (kind t).
  - exact Hk.
  - exact (shape_open_hover st H).
  - unfold on_list_leave.
    destruct (shape_remove_hover st H) as (ps & E & Hp).
    destruct (remove_refs (hoverPopupRef st) st) as (Rc & _ & _).
    exists ps, []. rewrite E, Rc, app_nil_r.
    split; [reflexivity|]. split; [exact Hp|now left].
Qed.

Lemma run_popups_shape evs : forall st, popups_shape st -> popups_shape (run st evs).
Proof.
  unfold run. induction evs as [|ev evs IH]; intros st H; cbn [fold_left]; [exact H|].
  apply IH, step_popups_shape, H.
Qed.

Lemma initial_popups_shape : popups_shape initial.
Proof. exists [], []. split; [reflexivity|]. split; now left. Qed.

(** X22. Whatever the user does, the map never carries two click popups
    nor two hover popups: in every reachable state at most one persistent
    and at most one transient popup are shown, the persistent one below; and
    leaving a feature leaves no hover popup behind. *)
Theorem X22_at_most_one_popup_each evs :
  let st := run initial evs in
  (List.length (filter is_persistent (shown st)) <= 1)%nat /\
  (List.length (filter is_transient (shown st)) <= 1)%nat /\
  (List.length (shown st) <= 2)%nat /\
  (forall l, transient_open (step st (MouseLeave l)) = false).
Proof.
  intros st.
  assert (B : forall s, popups_shape s ->
                (List.length (filter is_persistent (shown s)) <= 1)%nat /\
                (List.length (filter is_transient (shown s)) <= 1)%nat /\
                (List.length (shown s) <= 2)%nat).
  { intros s (ps & ts & E & Hp & Ht). rewrite E, !filter_app, !length_app.
    destruct Hp as [->|(p & -> & Kp & _)], Ht as [->|(t & -> & Kt & _)]; cbn;
      rewrite ?Kp, ?Kt; rewrite ?kinds_exclusive, ?Kt; cbn;
      try (rewrite kinds_exclusive in Kp; apply negb_true_iff in Kp; rewrite Kp);
      cbn; lia. }
  pose proof (run_popups_shape evs initial initial_popups_shape) as H. fold st in H.
  destruct (B st H) as (B1 & B2 & B3). repeat split; try assumption.
  intros l. cbn [step]. unfold on_mouseleave, transient_open. cbn [set_hover shown].
  destruct (shape_remove_hover st H) as (ps & E & Hp). rewrite E.
  destruct Hp as [->|(p & -> & Kp & _)]; [reflexivity|].
  cbn. rewrite kinds_exclusive in Kp. apply negb_true_iff in Kp. now rewrite Kp.
Qed.

Lemma click_ref_stays st ev :
  clickPopupRef st <> None -> clickPopupRef (step st ev) <> None.
Proof.
  intros H. destruct ev as [l f|l f|l| | | |]; cbn [step].
  - rewrite (click_shown l f st). destruct l, f; try exact H.
    rewrite click_sample. discriminate.
  - unfold on_mouseenter. destruct f; cbn [negb]; [|exact H].
    destruct (remove_refs (hoverPopupRef st) st) as (Rc & _ & _).
    destruct l; [destruct (clickPopupRef st) eqn:C; [now rewrite C|contradiction]|..];
      cbn [open set_hover clickPopupRef]; now rewrite Rc.
  - unfold on_mouseleave. cbn [set_hover clickPopupRef].
    destruct (remove_refs (hoverPopupRef st) st) as (Rc & _ & _). now rewrite Rc.
  - exact H.
  - exact H.
  - unfold on_list_enter. cbn [open set_hover clickPopupRef].
    destruct (remove_refs (hoverPopupRef st) st) as (Rc & _ & _). now rewrite Rc.
  - unfold on_list_leave.
    destruct (remove_refs (hoverPopupRef st) st) as (Rc & _ & _). now rewrite Rc.
Qed.

(** X23. [clickPopupRef] is never reset.  Once a sample has been clicked,
    hovering a sample shows nothing any more, whatever happened in between
    (the click popup may long have been closed): the hover handler of the
    samples layer returns at its guard. *)
Theorem X23_sample_hover_off_after_click before after f :
  let st := run initial (before ++ [Click samples_circles true] ++ after) in
  step st (MouseEnter samples_circles f) = st.
Proof.
  intros st.
  assert (H : clickPopupRef st <> None).
  { subst st. unfold run. rewrite !fold_left_app.
    set (s1 := fold_left step [Click samples_circles true] _).
    assert (H1 : clickPopupRef s1 <> None) by (subst s1; cbn; discriminate).
    clearbody s1. revert s1 H1.
    induction after as [|ev after IH]; intros s1 H1; cbn [fold_left]; [exact H1|].
    apply IH, click_ref_stays, H1. }
  cbn [step]. unfold on_mouseenter. destruct f; cbn [negb]; [|reflexivity].
  destruct (clickPopupRef st); [reflexivity|contradiction].
Qed.

(* ------------------------------------------------------------------ *)
(** ** The best-departure query *)
(* ------------------------------------------------------------------ *)

Lemma departure_run_snoc st evs ev :
  Departure.run st (evs ++ [ev]) = Departure.step (Departure.run st evs) ev.
Proof. unfold Departure.run. now rewrite fold_left_app. Qed.

Lemma departure_refs_kept evs : forall st,
  forallb (fun ev => negb (Departure.is_analyze ev)) evs = true ->
  Departure.lastOrigin (Departure.run st evs) = Departure.lastOrigin st /\
  Departure.lastDest (Departure.run st evs) = Departure.lastDest st /\
  Departure.lastDeparture (Departure.run st evs) = Departure.lastDeparture st.
Proof.
  unfold Departure.run.
  induction evs as [|ev evs IH]; intros st H; cbn [fold_left]; [auto|].
  cbn [forallb] in H. apply andb_prop in H as [He H].
  destruct (IH (Departure.step st ev) H) as (-> & -> & ->).
  destruct ev as [o d dep|today dur|r|]; try discriminate He; cbn [Departure.step];
    try (repeat split; reflexivity).
  unfold Departure.handleBestDeparture.
  destruct (Departure.lastOrigin st) eqn:Eo, (Departure.lastDest st) eqn:Ed;
    cbn; rewrite ?Eo, ?Ed; repeat split.
Qed.

Lemma departure_no_query evs : forall st,
  forallb (fun ev => negb (Departure.is_analyze ev)) evs = true ->
  Departure.lastOrigin st = None ->
  Departure.queries (Departure.run st evs) = Departure.queries st.
Proof.
  unfold Departure.run.
  induction evs as [|ev evs IH]; intros st H Ho; cbn [fold_left]; [auto|].
  cbn [forallb] in H. apply andb_prop in H as [He H].
  destruct ev as [o d dep|today dur|r|]; try discriminate He; cbn [Departure.step].
  - unfold Departure.handleBestDeparture. rewrite Ho. now apply IH.
  - rewrite IH; auto.
  - rewrite IH; auto.
Qed.

(** X24. The best-departure button does nothing until an analysis has
    been started; afterwards each click sends one query, for the origin and
    destination of the analysis started last (whether or not that analysis
    succeeded), dated with the first ten code units of its departure time,
    or with today's date when that was empty, and with the duration of the
    current result, 300 when there is none or it is zero. *)
Theorem X24_best_departure_uses_last_analysis :
  (forall evs today dur,
     forallb (fun ev => negb (Departure.is_analyze ev)) evs = true ->
     Departure.queries (Departure.run Departure.initial (evs ++ [Departure.BestDeparture today dur]))
       = []) /\
  (forall evs o d dep later today dur,
     forallb (fun ev => negb (Departure.is_analyze ev)) later = true ->
     let st := Departure.run Departure.initial (evs ++ [Departure.Analyze o d dep] ++ later) in
     let st' := Departure.step st (Departure.BestDeparture today dur) in
     Departure.queries st' =
       Departure.queries st ++
         [{| Departure.q_origin := o; Departure.q_dest := d;
             Departure.q_date := match dep with [] => today | _ => firstn 10 dep end;
             Departure.q_base := match dur with
                                 | Some q => if Qeq_bool q 0 then 300%Q else q
                                 | None => 300%Q
                                 end |}] /\
     Departure.bestDepLoading st' = true /\ Departure.bestDepOpen st' = true /\
     forall r, Departure.bestDepLoading (Departure.step st' (Departure.BestSettled r)) = false).
Proof.
  split.
  - intros evs today dur H.
    rewrite (departure_no_query _ Departure.initial); [reflexivity| |reflexivity].
    rewrite forallb_app, H. reflexivity.
  - intros evs o d dep later today dur H st st'.
    assert (R : Departure.lastOrigin st = Some o /\ Departure.lastDest st = Some d /\
                Departure.lastDeparture st = dep).
    { subst st. unfold Departure.run. rewrite !fold_left_app.
      cbn [fold_left Departure.step].
      destruct (departure_refs_kept later
                  (Departure.handleAnalyze o d dep
                     (fold_left Departure.step evs Departure.initial)) H)
        as (Ro & Rd & Rp).
      unfold Departure.run in *. rewrite Ro, Rd, Rp. repeat split. }
    destruct R as (Ro & Rd & Rp).
    subst st'. cbn [Departure.step]. unfold Departure.handleBestDeparture.
    rewrite Ro, Rd, Rp. cbn. repeat split.
Qed.

Lemma X24_witness :
  let o := {| Departure.lat := -23.5; Departure.lon := -46.6 |} in
  let d := {| Departure.lat := -22.9; Departure.lon := -43.2 |} in
  let st := Departure.run Departure.initial
              [Departure.BestDeparture (units "2026-01-01") None;
               Departure.Analyze o d (units "2026-03-07T08:30");
               Departure.BestDeparture (units "2026-01-01") None] in
  Departure.queries st =
    [{| Departure.q_origin := o; Departure.q_dest := d;
        Departure.q_date := units "2026-03-07"; Departure.q_base := 300%Q |}].
Proof.
  intros o d st.
  destruct X24_best_departure_uses_last_analysis as [_ H1].
  destruct (H1 [Departure.BestDeparture (units "2026-01-01") None] o d
              (units "2026-03-07T08:30") [] (units "2026-01-01") None eq_refl)
    as (Hq & _).
  cbn zeta in Hq.
  subst st. unfold Departure.run in *. cbn [app fold_left] in *.
  rewrite Hq. reflexivity.
Defined.

(* ------------------------------------------------------------------ *)
(** ** The request budget of the client *)
(* ------------------------------------------------------------------ *)

Lemma budget_set_nth M (l : list App.Pc) : forall j old new,
  nth_error l j = Some old ->
  (budget_left M (App.set_nth j new l) + fetches_left M old
   = budget_left M l + fetches_left M new)%nat.
Proof.
  unfold budget_left, list_sum.
  induction l as [|h t IH]; intros [|j] old new H; cbn in H; try discriminate.
  - injection H as ->. cbn [App.set_nth map fold_right]. lia.
  - cbn [App.set_nth map fold_right]. specialize (IH j old new H). lia.
Qed.

Lemma budget_app M l1 l2 :
  budget_left M (l1 ++ l2) = (budget_left M l1 + budget_left M l2)%nat.
Proof. unfold budget_left. now rewrite map_app, list_sum_app. Qed.

(** X25. The client never exceeds the budget of [pollRoute], whatever
    arrives and in whatever order: the GETs issued so far, plus those the
    suspended invocations may still issue, are at most [maxAttempts] per
    invocation of [handleAnalyze]. *)
Theorem X25_requests_within_budget maxAttempts evs :
  let s := App.run maxAttempts App.initial evs in
  (App.requests s + budget_left maxAttempts (App.jobs s)
   <= maxAttempts * List.length (App.jobs s))%nat /\
  (App.requests s <= maxAttempts * List.length (App.jobs s))%nat.
Proof.
  cbn zeta.
  set (I := fun s : App.Sys =>
              (App.requests s + budget_left maxAttempts (App.jobs s)
               <= maxAttempts * List.length (App.jobs s))%nat).
  assert (Hfin : forall es j old s, I s -> nth_error (App.jobs s) j = Some old ->
                   I (App.emit es (App.set_pc j App.Finished s))).
  { unfold I. intros es j old s Hs Hj. cbn [App.emit App.set_pc App.jobs App.requests].
    rewrite set_nth_length.
    pose proof (budget_set_nth maxAttempts _ j old App.Finished Hj) as B.
    cbn [fetches_left] in B. lia. }
  assert (Hmove : forall j i s, I s ->
                    nth_error (App.jobs s) j = Some (App.AwaitFetch i) ->
                    I (App.set_pc j (App.AwaitSleep i) s)).
  { unfold I. intros j i s Hs Hj. cbn [App.set_pc App.jobs App.requests].
    rewrite set_nth_length.
    pose proof (budget_set_nth maxAttempts _ j _ (App.AwaitSleep i) Hj) as B.
    cbn [fetches_left] in B. lia. }
  assert (Henter : forall j i old s, I s -> nth_error (App.jobs s) j = Some old ->
                     (fetches_left maxAttempts old >= maxAttempts - i)%nat ->
                     I (App.enter_iteration maxAttempts j i s)).
  { intros j i old s Hs Hj Hold. unfold App.enter_iteration.
    destruct (Nat.ltb_spec i maxAttempts) as [Hlt|Hge].
    - unfold I in *. cbn [App.set_pc App.jobs App.requests].
      rewrite set_nth_length.
      pose proof (budget_set_nth maxAttempts _ j old (App.AwaitFetch i) Hj) as B.
      cbn [fetches_left] in B. lia.
    - now apply Hfin with (old := old). }
  assert (Hstart : forall s, I s -> I (App.handleAnalyze s)).
  { unfold I. intros s Hs. cbn [App.handleAnalyze App.jobs App.requests App.emit].
    rewrite budget_app, length_app.
    change (budget_left maxAttempts [App.AwaitCreate]) with (maxAttempts + 0)%nat.
    cbn [List.length]. lia. }
  assert (Hstep : forall s ev, I s -> I (App.step maxAttempts s ev)).
  { intros s ev Hs. destruct ev as [| |j r|j r|j]; cbn [App.step].
    - now apply Hstart.
    - destruct (App.canAnalyze s); [now apply Hstart|exact Hs].
    - destruct (nth_error (App.jobs s) j) as [[| | |]|] eqn:Hj; try exact Hs.
      destruct r.
      + apply Henter with (old := App.AwaitCreate); [exact Hs|exact Hj|cbn; lia].
      + now apply Hfin with (old := App.AwaitCreate).
    - destruct (nth_error (App.jobs s) j) as [[|i|i|]|] eqn:Hj; try exact Hs.
      destruct r as [rr|e].
      + destruct (is_final (status rr)).
        * now apply Hfin with (old := App.AwaitFetch i).
        * now apply Hmove.
      + now apply Hfin with (old := App.AwaitFetch i).
    - destruct (nth_error (App.jobs s) j) as [[|i|i|]|] eqn:Hj; try exact Hs.
      apply Henter with (old := App.AwaitSleep i); [exact Hs|exact Hj|cbn; lia]. }
  assert (G : I (App.run maxAttempts App.initial evs)).
  { unfold App.run.
    assert (F : forall s0, I s0 -> I (fold_left (App.step maxAttempts) evs s0)).
    { induction evs as [|ev evs IH]; intros s0 H0; cbn [fold_left]; [exact H0|].
      apply IH, Hstep, H0. }
    apply F. unfold I. cbn. lia. }
  unfold I in G. split; [exact G|lia].
Qed.

(** ** Instances *)

Lemma X6_witness :
  let net := {| fetches := 0; slept := [] |} in
  (fetches (snd (pollRoute failing_backend 1500 60 net)) <= 60)%nat /\
  exists e, fst (pollRoute failing_backend 1500 60 net) = Rejected e.
Proof.
  intros net.
  destruct (X6_pollRoute_outcomes failing_backend 1500 60 net)
    as (k & _ & _ & _ & Hn & _).
  split; [exact Hn|]. eexists. reflexivity.
Defined.

Lemma X8_witness :
  let evs := [App.AnalyzeClicked; App.CreateSettled 0 (Resolved "a"%string);
              App.FetchSettled 0 (Resolved (completed_result "a"))] in
  App.result (App.app (App.run 60 App.initial evs)) = Some (completed_result "a") /\
  status (completed_result "a") = completed.
Proof.
  intros evs. split; [reflexivity|].
  destruct (X8_only_completed_results 60 evs) as [H _].
  apply H. reflexivity.
Defined.

Lemma X19_witness :
  let evs := [SearchBox.Change (units "Cam"); SearchBox.TimeoutExpired 1] in
  SearchBox.requests (SearchBox.run (SearchBox.initial []) evs) = [units "Cam"] /\
  In (units "Cam") (SearchBox.typed evs).
Proof.
  intros evs. split; [reflexivity|].
  destruct (X19_search_box_debounce [] evs) as [_ H].
  apply (H (units "Cam")). now left.
Defined.
